(** * potion-node: the Potion JSON client core, embedded in Rocq

    Shallow embedding of [src/core/potion.ts] (class [PotionBase]: [fetch],
    [parseURI], [toPotionJSON], [fromPotionJSON]) and of the [Item] and
    [Pagination] classes of the client, with the properties of the
    specification proved about them.

    Conventions of the embedding.
    - JavaScript strings are sequences of code units; they are taken as
      [string] (8-bit units).  Every string operation used by the code
      ([indexOf], [substring], [split], template concatenation) is
      insensitive to the width of a unit.
    - Numbers are the integral doubles plus [NaN] and the infinities;
      [parseInt] and the division round to the nearest double as the
      runtime does.
    - Plain objects and arrays that the code never mutates (wire JSON,
      decoded plain mappings) are trees; a plain object is the list of its
      own enumerable properties in enumeration order.  Objects the code
      mutates or shares (items, fetch options, search objects, pagination
      cursors, promises) live in stores and are addressed by location.
    - The asynchronous part is a transition system: a call of [fetch] is one
      step, the settlement of a transport request is one step, and the
      continuations of a decode run in steps of their own. *)

From Stdlib Require Import ZArith String Ascii List Lia Bool.
From stdpp Require Import base option gmap strings list.

Set Warnings "-register-all".
Local Open Scope string_scope.
Local Open Scope Z_scope.

(** ** Strings *)

Module JSString.

(** [s.indexOf(pat)]: the least index at which [pat] occurs in [s], [-1] when
    it does not occur. *)
Fixpoint indexOf (s pat : string) : Z :=
  if String.prefix pat s then 0
  else match s with
       | EmptyString => -1
       | String _ s' => let i := indexOf s' pat in
                        if i <? 0 then -1 else i + 1
       end.

(** [s.substring(n)]. *)
Fixpoint substring (n : nat) (s : string) : string :=
  match n, s with
  | O, _ => s
  | S _, EmptyString => EmptyString
  | S n', String _ s' => substring n' s'
  end.

(** [s.split(sep)] for a separator of one unit. *)
Fixpoint split (sep : ascii) (s : string) : list string :=
  match s with
  | EmptyString => [EmptyString]
  | String c s' =>
      if Ascii.eqb c sep then EmptyString :: split sep s'
      else match split sep s' with
           | [] => [String c EmptyString]
           | w :: ws => String c w :: ws
           end
  end.

(** [s.startsWith(pat)]. *)
Definition startsWith (s pat : string) : bool := String.prefix pat s.

Definition is_digit (c : ascii) : bool :=
  let n := nat_of_ascii c in (48 <=? n)%nat && (n <=? 57)%nat.

(** [/^\d+$/.test(s)]. *)
Fixpoint all_digits (s : string) : bool :=
  match s with
  | EmptyString => true
  | String c s' => is_digit c && all_digits s'
  end.

Definition test_digits (s : string) : bool :=
  match s with
  | EmptyString => false
  | _ => all_digits s
  end.

Definition digit_value (c : ascii) : Z := Z.of_nat (nat_of_ascii c) - 48.

(** The value of the longest prefix of decimal digits, read after [acc];
    [seen] tells whether a digit was read. *)
Fixpoint digits_prefix (s : string) (acc : Z) (seen : bool) : option Z :=
  match s with
  | String c s' =>
      if is_digit c then digits_prefix s' (10 * acc + digit_value c) true
      else if seen then Some acc else None
  | EmptyString => if seen then Some acc else None
  end.

Definition is_space (c : ascii) : bool :=
  let n := nat_of_ascii c in
  (n =? 32)%nat || ((9 <=? n)%nat && (n <=? 13)%nat).

Fixpoint skip_space (s : string) : string :=
  match s with
  | String c s' => if is_space c then skip_space s' else s
  | EmptyString => s
  end.

End JSString.

(** ** Values *)

Inductive number :=
| Int (z : Z)
| NaN
| Infinity (negative : bool).

(** Locations in the stores. *)
Abbreviation loc := nat.

(** A JavaScript value as the client meets it.  [VDate t] is a [Date] whose
    time value is [t] ([NaN] for an invalid date); [VItem l] and
    [VPagination c] are references into the stores. *)
Inductive value :=
| VUndefined
| VNull
| VBool (b : bool)
| VNum (n : number)
| VStr (s : string)
| VDate (t : number)
| VItem (l : loc)
| VPagination (c : loc)
| VArr (xs : list value)
| VObj (fs : list (string * value)).

(** What a promise is rejected with, or what is thrown: an [Error] instance
    ([name] tells [Error] from [URIError]) or any other value. *)
Inductive reason :=
| RError (name message : string)
| RValue (v : value).

Inductive completion (A : Type) :=
| Return (a : A)
| Throw (e : reason).
Arguments Return {A} a.
Arguments Throw {A} e.

Inductive outcome :=
| Fulfilled (v : value)
| Rejected (e : reason).

(** ** Plain objects and [Map]s

    Both keep their keys in insertion order, and writing an existing key keeps
    its place. *)

Module Obj.

Definition t := list (string * value).

Fixpoint get (k : string) (o : t) : option value :=
  match o with
  | [] => None
  | (k', v) :: o' => if String.eqb k k' then Some v else get k o'
  end.

Fixpoint set (k : string) (v : value) (o : t) : t :=
  match o with
  | [] => [(k, v)]
  | (k', v') :: o' =>
      if String.eqb k k' then (k, v) :: o' else (k', v') :: set k v o'
  end.

(** [Object.assign(target, source)]. *)
Definition assign (target source : t) : t :=
  fold_left (fun o kv => set (fst kv) (snd kv) o) source target.

Definition keys (o : t) : list string := map fst o.

(** [obj[k]] as a value: [undefined] when the property is missing. *)
Definition prop (k : string) (o : t) : value :=
  match get k o with Some v => v | None => VUndefined end.

End Obj.

(** [typeof v === 'string'] *)
Definition as_string (v : value) : option string :=
  match v with VStr s => Some s | _ => None end.

(** Truthiness ([ToBoolean]). *)
Definition truthy (v : value) : bool :=
  match v with
  | VUndefined | VNull => false
  | VBool b => b
  | VNum (Int z) => negb (z =? 0)
  | VNum NaN => false
  | VNum (Infinity _) => true
  | VStr s => negb (String.eqb s "")
  | _ => true
  end.

(** ** What the embedding takes from outside [src/]

    The naming codec lives in the client's [utils] module and
    [decodeURIComponent] in the JavaScript runtime; the development is
    parametric in both. *)

Class NamingCodec := {
  toCamelCase : string -> string;
  toSnakeCase : string -> string
}.

Class Runtime := {
  (** [None]: the call throws a [URIError]. *)
  decodeURIComponent : string -> option string;
  URIError_message : string;
  TypeError_message : string;
  (** [Number(s)] and [Date.parse(s)] on a string *)
  Number_of_string : string -> number;
  Date_parse : string -> number
}.

(** ** The resource registry and [parseURI] *)

(** A registered resource type: its name and the own properties a fresh
    instance starts with. *)
Record resource := {
  r_name : string;
  r_fields : Obj.t
}.

Record ParsedURI := {
  p_uri : string;
  p_resource : resource;
  p_params : list string
}.

(** [this.resources[uri] = resource] *)
Fixpoint register (uri : string) (r : resource)
    (resources : list (string * resource)) : list (string * resource) :=
  match resources with
  | [] => [(uri, r)]
  | (u, r') :: rest =>
      if String.eqb uri u then (uri, r) :: rest else (u, r') :: register uri r rest
  end.

Section ParseURI.
Context `{Runtime}.

(** The loop of [parseURI] over [entries(this.resources)]. *)
Fixpoint scan_resources (uri : string) (resources : list (string * resource))
    : option ParsedURI :=
  match resources with
  | [] => None
  | (resourceURI, r) :: rest =>
      if JSString.indexOf uri (resourceURI +:+ "/") =? 0
      then Some {| p_uri := uri;
                   p_resource := r;
                   p_params := JSString.split "/"
                      (JSString.substring (String.length resourceURI + 1) uri) |}
      else scan_resources uri rest
  end.

Definition strip_prefix (prefix uri : string) : string :=
  if JSString.indexOf uri prefix =? 0
  then JSString.substring (String.length prefix) uri
  else uri.

Definition unknown_resource (uri : string) : reason :=
  RError "Error"
    ("URI '" +:+ uri +:+ "' is an uninterpretable or unknown potion resource.").

Definition parseURI (prefix : string) (resources : list (string * resource))
    (uri : string) : completion ParsedURI :=
  match decodeURIComponent uri with
  | None => Throw (RError "URIError" URIError_message)
  | Some uri =>
      let uri := strip_prefix prefix uri in
      match scan_resources uri resources with
      | Some parsed => Return parsed
      | None => Throw (unknown_resource uri)
      end
  end.

End ParseURI.

(** ** Numbers, dates and the numeric conversions the code relies on *)

Module JSNumber.

(** [TimeClip]: the time value of [new Date(n)]. *)
Definition time_clip (n : number) : number :=
  match n with
  | Int z => if Z.abs z <=? 8640000000000000 then Int z else NaN
  | _ => NaN
  end.

(** The integer nearest to [n / d], for [0 <= n] and [0 < d]; of two that
    are equally near, the even one. *)
Definition round_half_even (n d : Z) : Z :=
  let q := n / d in
  let r := n mod d in
  if 2 * r <? d then q
  else if d <? 2 * r then q + 1
  else if Z.even q then q else q + 1.

(** The double nearest to the integer [z]: [z] itself when 53 bits hold it,
    and [z] rounded to 53 bits otherwise; an infinity beyond the largest
    double. *)
Definition double_of_Z (z : Z) : number :=
  let e := Z.log2 (Z.abs z) - 52 in
  if e <=? 0 then Int z
  else
    let v := round_half_even (Z.abs z) (2 ^ e) * 2 ^ e in
    if v <? 2 ^ 1024 then Int (Z.sgn z * v) else Infinity (z <? 0).

(** [parseInt(s, 10)] on a string: the double nearest to the number that
    the digits write. *)
Definition parseInt_string (s : string) : number :=
  match JSString.skip_space s with
  | String "-" s' =>
      match JSString.digits_prefix s' 0 false with
      | Some z => double_of_Z (- z) | None => NaN
      end
  | String "+" s' =>
      match JSString.digits_prefix s' 0 false with
      | Some z => double_of_Z z | None => NaN
      end
  | s' =>
      match JSString.digits_prefix s' 0 false with
      | Some z => double_of_Z z | None => NaN
      end
  end.

(** [parseInt(v, 10)]: the argument is converted to a string first.  Arrays
    and objects, whose string conversion is the runtime's, are no counts and
    are taken to [NaN]. *)
Definition parseInt (v : value) : number :=
  match v with
  | VStr s => parseInt_string s
  | VNum (Int z) => Int z
  | _ => NaN
  end.

(** The double nearest to the quotient [a / b] of two positive integers, as
    a significand [m] of at most 53 bits and an exponent [e]: the double is
    [m * 2^e].  The quotient lies between [2^k] and [2^(k+1)]. *)
Definition nearest_double (a b : Z) : Z * Z :=
  let K := Z.log2 b + 1 in
  let k := Z.log2 (a * 2 ^ K / b) - K in
  let e := Z.max (k - 52) (-1074) in
  (if 0 <=? e then round_half_even a (b * 2 ^ e)
   else round_half_even (a * 2 ^ (- e)) b, e).

(** [Math.ceil] of the double [m * 2^e], taken with the sign [negative]. *)
Definition ceil_double (negative : bool) (m e : Z) : Z :=
  if 0 <=? e then (if negative then - (m * 2 ^ e) else m * 2 ^ e)
  else if negative then - (m / 2 ^ (- e)) else - ((- m) / 2 ^ (- e)).

(** [Math.ceil(a / b)] on numbers: the quotient is the double nearest to
    the quotient of the two. *)
Definition ceil_div (a b : number) : number :=
  match a, b with
  | NaN, _ | _, NaN => NaN
  | Infinity _, Infinity _ => NaN
  | Infinity n, Int z => Infinity (xorb n (z <? 0))
  | Int _, Infinity _ => Int 0
  | Int x, Int y =>
      if y =? 0 then
        if x =? 0 then NaN else Infinity (x <? 0)
      else if x =? 0 then Int 0
      else
        let '(m, e) := nearest_double (Z.abs x) (Z.abs y) in
        Int (ceil_double (xorb (x <? 0) (y <? 0)) m e)
  end.

End JSNumber.

Section Conversions.
Context `{Runtime}.

(** [ToNumber]; the conversion of a string is the runtime's.  An array or
    an object converts through its string, which is the runtime's too; they
    are no numbers here and are taken to [NaN]. *)
Definition to_number (v : value) : number :=
  match v with
  | VUndefined => NaN
  | VNull => Int 0
  | VBool b => Int (if b then 1 else 0)
  | VNum n => n
  | VStr s => Number_of_string s
  | VDate t => t
  | _ => NaN
  end.

(** The time value of [new Date(v)] for one argument [v]: a number is
    clipped, a string is parsed by the runtime, a date is copied. *)
Definition new_Date (v : value) : number :=
  match v with
  | VStr s => Date_parse s
  | VDate t => t
  | _ => JSNumber.time_clip (to_number v)
  end.

End Conversions.

(** ** The stores *)

(** An [Item] instance: the resource type that constructed it and its own
    properties. *)
Record Item := {
  i_resource : resource;
  i_props : Obj.t
}.

(** [Reflect.construct(resource, [properties])]: the constructor of [Item]
    assigns [properties] onto the fresh instance
    ([constructor(properties = {}) { Object.assign(this, properties); }]). *)
Definition construct (r : resource) (properties : Obj.t) : Item :=
  {| i_resource := r; i_props := Obj.assign (r_fields r) properties |}.

(** Modelled from the spec: the [uri] accessor of [Item] ([src/core/item.ts] is
    not among the sources).  The locator of an item is what the decode
    assigns to it as [$uri]. *)
Definition item_uri (it : Item) : option string :=
  as_string (Obj.prop "$uri" (i_props it)).

(** [FetchOptions]; [o_search] is a reference to the search object, [None] when
    the property is [undefined] or [null] (the code does not tell them
    apart). *)
Record FetchOptions := {
  o_method : option string;
  o_search : option loc;
  o_data : value;
  o_cache : bool;
  o_paginate : bool
}.

Definition no_options : FetchOptions :=
  {| o_method := None; o_search := None; o_data := VUndefined;
     o_cache := false; o_paginate := false |}.

Definition with_search (s : option loc) (o : FetchOptions) : FetchOptions :=
  {| o_method := o_method o; o_search := s; o_data := o_data o;
     o_cache := o_cache o; o_paginate := o_paginate o |}.

(** A [Pagination] cursor. *)
Record Pagination := {
  _uri : string;
  _options : loc;
  _pointer : nat;
  _items : list value;
  _page : value;
  _perPage : value;
  _total : value
}.

(** What the transport collaborator is called with: [this.request(url, options)]. *)
Record Request := {
  q_url : string;
  q_method : option string;
  q_search : value;
  q_data : value;
  q_cache : bool;
  q_paginate : bool
}.

(** What the transport answers. *)
Record PotionResponse := {
  data : value;
  headers : Obj.t
}.

Inductive pstate :=
| Pending
| Settled (o : outcome).

(** The promise a decode returns, as the computation that is left of it.
    - [TSettled]: [Promise.resolve(v)] or [Promise.reject(e)];
    - [TFetch p]: the promise [p] that [this.fetch] returned;
    - [TAll]: [Promise.all] over the elements of an array;
    - [TResource uri r properties promises]: the object with [$uri]; the
      entries of [promises] carry the key, whether the [Map] [promises] still
      holds the promise (a later entry with the same key replaces it), and the
      decode of the value; [properties] is the [Map] filled so far;
    - [TPlain]: the same for an object without marker. *)
Inductive task :=
| TSettled (o : outcome)
| TFetch (p : loc)
| TAll (ts : list task)
| TResource (uri : string) (r : resource) (properties : Obj.t)
    (promises : list (string * bool * task))
| TPlain (properties : Obj.t) (promises : list (string * bool * task)).

Inductive stage :=
| AwaitTransport
| Decoding (t : task)
| Finished.

(** The continuation of one call of [this.request]: the closure [fetch] of
    [PotionBase.fetch]. *)
Record Job := {
  j_uri : string;
  j_options : loc;
  j_paginate : bool;
  j_pagination : option loc;
  j_headers : Obj.t;
  (** the promise [request]: the end of the chain started by [this.request] *)
  j_request : loc;
  (** the promise [request.then(..)] handed to the caller when the request
      is registered in [pendingGETRequests] *)
  j_registered : option loc;
  j_stage : stage
}.

Definition with_stage (hs : Obj.t) (s : stage) (j : Job) : Job :=
  {| j_uri := j_uri j; j_options := j_options j; j_paginate := j_paginate j;
     j_pagination := j_pagination j; j_headers := hs; j_request := j_request j;
     j_registered := j_registered j; j_stage := s |}.

(** The configuration of a client. *)
Record PotionOptions := {
  host : string;
  prefix : string;
  resources : list (string * resource)
}.

(** The state of a client and of the objects around it.  [cache] is the
    identity cache, [pendingGETRequests] the table of the GET requests in
    flight.  [requests] logs the calls of the transport collaborator; the
    [n]-th call has the continuation [jobs !! n].  [background] holds the
    decodes that go on after the [Promise.all] above them was rejected. *)
Record Potion := {
  cache : gmap string loc;
  pendingGETRequests : gmap string loc;
  items : list Item;
  options : list FetchOptions;
  searches : list Obj.t;
  cursors : list Pagination;
  promises : list pstate;
  requests : list Request;
  jobs : list Job;
  background : list task
}.

Definition empty_potion : Potion :=
  {| cache := ∅; pendingGETRequests := ∅; items := []; options := [];
     searches := []; cursors := []; promises := []; requests := [];
     jobs := []; background := [] |}.

(** Field updates. *)
Definition upd_cache (f : gmap string loc -> gmap string loc) (s : Potion) : Potion :=
  {| cache := f (cache s); pendingGETRequests := pendingGETRequests s;
     items := items s; options := options s; searches := searches s;
     cursors := cursors s; promises := promises s; requests := requests s;
     jobs := jobs s; background := background s |}.
Definition upd_pending (f : gmap string loc -> gmap string loc) (s : Potion) : Potion :=
  {| cache := cache s; pendingGETRequests := f (pendingGETRequests s);
     items := items s; options := options s; searches := searches s;
     cursors := cursors s; promises := promises s; requests := requests s;
     jobs := jobs s; background := background s |}.
Definition upd_items (f : list Item -> list Item) (s : Potion) : Potion :=
  {| cache := cache s; pendingGETRequests := pendingGETRequests s;
     items := f (items s); options := options s; searches := searches s;
     cursors := cursors s; promises := promises s; requests := requests s;
     jobs := jobs s; background := background s |}.
Definition upd_options (f : list FetchOptions -> list FetchOptions) (s : Potion) : Potion :=
  {| cache := cache s; pendingGETRequests := pendingGETRequests s;
     items := items s; options := f (options s); searches := searches s;
     cursors := cursors s; promises := promises s; requests := requests s;
     jobs := jobs s; background := background s |}.
Definition upd_searches (f : list Obj.t -> list Obj.t) (s : Potion) : Potion :=
  {| cache := cache s; pendingGETRequests := pendingGETRequests s;
     items := items s; options := options s; searches := f (searches s);
     cursors := cursors s; promises := promises s; requests := requests s;
     jobs := jobs s; background := background s |}.
Definition upd_cursors (f : list Pagination -> list Pagination) (s : Potion) : Potion :=
  {| cache := cache s; pendingGETRequests := pendingGETRequests s;
     items := items s; options := options s; searches := searches s;
     cursors := f (cursors s); promises := promises s; requests := requests s;
     jobs := jobs s; background := background s |}.
Definition upd_promises (f : list pstate -> list pstate) (s : Potion) : Potion :=
  {| cache := cache s; pendingGETRequests := pendingGETRequests s;
     items := items s; options := options s; searches := searches s;
     cursors := cursors s; promises := f (promises s); requests := requests s;
     jobs := jobs s; background := background s |}.
Definition upd_requests (f : list Request -> list Request) (s : Potion) : Potion :=
  {| cache := cache s; pendingGETRequests := pendingGETRequests s;
     items := items s; options := options s; searches := searches s;
     cursors := cursors s; promises := promises s; requests := f (requests s);
     jobs := jobs s; background := background s |}.
Definition upd_jobs (f : list Job -> list Job) (s : Potion) : Potion :=
  {| cache := cache s; pendingGETRequests := pendingGETRequests s;
     items := items s; options := options s; searches := searches s;
     cursors := cursors s; promises := promises s; requests := requests s;
     jobs := f (jobs s); background := background s |}.
Definition upd_background (f : list task -> list task) (s : Potion) : Potion :=
  {| cache := cache s; pendingGETRequests := pendingGETRequests s;
     items := items s; options := options s; searches := searches s;
     cursors := cursors s; promises := promises s; requests := requests s;
     jobs := jobs s; background := f (background s) |}.

(** ** The state monad of the client *)

Definition M (A : Type) : Type := Potion -> A * Potion.

#[global] Instance M_ret : MRet M := fun A a s => (a, s).
#[global] Instance M_bind : MBind M :=
  fun A B f m s => let (a, s') := m s in f a s'.

Definition get_state : M Potion := fun s => (s, s).
Definition modify (f : Potion -> Potion) : M unit := fun s => (tt, f s).

Definition alloc_promise (p : pstate) : M loc :=
  fun s => (length (promises s), upd_promises (fun l => (l ++ [p])%list) s).
Definition alloc_options (o : FetchOptions) : M loc :=
  fun s => (length (options s), upd_options (fun l => (l ++ [o])%list) s).
Definition alloc_search (o : Obj.t) : M loc :=
  fun s => (length (searches s), upd_searches (fun l => (l ++ [o])%list) s).
Definition alloc_item (i : Item) : M loc :=
  fun s => (length (items s), upd_items (fun l => (l ++ [i])%list) s).
Definition alloc_cursor (c : Pagination) : M loc :=
  fun s => (length (cursors s), upd_cursors (fun l => (l ++ [c])%list) s).

(** ** The helpers of [utils] *)

(** Modelled from the spec: [pairsToObject] and [mapToObject] of [utils] (not
    among the sources) build the object that has the given entries, a later
    entry overwriting an earlier one of the same key; [omap] builds the object
    of the rewritten entries of an object. *)
Definition pairsToObject (ps : list (string * value)) : Obj.t :=
  fold_left (fun o '(k, v) => Obj.set k v o) ps [].

Definition mapToObject (m : Obj.t) : Obj.t := pairsToObject m.

Definition omap (f : string -> value -> string * value) (o : Obj.t) : Obj.t :=
  pairsToObject (map (fun '(k, v) => f k v) o).

(** Modelled from the spec: [deepOmap(json, null, keyMapper)] of [utils]
    renames the keys of every object of the tree, through arrays too, and
    leaves the other values as they are. *)
Fixpoint deepOmap (keyMapper : string -> string) (json : value) : value :=
  match json with
  | VArr xs => VArr (map (deepOmap keyMapper) xs)
  | VObj fs =>
      VObj (pairsToObject
              (map (fun '(k, v) => (keyMapper k, deepOmap keyMapper v)) fs))
  | _ => json
  end.

(** ** [PotionBase] *)

Section Client.
Context `{NamingCodec} `{Runtime}.
Variable cfg : PotionOptions.

(** *** The outbound transform *)

(** [toPotionJSON(json)].  The properties of an item that has no [uri] are
    read from the store; [fuel] bounds the number of such items that are
    entered one inside the other (a cycle of them exhausts the stack of the
    runtime). *)
Fixpoint toPotionJSON_fuel (fuel : nat) (its : list Item) : value -> value :=
  fix go (json : value) : value :=
    match json with
    | VItem l =>
        match its !! l with
        | Some it =>
            match item_uri it with
            | Some uri => VObj [("$ref", VStr (prefix cfg +:+ uri))]
            | None =>
                match fuel with
                | O => VUndefined
                | S fuel' =>
                    VObj (omap (fun k v =>
                                  (toSnakeCase k, toPotionJSON_fuel fuel' its v))
                            (i_props it))
                end
            end
        | None => VUndefined
        end
    | VDate t => VObj [("$date", VNum t)]
    | VArr xs => VArr (map go xs)
    | VObj fs => VObj (omap (fun k v => (toSnakeCase k, go v)) fs)
    | _ => json
    end.

Definition toPotionJSON (s : Potion) (json : value) : value :=
  toPotionJSON_fuel (length (items s)) (items s) json.

(** [toPotionJSON(search)] for the search object of the options. *)
Definition toPotionJSON_search (s : Potion) (search : option loc) : value :=
  match search with
  | None => VUndefined
  | Some l => toPotionJSON s (VObj (default [] (searches s !! l)))
  end.

(** *** [fetch] *)

(** [uri.indexOf(prefix) === -1 ? `${prefix}${uri}` : uri] *)
Definition add_prefix (uri : string) : string :=
  if JSString.indexOf uri (prefix cfg) =? -1 then prefix cfg +:+ uri else uri.

Definition page_defaults : Obj.t :=
  [("page", VNum (Int 1)); ("perPage", VNum (Int 25))].

Definition read_options (s : Potion) (fetchOptions : option loc) : FetchOptions :=
  match fetchOptions with
  | Some l => default no_options (options s !! l)
  | None => no_options
  end.

Definition read_search (s : Potion) (search : option loc) : Obj.t :=
  match search with
  | Some l => default [] (searches s !! l)
  | None => []
  end.

Definition is_GET (method : option string) : bool :=
  match method with
  | Some m => String.eqb m "GET"
  | None => false
  end.

(** [!search] *)
Definition no_search (search : option loc) : bool :=
  match search with
  | None => true
  | Some _ => false
  end.

(** The closure [fetch] of [PotionBase.fetch], called: the transport is asked
    and the continuation of the answer is kept.  Returns the number of the
    request and the promise at the end of the chain. *)
Definition issue (uri : string) (opts : loc) (search : option loc)
    (data : value) (paginate : bool) (pagination : option loc)
    : M (nat * loc) :=
  s ← get_state;
  let o := default no_options (options s !! opts) in
  let q := {| q_url := host cfg +:+ uri;
              q_method := o_method o;
              q_search := toPotionJSON_search s search;
              q_data := toPotionJSON s data;
              q_cache := o_cache o;
              q_paginate := o_paginate o |} in
  request ← alloc_promise Pending;
  let j := {| j_uri := uri; j_options := opts; j_paginate := paginate;
              j_pagination := pagination; j_headers := [];
              j_request := request; j_registered := None;
              j_stage := AwaitTransport |} in
  modify (upd_requests (fun l => (l ++ [q])%list));;
  modify (upd_jobs (fun l => (l ++ [j])%list));;
  mret (length (jobs s), request).

(** [request.then(onFulfilled, onRejected)] of [fetch]: a new promise, whose
    handlers run when the request settles. *)
Definition then_unregister (rid : nat) : M loc :=
  outer ← alloc_promise Pending;
  modify (upd_jobs (fun js =>
    match js !! rid with
    | Some j =>
        <[rid := {| j_uri := j_uri j; j_options := j_options j;
                    j_paginate := j_paginate j; j_pagination := j_pagination j;
                    j_headers := j_headers j; j_request := j_request j;
                    j_registered := Some outer; j_stage := j_stage j |}]> js
    | None => js
    end));;
  mret outer.

(** The head of [fetch]: the shallow copy [options] of the options and, for a
    paginated request, the search object made of the defaults and of the
    search of the caller.  Returns the options read, the copy and the
    variable [search]. *)
Definition copy_options (fetchOptions : option loc)
    : M (FetchOptions * loc * option loc) :=
  s ← get_state;
  let fo := read_options s fetchOptions in
  options ← alloc_options fo;
  if o_paginate fo then
    fresh ← alloc_search
              (Obj.assign page_defaults (read_search s (o_search fo)));
    modify (upd_options (fun os =>
              <[options := with_search (Some fresh) fo]> os));;
    mret (fo, options, Some fresh)
  else mret (fo, options, o_search fo).

Definition fetch (uri : string) (fetchOptions : option loc)
    (pagination : option loc) : M loc :=
  '(fo, options, search) ← copy_options fetchOptions;
  let key := uri in
  let uri := add_prefix uri in
  if is_GET (o_method fo) && no_search search then
    s ← get_state;
    match (if o_cache fo then cache s !! key else None) with
    | Some item => alloc_promise (Settled (Fulfilled (VItem item)))
    | None =>
        match pendingGETRequests s !! uri with
        | Some request => mret request
        | None =>
            '(rid, request) ← issue uri options search (o_data fo)
                                 (o_paginate fo) pagination;
            modify (upd_pending (fun m => <[uri := request]> m));;
            then_unregister rid
        end
    end
  else
    '(_, request) ← issue uri options search (o_data fo)
                       (o_paginate fo) pagination;
    mret request.

(** *** The inbound transform *)

(** [promises.set(k, p)]: an entry of the same key is replaced, and the
    promise it held is no longer waited for. *)
Definition promises_set (k : string) (t : task)
    (ps : list (string * bool * task)) : list (string * bool * task) :=
  (map (fun '(k', held, t') =>
          (k', held && negb (String.eqb k k'), t')) ps
   ++ [(k, true, t)])%list.

(** [Number.isInteger(id) || /^\d+$/.test(id) ? parseInt(id, 10) : id] for
    the first of [params]. *)
Definition id_of_params (params : list string) : value :=
  match params with
  | [] => VUndefined
  | id :: _ =>
      if JSString.test_digits id then VNum (JSNumber.parseInt_string id)
      else VStr id
  end.

(** The options [{cache: true, method: 'GET'}] of the fetch of a reference. *)
Definition reference_options : FetchOptions :=
  {| o_method := Some "GET"; o_search := None; o_data := VUndefined;
     o_cache := true; o_paginate := false |}.

(** The loops of [fromPotionJSON] over the elements of an array and over
    the entries of an object, for a decode [dec] of the values.  In the
    object with [$uri] ([own] set) the entry [$uri] is set to the parsed URI;
    every other entry is decoded under its camel-case key. *)
Section Loops.
Variable dec : value -> M task.

Fixpoint decode_each (xs : list value) : M (list task) :=
  match xs with
  | [] => mret []
  | x :: xs' =>
      t ← dec x;
      ts ← decode_each xs';
      mret (t :: ts)
  end.

Fixpoint decode_entries (own : bool) (fs : list (string * value))
    (uri : string) (properties : Obj.t)
    (promises : list (string * bool * task))
    : M (Obj.t * list (string * bool * task)) :=
  match fs with
  | [] => mret (properties, promises)
  | (key, value) :: fs' =>
      if own && String.eqb key "$uri"
      then decode_entries own fs' uri
             (Obj.set key (VStr uri) properties) promises
      else
        let k := toCamelCase key in
        t ← dec value;
        decode_entries own fs' uri properties (promises_set k t promises)
  end.
End Loops.

(** The placeholder: [if (!this.cache.get(uri)) this.cache.put(uri,
    Reflect.construct(resource, []))]. *)
Definition cache_placeholder (uri : string) (resource : resource) : M unit :=
  s ← get_state;
  match cache s !! uri with
  | Some _ => mret tt
  | None =>
      item ← alloc_item (construct resource []);
      modify (upd_cache (fun c => <[uri := item]> c))
  end.

(** The fetch of a reference: [this.fetch(uri, {cache: true, method: 'GET'})]. *)
Definition fetch_reference (uri : string) : M task :=
  opts ← alloc_options reference_options;
  p ← fetch uri (Some opts) None;
  mret (TFetch p).

(** [fromPotionJSON(json)] up to the promise it returns.  Everything the
    call does before it returns happens here: the URI is parsed, the
    placeholder is cached, the decodes of the properties are started and the
    references are fetched.  Wire data holds no item and no cursor; such a
    reference is left as it is. *)
Fixpoint fromPotionJSON (json : value) : M task :=
  match json with
  | VArr xs =>
      ts ← decode_each fromPotionJSON xs;
      mret (TAll ts)
  | VObj fs =>
      match as_string (Obj.prop "$uri" fs) with
      | Some wire_uri =>
          match parseURI (prefix cfg) (resources cfg) wire_uri with
          | Throw parseURIError => mret (TSettled (Rejected parseURIError))
          | Return parsedURI =>
              let resource := p_resource parsedURI in
              let params := p_params parsedURI in
              let uri := p_uri parsedURI in
              cache_placeholder uri resource;;
              '(properties, promises) ←
                decode_entries fromPotionJSON true fs uri [] [];
              let properties := Obj.set "$id" (id_of_params params) properties in
              mret (TResource uri resource properties promises)
          end
      | None =>
          match as_string (Obj.prop "$schema" fs) with
          | Some _ => mret (TSettled (Fulfilled (deepOmap toCamelCase json)))
          | None =>
              let plain :=
                '(properties, promises) ←
                  decode_entries fromPotionJSON false fs "" [] [];
                mret (TPlain properties promises) in
              match fs with
              | [_] =>
                  match as_string (Obj.prop "$ref" fs) with
                  | Some ref =>
                      if String.eqb ref "#"
                      then mret (TSettled (Fulfilled (VStr ref)))
                      else
                        match parseURI (prefix cfg) (resources cfg) ref with
                        | Throw parseURIError =>
                            mret (TSettled (Rejected parseURIError))
                        | Return parsedURI => fetch_reference (p_uri parsedURI)
                        end
                  | None =>
                      match Obj.prop "$date" fs with
                      | VUndefined => plain
                      | d => mret (TSettled (Fulfilled (VDate (new_Date d))))
                      end
                  end
              | _ => plain
              end
          end
      end
  | VDate _ => mret (TPlain [] [])
  | _ => mret (TSettled (Fulfilled json))
  end.

(** *** The continuations of a decode *)

(** The handler of [Promise.all(..).then(..)] for an object with [$uri]: the
    entry of the cache is updated in place, or a new item is made and
    cached. *)
Definition merge (uri : string) (resource : resource) (properties : Obj.t)
    : M value :=
  s ← get_state;
  match cache s !! uri with
  | Some item =>
      modify (upd_items (fun its =>
        match its !! item with
        | Some it =>
            <[item := {| i_resource := i_resource it;
                         i_props := Obj.assign (i_props it)
                                      (mapToObject properties) |}]> its
        | None => its
        end));;
      mret (VItem item)
  | None =>
      item ← alloc_item (construct resource (mapToObject properties));
      modify (upd_cache (fun c => <[uri := item]> c));;
      mret (VItem item)
  end.

Fixpoint first_rejected (ts : list task) : option reason :=
  match ts with
  | [] => None
  | TSettled (Rejected e) :: _ => Some e
  | _ :: ts' => first_rejected ts'
  end.

Fixpoint all_fulfilled (ts : list task) : option (list value) :=
  match ts with
  | [] => Some []
  | TSettled (Fulfilled v) :: ts' =>
      match all_fulfilled ts' with
      | Some vs => Some (v :: vs)
      | None => None
      end
  | _ :: _ => None
  end.

Definition unsettled (t : task) : bool :=
  match t with
  | TSettled _ => false
  | _ => true
  end.

(** Decodes that nobody waits for any longer go on in the background. *)
Definition orphan (ts : list task) : M unit :=
  modify (upd_background (fun b => (b ++ List.filter unsettled ts)%list)).

Definition held_slots (slots : list (string * bool * task)) : bool :=
  existsb (fun '(_, held, _) => held) slots.

(** The loops of a round over the elements of a [Promise.all] and over the
    promises of the properties of an object, for a round [red] on each.  A
    fulfilled property runs [properties.set(k, value)] and leaves the list;
    the first rejection among the promises that the [Map] still holds is
    reported.  A round takes the promises in the order of the payload; the
    runtime runs each continuation when its promise settles, so that the
    keys of the [Map] may come in another order than here.  The theorems
    on decoded data compare it key by key. *)
Section Rounds.
Variable red : task -> M task.

Fixpoint reduce_each (ts : list task) : M (list task) :=
  match ts with
  | [] => mret []
  | t :: ts' =>
      t' ← red t;
      ts'' ← reduce_each ts';
      mret (t' :: ts'')
  end.

Fixpoint reduce_slots (ps : list (string * bool * task)) (properties : Obj.t)
    : M (Obj.t * list (string * bool * task) * option reason) :=
  match ps with
  | [] => mret (properties, [], None)
  | (k, held, t) :: ps' =>
      t' ← red t;
      match t' with
      | TSettled (Fulfilled v) => reduce_slots ps' (Obj.set k v properties)
      | TSettled (Rejected e) =>
          '(properties', ps'', rejection) ← reduce_slots ps' properties;
          mret (properties', ps'', if held then Some e else rejection)
      | _ =>
          '(properties', ps'', rejection) ← reduce_slots ps' properties;
          mret (properties', (k, held, t') :: ps'', rejection)
      end
  end.
End Rounds.

(** One round of the continuations of a decode: every promise below [t]
    that has settled hands its result on.  An object whose properties are
    all there is merged; a rejection rejects the [Promise.all] above it, and
    what was still running below goes on in the background. *)
Fixpoint reduce (t : task) : M task :=
  match t with
  | TSettled _ => mret t
  | TFetch p =>
      s ← get_state;
      match promises s !! p with
      | Some (Settled o) => mret (TSettled o)
      | _ => mret t
      end
  | TAll ts =>
      ts' ← reduce_each reduce ts;
      match first_rejected ts' with
      | Some e => orphan ts';; mret (TSettled (Rejected e))
      | None =>
          match all_fulfilled ts' with
          | Some vs => mret (TSettled (Fulfilled (VArr vs)))
          | None => mret (TAll ts')
          end
      end
  | TResource uri resource properties promises =>
      '(properties', promises', rejection) ←
        reduce_slots reduce promises properties;
      match rejection with
      | Some e =>
          orphan (map snd promises');; mret (TSettled (Rejected e))
      | None =>
          if held_slots promises'
          then mret (TResource uri resource properties' promises')
          else
            orphan (map snd promises');;
            item ← merge uri resource properties';
            mret (TSettled (Fulfilled item))
      end
  | TPlain properties promises =>
      '(properties', promises', rejection) ←
        reduce_slots reduce promises properties;
      match rejection with
      | Some e =>
          orphan (map snd promises');; mret (TSettled (Rejected e))
      | None =>
          if held_slots promises'
          then mret (TPlain properties' promises')
          else
            orphan (map snd promises');;
            mret (TSettled (Fulfilled (VObj (mapToObject properties'))))
      end
  end.

(** *** [Pagination] (the parts the client calls) *)

Definition type_error : reason := RError "TypeError" TypeError_message.

(** [...items]: the elements of an array (or the units of a string); other
    data is not iterable. *)
Definition spread (items : value) : completion (list value) :=
  match items with
  | VArr xs => Return xs
  | VStr str =>
      Return (map (fun c => VStr (String c EmptyString)) (list_ascii_of_string str))
  | _ => Throw type_error
  end.

(** [data.length] *)
Definition length_of (s : Potion) (v : value) : completion value :=
  match v with
  | VUndefined | VNull => Throw type_error
  | VArr xs => Return (VNum (Int (Z.of_nat (length xs))))
  | VStr str => Return (VNum (Int (Z.of_nat (String.length str))))
  | VObj fs => Return (Obj.prop "length" fs)
  | VItem l =>
      Return (match items s !! l with
              | Some it => Obj.prop "length" (i_props it)
              | None => VUndefined
              end)
  | VPagination c =>
      Return (match cursors s !! c with
              | Some cur => VNum (Int (Z.of_nat (length (_items cur))))
              | None => VUndefined
              end)
  | _ => Return VUndefined
  end.

(** [new Pagination({uri, potion}, items, count, options)] *)
Definition new_Pagination (uri : string) (items : value) (count : value)
    (opts : loc) : M (completion loc) :=
  s ← get_state;
  match spread items with
  | Throw e => mret (Throw e)
  | Return xs =>
      match o_search (default no_options (options s !! opts)) with
      | None => mret (Throw type_error)
      | Some search =>
          let o := default [] (searches s !! search) in
          c ← alloc_cursor {| _uri := uri; _options := opts; _pointer := 0;
                              _items := xs;
                              _page := Obj.prop "page" o;
                              _perPage := Obj.prop "perPage" o;
                              _total := VNum (JSNumber.parseInt count) |};
          mret (Return c)
      end
  end.

(** [pagination.update(items, count)] *)
Definition update (c : loc) (items : value) (count : value)
    : M (completion value) :=
  s ← get_state;
  match cursors s !! c, spread items with
  | None, _ => mret (Throw type_error)
  | _, Throw e => mret (Throw e)
  | Some cur, Return xs =>
      modify (upd_cursors (fun cs =>
        <[c := {| _uri := _uri cur; _options := _options cur;
                  _pointer := _pointer cur; _items := xs;
                  _page := _page cur; _perPage := _perPage cur;
                  _total := count |}]> cs));;
      mret (Return VUndefined)
  end.

(** [get pages() { return Math.ceil(this._total / this._perPage); }] *)
Definition pages (cur : Pagination) : number :=
  JSNumber.ceil_div (to_number (_total cur)) (to_number (_perPage cur)).

(** *** The answer of the transport and what follows *)

Definition settle (p : loc) (o : outcome) : M unit :=
  modify (upd_promises (fun ps => <[p := Settled o]> ps)).

Definition set_stage (rid : nat) (hs : Obj.t) (st : stage) : M unit :=
  modify (upd_jobs (fun js =>
    match js !! rid with
    | Some j => <[rid := with_stage hs st j]> js
    | None => js
    end)).

(** The message the rejection handler of [fetch] rejects with. *)
Definition failure_message (uri : string) (err : reason) : value :=
  match err with
  | RError _ message => VStr message
  | RValue (VStr str) => VStr str
  | RValue _ =>
      VStr ("An error occurred while Potion tried to retrieve a resource from '"
            +:+ uri +:+ "'.")
  end.

(** The promise [request] settles; when the request is registered, the
    handlers of [request.then(..)] take it out of [pendingGETRequests] and
    settle the promise the caller holds. *)
Definition finish_request (rid : nat) (j : Job) (o : outcome) : M unit :=
  settle (j_request j) o;;
  match j_registered j with
  | None => mret tt
  | Some outer =>
      modify (upd_pending (fun m => delete (j_uri j) m));;
      match o with
      | Fulfilled data => settle outer (Fulfilled data)
      | Rejected err =>
          settle outer (Rejected (RValue (failure_message (j_uri j) err)))
      end
  end;;
  set_stage rid (j_headers j) Finished.

(** The last handler of the chain of the closure [fetch]: the decoded data
    is returned, or put into a cursor. *)
Definition paginate_handler (j : Job) (data : value) : M outcome :=
  if j_paginate j then
    s ← get_state;
    let header := Obj.prop "x-total-count" (j_headers j) in
    match (if truthy header then Return header else length_of s data) with
    | Throw e => mret (Rejected e)
    | Return count =>
        match j_pagination j with
        | None =>
            r ← new_Pagination (j_uri j) data count (j_options j);
            match r with
            | Return c => mret (Fulfilled (VPagination c))
            | Throw e => mret (Rejected e)
            end
        | Some pagination =>
            r ← update pagination data count;
            match r with
            | Return v => mret (Fulfilled v)
            | Throw e => mret (Rejected e)
            end
        end
    end
  else mret (Fulfilled data).

Inductive answer :=
| Resolve (response : PotionResponse)
| Reject (e : reason).

(** The transport settles the promise of request [rid]. *)
Definition respond (rid : nat) (a : answer) : M unit :=
  s ← get_state;
  match jobs s !! rid with
  | Some j =>
      match j_stage j, a with
      | AwaitTransport, Resolve response =>
          t ← fromPotionJSON (data response);
          set_stage rid (headers response) (Decoding t)
      | AwaitTransport, Reject e => finish_request rid j (Rejected e)
      | _, _ => mret tt
      end
  | None => mret tt
  end.

(** The continuations of the decode of request [rid] run one round. *)
Definition advance (rid : nat) : M unit :=
  s ← get_state;
  match jobs s !! rid with
  | Some j =>
      match j_stage j with
      | Decoding t =>
          t' ← reduce t;
          match t' with
          | TSettled (Fulfilled json) =>
              o ← paginate_handler j json;
              finish_request rid j o
          | TSettled (Rejected e) => finish_request rid j (Rejected e)
          | _ => set_stage rid (j_headers j) (Decoding t')
          end
      | _ => mret tt
      end
  | None => mret tt
  end.

(** The decodes in the background run one round. *)
Definition advance_background : M unit :=
  s ← get_state;
  modify (upd_background (fun _ => []));;
  ts ← reduce_each reduce (background s);
  orphan ts.

(** [changePageTo(page)] of [Pagination]. *)
Definition changePageTo (c : loc) (page : value) : M (completion loc) :=
  s ← get_state;
  match cursors s !! c with
  | None => mret (Throw type_error)
  | Some cur =>
      match o_search (default no_options (options s !! _options cur)) with
      | None => mret (Throw type_error)
      | Some search =>
          modify (upd_searches (fun ss =>
            match ss !! search with
            | Some o => <[search := Obj.set "page" page o]> ss
            | None => ss
            end));;
          modify (upd_cursors (fun cs =>
            <[c := {| _uri := _uri cur; _options := _options cur;
                      _pointer := _pointer cur; _items := _items cur;
                      _page := page; _perPage := _perPage cur;
                      _total := _total cur |}]> cs));;
          p ← fetch (_uri cur) (Some (_options cur)) (Some c);
          mret (Return p)
      end
  end.

(** The steps of the system. *)
Inductive step :=
| Fetch (uri : string) (fetchOptions : option loc) (pagination : option loc)
| Respond (rid : nat) (a : answer)
| Advance (rid : nat)
| AdvanceBackground
| ChangePageTo (c : loc) (page : value).

Definition do_step (e : step) : M unit :=
  match e with
  | Fetch uri fetchOptions pagination =>
      fetch uri fetchOptions pagination;; mret tt
  | Respond rid a => respond rid a
  | Advance rid => advance rid
  | AdvanceBackground => advance_background
  | ChangePageTo c page => changePageTo c page;; mret tt
  end.

Definition run (es : list step) (s : Potion) : Potion :=
  fold_left (fun s e => snd (do_step e s)) es s.

End Client.

(** ** A reference instance of what lies outside [src/]

    Used to run the client on concrete inputs. *)

Module Reference.

Definition is_upper (c : ascii) : bool :=
  let n := nat_of_ascii c in (65 <=? n)%nat && (n <=? 90)%nat.
Definition is_lower (c : ascii) : bool :=
  let n := nat_of_ascii c in (97 <=? n)%nat && (n <=? 122)%nat.
Definition to_upper (c : ascii) : ascii :=
  if is_lower c then ascii_of_nat (nat_of_ascii c - 32) else c.
Definition to_lower (c : ascii) : ascii :=
  if is_upper c then ascii_of_nat (nat_of_ascii c + 32) else c.

(** Modelled from the spec: [toCamelCase] of [utils] (not among the
    sources): an underscore followed by a lower-case letter or a digit is
    dropped and the letter is put in upper case. *)
Fixpoint camel (s : string) : string :=
  match s with
  | EmptyString => EmptyString
  | String a t =>
      match t with
      | String c t' =>
          if Ascii.eqb a "_" && (is_lower c || JSString.is_digit c)
          then String (to_upper c) (camel t')
          else String a (camel t)
      | EmptyString => String a EmptyString
      end
  end.

(** Modelled from the spec: [toSnakeCase] of [utils] (not among the
    sources): an upper-case letter that is not the first unit becomes an
    underscore and the letter in lower case. *)
Fixpoint snake_tail (s : string) : string :=
  match s with
  | EmptyString => EmptyString
  | String c t =>
      if is_upper c then String "_" (String (to_lower c) (snake_tail t))
      else String c (snake_tail t)
  end.

Definition snake (s : string) : string :=
  match s with
  | EmptyString => EmptyString
  | String c t => String (to_lower c) (snake_tail t)
  end.

Definition hex_value (c : ascii) : option nat :=
  let n := nat_of_ascii c in
  if JSString.is_digit c then Some (n - 48)%nat
  else if (65 <=? n)%nat && (n <=? 70)%nat then Some (n - 55)%nat
  else if (97 <=? n)%nat && (n <=? 102)%nat then Some (n - 87)%nat
  else None.

(** Percent-decoding of the escapes below [%80]; the others, which stand
    for units beyond the 8-bit ones of the embedding, are refused. *)
Fixpoint percent_decode (s : string) : option string :=
  match s with
  | EmptyString => Some EmptyString
  | String c t =>
      if Ascii.eqb c "%" then
        match t with
        | String h (String l t') =>
            match hex_value h, hex_value l with
            | Some x, Some y =>
                if (x <? 8)%nat then
                  match percent_decode t' with
                  | Some r => Some (String (ascii_of_nat (16 * x + y)) r)
                  | None => None
                  end
                else None
            | _, _ => None
            end
        | _ => None
        end
      else
        match percent_decode t with
        | Some r => Some (String c r)
        | None => None
        end
  end.

(** [Number(s)] for the decimal integers, the only strings the examples
    convert. *)
Definition number_of_string (s : string) : number :=
  match JSString.skip_space s with
  | EmptyString => Int 0
  | s' => if JSString.test_digits s' then JSNumber.parseInt_string s' else NaN
  end.

#[export] Instance codec : NamingCodec :=
  {| toCamelCase := camel; toSnakeCase := snake |}.

#[export] Instance runtime : Runtime :=
  {| decodeURIComponent := percent_decode;
     URIError_message := "URI malformed";
     TypeError_message := "not a function or its return value is not iterable";
     Number_of_string := number_of_string;
     Date_parse := fun _ => NaN |}.

End Reference.

(** * Properties *)

(** ** Strings *)

Lemma prefix_app (p rest : string) : String.prefix p (p +:+ rest) = true.
Proof.
  induction p as [|c p IH]; simpl.
  - now destruct rest.
  - destruct (ascii_dec c c) as [_|Hne]; [exact IH | now destruct Hne].
Qed.

Lemma prefix_split (p s : string) :
  String.prefix p s = true -> exists rest, s = p +:+ rest.
Proof.
  revert s. induction p as [|c p IH]; intros s Hp.
  - exists s. reflexivity.
  - destruct s as [|d s]; simpl in Hp; [discriminate|].
    destruct (ascii_dec c d) as [->|]; [|discriminate].
    destruct (IH _ Hp) as [rest ->]. now exists rest.
Qed.

Lemma substring_app (p rest : string) :
  JSString.substring (String.length p) (p +:+ rest) = rest.
Proof. induction p as [|c p IH]; simpl; [now destruct rest | exact IH]. Qed.

Lemma indexOf_eq (s pat : string) :
  JSString.indexOf s pat =
  if String.prefix pat s then 0
  else match s with
       | EmptyString => -1
       | String _ s' => let i := JSString.indexOf s' pat in
                        if i <? 0 then -1 else i + 1
       end.
Proof. destruct s; reflexivity. Qed.

Lemma indexOf_lower (s pat : string) : -1 <= JSString.indexOf s pat.
Proof.
  induction s as [|c s IH]; rewrite indexOf_eq.
  - destruct (String.prefix pat ""); lia.
  - destruct (String.prefix pat (String c s)); [lia|]. cbv zeta.
    destruct (Z.ltb_spec (JSString.indexOf s pat) 0); lia.
Qed.

Lemma indexOf_zero (s pat : string) :
  JSString.indexOf s pat = 0 <-> String.prefix pat s = true.
Proof.
  rewrite indexOf_eq. split.
  - destruct (String.prefix pat s); [reflexivity|].
    destruct s as [|c s]; [discriminate|]. cbv zeta.
    pose proof (indexOf_lower s pat).
    destruct (Z.ltb_spec (JSString.indexOf s pat) 0); lia.
  - now intros ->.
Qed.

(** [pat] occurs in [s]. *)
Definition occurs (pat s : string) : Prop :=
  exists before after, s = before +:+ pat +:+ after.

Lemma indexOf_found (s pat : string) :
  JSString.indexOf s pat <> -1 -> occurs pat s.
Proof.
  induction s as [|c s IH]; rewrite indexOf_eq.
  - destruct (String.prefix pat "") eqn:Hp; [intros _|congruence].
    destruct (prefix_split _ _ Hp) as [rest Hrest]. now exists "", rest.
  - destruct (String.prefix pat (String c s)) eqn:Hp.
    + intros _. destruct (prefix_split _ _ Hp) as [rest Hrest].
      now exists "", rest.
    + cbv zeta. destruct (Z.ltb_spec (JSString.indexOf s pat) 0) as [Hlt|Hge];
        [congruence|]. intros _.
      destruct IH as (b & a & ->); [lia|]. now exists (String c b), a.
Qed.

Lemma indexOf_occurs (s pat : string) :
  occurs pat s -> JSString.indexOf s pat <> -1.
Proof.
  intros (b & a & ->). induction b as [|c b IH]; rewrite indexOf_eq.
  - change ("" +:+ pat +:+ a) with (pat +:+ a). rewrite prefix_app. discriminate.
  - change (String c b +:+ pat +:+ a) with (String c (b +:+ pat +:+ a)).
    destruct (String.prefix pat (String c (b +:+ pat +:+ a))); [lia|].
    cbv beta iota zeta. pose proof (indexOf_lower (b +:+ pat +:+ a) pat).
    destruct (Z.ltb_spec (JSString.indexOf (b +:+ pat +:+ a) pat) 0); lia.
Qed.

Lemma indexOf_absent (s pat : string) :
  JSString.indexOf s pat = -1 <-> ~ occurs pat s.
Proof.
  split.
  - intros Heq Hocc. now apply indexOf_occurs in Hocc.
  - intros Hn. destruct (Z.eq_dec (JSString.indexOf s pat) (-1)) as [|Hne];
      [assumption|]. now apply indexOf_found in Hne.
Qed.

(** ** Numbers *)



Lemma round_half_even_exact d M : 0 < d -> JSNumber.round_half_even (M * d) d = M.
Proof.
  intros Hd. unfold JSNumber.round_half_even.
  rewrite Z.mod_mul by lia. rewrite Z.div_mul by lia.
  destruct (Z.ltb_spec (2 * 0) d); [reflexivity | lia].
Qed.



(** An integer up to [2^53] is a double. *)
Lemma double_of_Z_safe (z : Z) :
  Z.abs z <= 2 ^ 53 -> JSNumber.double_of_Z z = Int z.
Proof.
  intros Hz. unfold JSNumber.double_of_Z.
  destruct (Z.leb_spec (Z.log2 (Z.abs z) - 52) 0) as [|He]; [reflexivity|].
  assert (E : Z.abs z = 2 ^ 53).
  { apply Z.le_antisymm; [exact Hz|].
    destruct (Z.le_gt_cases (2 ^ 53) (Z.abs z)) as [|Hlt]; [assumption|].
    destruct (Z.eq_dec (Z.abs z) 0) as [E0|N0];
      [rewrite E0 in He; cbn in He; lia|].
    assert (Z.log2 (Z.abs z) < 53) by (apply Z.log2_lt_pow2; lia). lia. }
  rewrite E. change (Z.log2 (2 ^ 53) - 52) with 1.
  change (2 ^ 1) with 2. change (2 ^ 53) with (2 ^ 52 * 2).
  rewrite round_half_even_exact by lia.
  change (2 ^ 52 * 2 <? 2 ^ 1024) with true. cbv iota.
  f_equal. change (2 ^ 52 * 2) with (2 ^ 53). lia.
Qed.

(** ** Stores as lists *)

Lemma insert_last {A} (l : list A) (x y : A) :
  <[length l := y]> (l ++ [x])%list = (l ++ [y])%list.
Proof. induction l as [|a l IH]; simpl; [reflexivity | now rewrite IH]. Qed.

Lemma lookup_last {A} (l : list A) (x : A) :
  (l ++ [x])%list !! length l = Some x.
Proof. induction l as [|a l IH]; simpl; [reflexivity | exact IH]. Qed.

Lemma lookup_old {A} (l l' : list A) (i : nat) (x : A) :
  l !! i = Some x -> (l ++ l')%list !! i = Some x.
Proof. intros Hx. now apply lookup_app_l_Some. Qed.

(** The outbound transform is unfolded on demand only. *)
Arguments toPotionJSON_fuel : simpl never.
Arguments toPotionJSON : simpl never.
Arguments toPotionJSON_search : simpl never.
Arguments add_prefix : simpl never.

Ltac upd_unfold :=
  unfold upd_cache, upd_pending, upd_items, upd_options, upd_searches,
    upd_cursors, upd_promises, upd_requests, upd_jobs, upd_background in *;
  cbn [cache pendingGETRequests items options searches cursors promises
       requests jobs background] in *.

Ltac fields :=
  cbn [cache pendingGETRequests items options searches cursors promises
       requests jobs background
       upd_cache upd_pending upd_items upd_options upd_searches
       upd_cursors upd_promises upd_requests upd_jobs upd_background].

Ltac munfold :=
  unfold mbind, M_bind, mret, M_ret, get_state, modify, alloc_promise,
    alloc_options, alloc_search, alloc_item, alloc_cursor in *.

(** ** Objects as association lists *)

Section ObjFacts.

Lemma Obj_get_set k k' v (o : Obj.t) :
  Obj.get k (Obj.set k' v o) = if String.eqb k k' then Some v else Obj.get k o.
Proof.
  induction o as [|[k0 v0] o IH]; cbn; [reflexivity|].
  destruct (String.eqb_spec k' k0) as [->|Hne]; cbn.
  - destruct (String.eqb k k0); reflexivity.
  - rewrite IH. destruct (String.eqb_spec k k0) as [->|]; [|reflexivity].
    destruct (String.eqb_spec k0 k'); [congruence | reflexivity].
Qed.

Lemma Obj_get_None k (o : Obj.t) : Obj.get k o = None <-> k ∉ Obj.keys o.
Proof.
  induction o as [|[k0 v0] o IH]; cbn.
  - split; [intros _; apply not_elem_of_nil | reflexivity].
  - rewrite not_elem_of_cons.
    destruct (String.eqb_spec k k0) as [->|Hne]; [split; [discriminate|tauto]|].
    rewrite IH. tauto.
Qed.

Lemma Obj_set_fresh k v (o : Obj.t) :
  k ∉ Obj.keys o -> Obj.set k v o = (o ++ [(k, v)])%list.
Proof.
  induction o as [|[k0 v0] o IH]; cbn; [reflexivity|].
  rewrite not_elem_of_cons. intros [Hne Hk].
  destruct (String.eqb_spec k k0); [contradiction|]. now rewrite IH.
Qed.

Lemma Obj_keys_set k v (o : Obj.t) :
  Obj.keys (Obj.set k v o) =
  if bool_decide (k ∈ Obj.keys o) then Obj.keys o
  else (Obj.keys o ++ [k])%list.
Proof.
  unfold Obj.keys. induction o as [|[k0 v0] o IH]; cbn.
  - rewrite bool_decide_eq_false_2 by apply not_elem_of_nil. reflexivity.
  - destruct (String.eqb_spec k k0) as [->|Hne]; cbn.
    + rewrite bool_decide_eq_true_2 by (apply elem_of_cons; now left).
      reflexivity.
    + rewrite IH. destruct (bool_decide_reflect (k ∈ map fst o)) as [Hin|Hn].
      * rewrite bool_decide_eq_true_2 by (apply elem_of_cons; now right).
        reflexivity.
      * rewrite bool_decide_eq_false_2; [reflexivity|].
        rewrite not_elem_of_cons. tauto.
Qed.

Lemma Obj_set_NoDup k v (o : Obj.t) :
  NoDup (Obj.keys o) -> NoDup (Obj.keys (Obj.set k v o)).
Proof.
  intros Hnd. rewrite Obj_keys_set.
  destruct (bool_decide_reflect (k ∈ Obj.keys o)) as [Hin|Hn]; [exact Hnd|].
  apply NoDup_app. split; [exact Hnd|]. split.
  - intros x Hx ->%list_elem_of_singleton. contradiction.
  - apply NoDup_singleton.
Qed.

Lemma Obj_assign_NoDup (target source : Obj.t) :
  NoDup (Obj.keys target) -> NoDup (Obj.keys (Obj.assign target source)).
Proof.
  unfold Obj.assign. revert target.
  induction source as [|[k v] source IH]; intros target Hnd; cbn; [exact Hnd|].
  apply IH. now apply Obj_set_NoDup.
Qed.

(** [Object.assign]: the source wins, the target keeps what the source does
    not have. *)
Lemma Obj_assign_get k (target source : Obj.t) :
  NoDup (Obj.keys source) ->
  Obj.get k (Obj.assign target source) =
  match Obj.get k source with
  | Some v => Some v
  | None => Obj.get k target
  end.
Proof.
  unfold Obj.assign. revert target.
  induction source as [|[k0 v0] source IH]; intros target Hnd; cbn;
    [reflexivity|].
  cbn in Hnd. apply NoDup_cons in Hnd as [Hnotin Hnd].
  rewrite IH by exact Hnd. rewrite Obj_get_set.
  destruct (String.eqb_spec k k0) as [->|Hne]; [|reflexivity].
  now rewrite (proj2 (Obj_get_None k0 source) Hnotin).
Qed.

(** An object built from entries with distinct keys has exactly these
    entries, in their order. *)
Lemma fold_set_fresh (l acc : Obj.t) :
  NoDup (Obj.keys (acc ++ l)%list) ->
  fold_left (fun o '(k, v) => Obj.set k v o) l acc = (acc ++ l)%list.
Proof.
  revert acc. induction l as [|[k v] l IH]; intros acc Hnd; cbn.
  - now rewrite app_nil_r.
  - rewrite Obj_set_fresh.
    + rewrite IH; rewrite <- app_assoc; [reflexivity | exact Hnd].
    + unfold Obj.keys in Hnd. rewrite map_app in Hnd.
      apply NoDup_app in Hnd as (_ & Hd & _). intros Hin.
      apply (Hd k Hin). apply elem_of_cons. now left.
Qed.

Lemma pairsToObject_NoDup (l : Obj.t) :
  NoDup (Obj.keys l) -> pairsToObject l = l.
Proof. intros Hnd. unfold pairsToObject. now rewrite fold_set_fresh. Qed.

Lemma pairsToObject_keys (l : Obj.t) : NoDup (Obj.keys (pairsToObject l)).
Proof.
  unfold pairsToObject.
  assert (Hgen : forall acc, NoDup (Obj.keys acc) ->
            NoDup (Obj.keys (fold_left (fun o '(k, v) => Obj.set k v o) l acc))).
  { induction l as [|[k v] l IH]; intros acc Hnd; cbn; [exact Hnd|].
    apply IH. now apply Obj_set_NoDup. }
  apply Hgen. constructor.
Qed.

End ObjFacts.

Section FetchFacts.
Context `{NamingCodec} `{Runtime}.
Variable cfg : PotionOptions.

(** What the head of [fetch] does to the state. *)
Lemma copy_options_eq (fetchOptions : option loc) (s : Potion) :
  copy_options fetchOptions s =
  let fo := read_options s fetchOptions in
  if o_paginate fo then
    ((fo, length (options s), Some (length (searches s))),
     upd_options (fun os =>
         (os ++ [with_search (Some (length (searches s))) fo])%list)
       (upd_searches (fun l =>
           (l ++ [Obj.assign page_defaults (read_search s (o_search fo))])%list)
          s))
  else
    ((fo, length (options s), o_search fo),
     upd_options (fun os => (os ++ [fo])%list) s).
Proof.
  unfold copy_options. munfold. cbn.
  destruct (o_paginate (read_options s fetchOptions)); [|reflexivity].
  cbn. unfold upd_options, upd_searches. cbn. now rewrite insert_last.
Qed.

(** What [issue] does to the state. *)
Definition issued (uri : string) (opts : loc) (search : option loc)
    (data : value) (paginate : bool) (pagination : option loc) (s : Potion)
    : Request * Job :=
  let o := default no_options (options s !! opts) in
  ({| q_url := host cfg +:+ uri;
      q_method := o_method o;
      q_search := toPotionJSON_search cfg s search;
      q_data := toPotionJSON cfg s data;
      q_cache := o_cache o;
      q_paginate := o_paginate o |},
   {| j_uri := uri; j_options := opts; j_paginate := paginate;
      j_pagination := pagination; j_headers := [];
      j_request := length (promises s); j_registered := None;
      j_stage := AwaitTransport |}).

Lemma issue_eq uri opts search data paginate pagination s :
  issue cfg uri opts search data paginate pagination s =
  let '(q, j) := issued uri opts search data paginate pagination s in
  ((length (jobs s), length (promises s)),
   {| cache := cache s; pendingGETRequests := pendingGETRequests s;
      items := items s; options := options s; searches := searches s;
      cursors := cursors s; promises := promises s ++ [Pending];
      requests := requests s ++ [q]; jobs := jobs s ++ [j];
      background := background s |}).
Proof. reflexivity. Qed.

Lemma then_unregister_eq rid s j :
  jobs s !! rid = Some j ->
  then_unregister rid s =
  (length (promises s),
   {| cache := cache s; pendingGETRequests := pendingGETRequests s;
      items := items s; options := options s; searches := searches s;
      cursors := cursors s; promises := promises s ++ [Pending];
      requests := requests s;
      jobs := <[rid := {| j_uri := j_uri j; j_options := j_options j;
                          j_paginate := j_paginate j;
                          j_pagination := j_pagination j;
                          j_headers := j_headers j; j_request := j_request j;
                          j_registered := Some (length (promises s));
                          j_stage := j_stage j |}]> (jobs s);
      background := background s |}).
Proof.
  intros Hj. unfold then_unregister. munfold.
  unfold upd_promises, upd_jobs. cbn. now rewrite Hj.
Qed.

End FetchFacts.

Section FetchTheorems.
Context `{NamingCodec} `{Runtime}.
Variable cfg : PotionOptions.

Lemma is_GET_true (m : option string) : is_GET m = true <-> m = Some "GET".
Proof.
  destruct m as [m|]; simpl; [|split; discriminate].
  rewrite String.eqb_eq. split; congruence.
Qed.

(** The request and the continuation that [fetch] leaves behind. *)
Definition request_of (s : Potion) (uri : string) (fo : FetchOptions)
    (search : value) : Request :=
  {| q_url := host cfg +:+ add_prefix cfg uri;
     q_method := o_method fo;
     q_search := search;
     q_data := toPotionJSON cfg s (o_data fo);
     q_cache := o_cache fo;
     q_paginate := o_paginate fo |}.

Definition job_of (s : Potion) (uri : string) (fo : FetchOptions)
    (pagination : option loc) (registered : option loc) : Job :=
  {| j_uri := add_prefix cfg uri; j_options := length (options s);
     j_paginate := o_paginate fo; j_pagination := pagination;
     j_headers := []; j_request := length (promises s);
     j_registered := registered; j_stage := AwaitTransport |}.

(** The four ways through [fetch], for options without pagination. *)
Lemma fetch_plain_eq uri fetchOptions pagination s :
  let fo := read_options s fetchOptions in
  o_paginate fo = false ->
  fetch cfg uri fetchOptions pagination s =
  let q := request_of s uri fo (toPotionJSON_search cfg s (o_search fo)) in
  if is_GET (o_method fo) && no_search (o_search fo) then
    match (if o_cache fo then cache s !! uri else None) with
    | Some item =>
        (length (promises s),
         {| cache := cache s; pendingGETRequests := pendingGETRequests s;
            items := items s; options := options s ++ [fo];
            searches := searches s; cursors := cursors s;
            promises := promises s ++ [Settled (Fulfilled (VItem item))];
            requests := requests s; jobs := jobs s;
            background := background s |})
    | None =>
        match pendingGETRequests s !! add_prefix cfg uri with
        | Some request =>
            (request,
             {| cache := cache s; pendingGETRequests := pendingGETRequests s;
                items := items s; options := options s ++ [fo];
                searches := searches s; cursors := cursors s;
                promises := promises s; requests := requests s;
                jobs := jobs s; background := background s |})
        | None =>
            (S (length (promises s)),
             {| cache := cache s;
                pendingGETRequests :=
                  <[add_prefix cfg uri := length (promises s)]>
                    (pendingGETRequests s);
                items := items s; options := options s ++ [fo];
                searches := searches s; cursors := cursors s;
                promises := promises s ++ [Pending; Pending];
                requests := requests s ++ [q];
                jobs := jobs s ++
                  [job_of s uri fo pagination (Some (S (length (promises s))))];
                background := background s |})
        end
    end
  else
    (length (promises s),
     {| cache := cache s; pendingGETRequests := pendingGETRequests s;
        items := items s; options := options s ++ [fo];
        searches := searches s; cursors := cursors s;
        promises := promises s ++ [Pending];
        requests := requests s ++ [q];
        jobs := jobs s ++ [job_of s uri fo pagination None];
        background := background s |}).
Proof.
  intros fo Hpag. unfold fetch. unfold mbind at 1. unfold M_bind at 1.
  rewrite copy_options_eq. cbv zeta. fold fo. rewrite Hpag.
  unfold request_of, job_of.
  set (s0 := upd_options (fun os => (os ++ [fo])%list) s).
  assert (Hopt : options s0 !! length (options s) = Some fo)
    by apply lookup_last.
  destruct (is_GET (o_method fo) && no_search (o_search fo));
    unfold mbind, M_bind, mret, M_ret, get_state; cbv beta iota zeta.
  - change (cache s0) with (cache s).
    destruct (if o_cache fo then cache s !! uri else None); [reflexivity|].
    change (pendingGETRequests s0) with (pendingGETRequests s).
    destruct (pendingGETRequests s !! add_prefix cfg uri); [reflexivity|].
    rewrite issue_eq. unfold issued. rewrite Hopt. cbv beta iota zeta.
    unfold modify.
    erewrite then_unregister_eq by (fields; apply lookup_last).
    subst s0. fields. cbn [j_uri j_options j_paginate j_pagination j_headers j_request
                 j_stage default from_option id].
    rewrite insert_last, length_app, <- !app_assoc.
    replace (length (promises s) + length [Pending])%nat
      with (S (length (promises s))) by (cbn; lia).
    reflexivity.
  - rewrite issue_eq. unfold issued. rewrite Hopt. reflexivity.
Qed.

(** [fetch] for options that ask for pagination. *)
Lemma fetch_paginate_eq uri fetchOptions pagination s :
  let fo := read_options s fetchOptions in
  o_paginate fo = true ->
  fetch cfg uri fetchOptions pagination s =
  let so := Obj.assign page_defaults (read_search s (o_search fo)) in
  let fo' := with_search (Some (length (searches s))) fo in
  (length (promises s),
   {| cache := cache s; pendingGETRequests := pendingGETRequests s;
      items := items s; options := options s ++ [fo'];
      searches := searches s ++ [so]; cursors := cursors s;
      promises := promises s ++ [Pending];
      requests := requests s ++
        [request_of s uri fo' (toPotionJSON cfg s (VObj so))];
      jobs := jobs s ++ [job_of s uri fo pagination None];
      background := background s |}).
Proof.
  intros fo Hpag. unfold fetch. unfold mbind at 1. unfold M_bind at 1.
  rewrite copy_options_eq. cbv zeta. fold fo. rewrite Hpag.
  unfold request_of, job_of. cbn [no_search]. rewrite andb_false_r.
  unfold mbind, M_bind, mret, M_ret. cbv beta iota zeta.
  rewrite issue_eq. unfold issued. fields. rewrite !lookup_last.
  cbn [default from_option id with_search o_method o_search o_data o_cache
       o_paginate].
  rewrite Hpag. unfold toPotionJSON_search, toPotionJSON. fields.
  rewrite lookup_last. reflexivity.
Qed.

(** The calls of [fetch] that end without a request to the transport: a GET
    without search parameters that the cache or the table of pending
    requests answers. *)
Definition answered_locally (s : Potion) (uri : string) (fo : FetchOptions)
    : bool :=
  is_GET (o_method fo) && no_search (o_search fo) && negb (o_paginate fo)
  && ((o_cache fo && bool_decide (is_Some (cache s !! uri)))
      || bool_decide (is_Some (pendingGETRequests s !! add_prefix cfg uri))).

(** C5.  [fetch] leaves the URI as it is when the API prefix occurs in it and
    puts the prefix in front of it otherwise; whenever it calls the
    transport, which it does once unless the cache or the table of pending
    requests answers the call, the URL of the call is the host followed by
    this URI. *)
Theorem fetch_requests_prefixed_uri (uri : string)
    (fetchOptions pagination : option loc) (s : Potion) :
  (occurs (prefix cfg) uri -> add_prefix cfg uri = uri) /\
  (~ occurs (prefix cfg) uri -> add_prefix cfg uri = prefix cfg +:+ uri) /\
  let s' := snd (fetch cfg uri fetchOptions pagination s) in
  if answered_locally s uri (read_options s fetchOptions)
  then requests s' = requests s
  else exists q, requests s' = (requests s ++ [q])%list /\
                 q_url q = host cfg +:+ add_prefix cfg uri.
Proof.
  split; [|split].
  - intros Hocc. unfold add_prefix.
    destruct (Z.eqb_spec (JSString.indexOf uri (prefix cfg)) (-1)) as [He|];
      [|reflexivity].
    now apply indexOf_absent in He.
  - intros Hn. unfold add_prefix. apply indexOf_absent in Hn. now rewrite Hn.
  - cbv zeta. unfold answered_locally.
    destruct (o_paginate (read_options s fetchOptions)) eqn:Hpag.
    + rewrite andb_false_r. rewrite fetch_paginate_eq by exact Hpag.
      cbn. eexists. split; reflexivity.
    + rewrite fetch_plain_eq by exact Hpag. cbv zeta.
      rewrite andb_true_r.
      destruct (is_GET _ && no_search _); cbn [andb].
      * destruct (o_cache (read_options s fetchOptions)); cbn [andb orb].
        -- destruct (cache s !! uri) eqn:Hc; cbn; [reflexivity|].
           destruct (pendingGETRequests s !! add_prefix cfg uri) eqn:Hp; cbn.
           ++ reflexivity.
           ++ eexists. split; reflexivity.
        -- destruct (pendingGETRequests s !! add_prefix cfg uri) eqn:Hp; cbn.
           ++ reflexivity.
           ++ eexists. split; reflexivity.
      * cbn. eexists. split; reflexivity.
Qed.

Lemma read_options_GET (s : Potion) (fetchOptions : option loc) :
  o_method (read_options s fetchOptions) = Some "GET" ->
  exists l, fetchOptions = Some l /\
            options s !! l = Some (read_options s fetchOptions).
Proof.
  destruct fetchOptions as [l|]; simpl; [|discriminate].
  destruct (options s !! l) eqn:E; simpl; [|discriminate].
  intros _. now exists l.
Qed.

(** C4.  A GET without search parameters (no search object in the options and
    no pagination, which would supply [page] and [perPage]) with the [cache]
    option set, for a URI under which the identity cache holds an item, is
    answered by a new promise that is already fulfilled with that item; the
    transport is not called and neither the cache nor the table of pending
    requests changes. *)
Theorem fetch_cache_short_circuit (uri : string)
    (fetchOptions pagination : option loc) (s : Potion) (item : loc) :
  let fo := read_options s fetchOptions in
  o_method fo = Some "GET" ->
  o_search fo = None ->
  o_paginate fo = false ->
  o_cache fo = true ->
  cache s !! uri = Some item ->
  let '(p, s') := fetch cfg uri fetchOptions pagination s in
  promises s !! p = None /\
  promises s' !! p = Some (Settled (Fulfilled (VItem item))) /\
  requests s' = requests s /\
  jobs s' = jobs s /\
  pendingGETRequests s' = pendingGETRequests s /\
  cache s' = cache s /\
  items s' = items s.
Proof.
  intros fo Hm Hs Hp Hc Hitem.
  rewrite fetch_plain_eq by exact Hp. cbv zeta. fold fo.
  rewrite Hm, Hs, Hc, Hitem. cbn.
  repeat split; try reflexivity.
  - apply lookup_ge_None. lia.
  - apply lookup_last.
Qed.

(** C2, as the code has it.  A GET without search parameters that the cache
    does not answer (the [cache] option is unset, or the cache holds nothing
    under the URI) and whose URI is in the table of pending requests returns
    the promise of the table: no promise is made and the transport is not
    called.  Hence, of two such calls with the same arguments made in a row
    while nothing is pending, the first calls the transport once and the
    second returns the promise that the first has put in the table. *)
Theorem fetch_shares_pending_request (uri : string)
    (fetchOptions pagination : option loc) (s : Potion) :
  let fo := read_options s fetchOptions in
  let U := add_prefix cfg uri in
  o_method fo = Some "GET" ->
  o_search fo = None ->
  o_paginate fo = false ->
  (o_cache fo = true -> cache s !! uri = None) ->
  (forall request, pendingGETRequests s !! U = Some request ->
     let '(p, s') := fetch cfg uri fetchOptions pagination s in
     p = request /\ promises s' = promises s /\ requests s' = requests s /\
     pendingGETRequests s' = pendingGETRequests s) /\
  (pendingGETRequests s !! U = None ->
     let '(first, s1) := fetch cfg uri fetchOptions pagination s in
     let '(second, s2) := fetch cfg uri fetchOptions pagination s1 in
     (exists q, requests s1 = (requests s ++ [q])%list /\
                q_url q = host cfg +:+ U) /\
     requests s2 = requests s1 /\
     pendingGETRequests s1 !! U = Some second /\
     promises s !! second = None /\
     promises s2 !! second = Some Pending /\
     (exists j, jobs s2 !! length (jobs s) = Some j /\
                j_request j = second /\ j_registered j = Some first)).
Proof.
  cbv zeta. intros Hm Hs Hp Hc.
  assert (Hgen : forall s1,
            read_options s1 fetchOptions = read_options s fetchOptions ->
            cache s1 = cache s ->
            fetch cfg uri fetchOptions pagination s1 =
            match pendingGETRequests s1 !! add_prefix cfg uri with
            | Some request =>
                (request, upd_options (fun os =>
                   (os ++ [read_options s fetchOptions])%list) s1)
            | None =>
                (S (length (promises s1)),
                 {| cache := cache s1;
                    pendingGETRequests :=
                      <[add_prefix cfg uri := length (promises s1)]>
                        (pendingGETRequests s1);
                    items := items s1;
                    options := options s1 ++ [read_options s fetchOptions];
                    searches := searches s1; cursors := cursors s1;
                    promises := promises s1 ++ [Pending; Pending];
                    requests := requests s1 ++
                      [request_of s1 uri (read_options s fetchOptions)
                         VUndefined];
                    jobs := jobs s1 ++
                      [job_of s1 uri (read_options s fetchOptions) pagination
                         (Some (S (length (promises s1))))];
                    background := background s1 |})
            end).
  { intros s1 Hfo Hcache.
    rewrite fetch_plain_eq by (rewrite Hfo; exact Hp). cbv zeta.
    rewrite Hfo, (proj2 (is_GET_true _) Hm), Hs. cbn [no_search andb].
    replace (if o_cache (read_options s fetchOptions)
             then cache s1 !! uri else None) with (@None loc).
    2:{ rewrite Hcache. destruct (o_cache (read_options s fetchOptions));
          [symmetry; now apply Hc | reflexivity]. }
    destruct (pendingGETRequests s1 !! add_prefix cfg uri); reflexivity. }
  split.
  - intros request Hreq. rewrite Hgen by reflexivity. rewrite Hreq.
    repeat split; reflexivity.
  - intros Hnone.
    destruct (read_options_GET _ _ Hm) as (l & El & Hl).
    rewrite Hgen by reflexivity. rewrite Hnone.
    rewrite Hgen.
    2:{ rewrite El. cbn. rewrite El in Hl. now rewrite (lookup_old _ _ _ _ Hl). }
    2:{ reflexivity. }
    cbn [pendingGETRequests]. rewrite lookup_insert_eq.
    upd_unfold.
    repeat split; try reflexivity.
    + eexists. split; reflexivity.
    + apply lookup_ge_None. lia.
    + change [Pending; Pending] with ([Pending] ++ [Pending])%list.
      rewrite app_assoc. apply (lookup_old _ [Pending]).
      apply lookup_last.
    + eexists. split; [apply lookup_last|]. split; reflexivity.
Qed.

End FetchTheorems.

(** ** Induction over values and over decodes *)

Section NestedInduction.

Definition leaf (v : value) : Prop :=
  match v with
  | VArr _ | VObj _ => False
  | _ => True
  end.

Lemma value_nested_ind (P : value -> Prop) :
  (forall v, leaf v -> P v) ->
  (forall xs, Forall P xs -> P (VArr xs)) ->
  (forall fs, Forall (fun kv => P (snd kv)) fs -> P (VObj fs)) ->
  forall v, P v.
Proof.
  intros Hleaf Harr Hobj.
  fix IH 1. intros [| | b | n | str | t | l | c | xs | fs];
    try (apply Hleaf; exact I).
  - apply Harr. induction xs as [|x xs IHxs]; constructor; [apply IH | exact IHxs].
  - apply Hobj. induction fs as [|[k x] fs IHfs]; constructor;
      [apply IH | exact IHfs].
Qed.

Lemma task_nested_ind (P : task -> Prop) :
  (forall o, P (TSettled o)) ->
  (forall p, P (TFetch p)) ->
  (forall ts, Forall P ts -> P (TAll ts)) ->
  (forall uri r properties promises,
      Forall (fun slot => P (snd slot)) promises ->
      P (TResource uri r properties promises)) ->
  (forall properties promises,
      Forall (fun slot => P (snd slot)) promises ->
      P (TPlain properties promises)) ->
  forall t, P t.
Proof.
  intros Hs Hf Hall Hres Hplain.
  fix IH 1. intros [o | p | ts | uri r properties promises | properties promises].
  - apply Hs.
  - apply Hf.
  - apply Hall. induction ts as [|t ts IHts]; constructor; [apply IH | exact IHts].
  - apply Hres. induction promises as [|[[k h] t] ps IHps]; constructor;
      [apply IH | exact IHps].
  - apply Hplain. induction promises as [|[[k h] t] ps IHps]; constructor;
      [apply IH | exact IHps].
Qed.

End NestedInduction.

(** ** What every decode preserves

    A reflexive and transitive relation between states that the placeholder,
    the fetch of a reference, the merge and the hand-over to the background
    respect is respected by [fromPotionJSON] and by [reduce]. *)

Section Preserved.
Context `{NamingCodec} `{Runtime}.
Variable cfg : PotionOptions.
Variable R : Potion -> Potion -> Prop.
Hypothesis R_refl : forall s, R s s.
Hypothesis R_trans : forall a b c, R a b -> R b c -> R a c.

Lemma decode_each_preserved (dec : value -> M task) (xs : list value) :
  Forall (fun x => forall s, R s (snd (dec x s))) xs ->
  forall s, R s (snd (decode_each dec xs s)).
Proof.
  induction 1 as [|x xs Hx _ IH]; intros s; cbn; [apply R_refl|].
  munfold. specialize (Hx s). destruct (dec x s) as [t s1]. cbn in *.
  specialize (IH s1). destruct (decode_each dec xs s1) as [ts s2]. cbn in *.
  eauto.
Qed.

Lemma decode_entries_preserved (dec : value -> M task)
    (fs : list (string * value)) :
  Forall (fun kv => forall s, R s (snd (dec (snd kv) s))) fs ->
  forall own uri properties promises s,
    R s (snd (decode_entries dec own fs uri properties promises s)).
Proof.
  induction 1 as [|[k x] fs Hx _ IH]; intros own uri properties promises s;
    cbn; [apply R_refl|].
  destruct (own && String.eqb k "$uri"); [apply IH|].
  munfold. cbn in Hx. specialize (Hx s). destruct (dec x s) as [t s1].
  cbn in *. eauto.
Qed.

Hypothesis R_placeholder :
  forall uri r s, R s (snd (cache_placeholder uri r s)).
Hypothesis R_reference :
  forall uri s, R s (snd (fetch_reference cfg uri s)).

Lemma fromPotionJSON_preserved (json : value) :
  forall s, R s (snd (fromPotionJSON cfg json s)).
Proof.
  induction json as [v Hv | xs IH | fs IH] using value_nested_ind; intros s.
  - destruct v; try contradiction; cbn; apply R_refl.
  - cbn. munfold.
    pose proof (decode_each_preserved (fromPotionJSON cfg) xs IH s) as Hs.
    destruct (decode_each (fromPotionJSON cfg) xs s). exact Hs.
  - assert (Hplain : forall s0,
              R s0 (snd ((let plain :=
                  '(properties, promises) ←
                     decode_entries (fromPotionJSON cfg) false fs "" [] [];
                  mret (TPlain properties promises) in plain) s0))).
    { intros s0. cbv zeta. munfold.
      pose proof (decode_entries_preserved (fromPotionJSON cfg) fs IH
                    false "" [] [] s0) as Hs.
      destruct (decode_entries _ _ _ _ _ _ s0) as [[? ?] ?]. exact Hs. }
    cbv zeta in Hplain. cbn [fromPotionJSON].
    destruct (as_string (Obj.prop "$uri" fs)) as [wire_uri|].
    + destruct (parseURI _ _ wire_uri) as [parsed|e]; [|apply R_refl].
      munfold.
      pose proof (R_placeholder (p_uri parsed) (p_resource parsed) s) as H1.
      destruct (cache_placeholder _ _ s) as [[] s1]. cbn in H1.
      pose proof (decode_entries_preserved (fromPotionJSON cfg) fs IH
                    true (p_uri parsed) [] [] s1) as H2.
      destruct (decode_entries _ _ _ _ _ _ s1) as [[? ?] ?]. cbn in *. eauto.
    + destruct (as_string (Obj.prop "$schema" fs)); [apply R_refl|].
      destruct fs as [|kv [|kv' fs']]; try apply Hplain.
      destruct (as_string (Obj.prop "$ref" [kv])) as [ref|].
      * destruct (String.eqb ref "#"); [apply R_refl|].
        destruct (parseURI _ _ ref) as [parsed|e]; [|apply R_refl].
        apply R_reference.
      * destruct (Obj.prop "$date" [kv]); try apply R_refl. apply Hplain.
Qed.

Lemma reduce_each_preserved (red : task -> M task) (ts : list task) :
  Forall (fun t => forall s, R s (snd (red t s))) ts ->
  forall s, R s (snd (reduce_each red ts s)).
Proof.
  induction 1 as [|t ts Ht _ IH]; intros s; cbn; [apply R_refl|].
  munfold. specialize (Ht s). destruct (red t s) as [t' s1]. cbn in *.
  specialize (IH s1). destruct (reduce_each red ts s1) as [ts' s2]. cbn in *.
  eauto.
Qed.

Lemma reduce_slots_preserved (red : task -> M task)
    (ps : list (string * bool * task)) :
  Forall (fun slot => forall s, R s (snd (red (snd slot) s))) ps ->
  forall properties s, R s (snd (reduce_slots red ps properties s)).
Proof.
  induction 1 as [|[[k h] t] ps Ht _ IH]; intros properties s; cbn;
    [apply R_refl|].
  munfold. cbn in Ht. specialize (Ht s). destruct (red t s) as [t' s1].
  cbn in Ht.
  destruct t' as [[v|e]| | | |].
  1:{ eapply R_trans; [exact Ht | apply IH]. }
  all: specialize (IH properties s1);
    destruct (reduce_slots red ps properties s1) as [[[? ?] ?] ?];
    cbn in *; eauto.
Qed.

Hypothesis R_orphan : forall ts s, R s (snd (orphan ts s)).
Hypothesis R_merge :
  forall uri r properties s, R s (snd (merge uri r properties s)).

Lemma reduce_preserved (t : task) :
  forall s, R s (snd (reduce t s)).
Proof.
  induction t as [o | p | ts IH | uri r properties promises IH
                  | properties promises IH] using task_nested_ind; intros s.
  - apply R_refl.
  - cbn. munfold. destruct (promises s !! p) as [[|o]|]; apply R_refl.
  - cbn. munfold.
    pose proof (reduce_each_preserved reduce ts IH s) as H1.
    destruct (reduce_each reduce ts s) as [ts' s1]. cbn in H1.
    destruct (first_rejected ts').
    + pose proof (R_orphan ts' s1) as H2.
      destruct (orphan ts' s1) as [[] s2]. cbn in *. eauto.
    + destruct (all_fulfilled ts'); exact H1.
  - cbn. munfold.
    pose proof (reduce_slots_preserved reduce promises IH properties s) as H1.
    destruct (reduce_slots reduce promises properties s)
      as [[[properties' promises'] rejection] s1]. cbn in H1.
    destruct rejection.
    + pose proof (R_orphan (map snd promises') s1) as H2.
      destruct (orphan _ s1) as [[] s2]. cbn in *. eauto.
    + destruct (held_slots promises'); [exact H1|].
      pose proof (R_orphan (map snd promises') s1) as H2.
      destruct (orphan _ s1) as [[] s2]. cbn in H2.
      pose proof (R_merge uri r properties' s2) as H3.
      destruct (merge uri r properties' s2) as [item s3]. cbn in *. eauto.
  - cbn. munfold.
    pose proof (reduce_slots_preserved reduce promises IH properties s) as H1.
    destruct (reduce_slots reduce promises properties s)
      as [[[properties' promises'] rejection] s1]. cbn in H1.
    destruct rejection.
    + pose proof (R_orphan (map snd promises') s1) as H2.
      destruct (orphan _ s1) as [[] s2]. cbn in *. eauto.
    + destruct (held_slots promises'); [exact H1|].
      pose proof (R_orphan (map snd promises') s1) as H2.
      destruct (orphan _ s1) as [[] s2]. cbn in *. eauto.
Qed.

End Preserved.

(** ** What never changes

    [stable s s'] holds between a state and every later state: the cache keeps
    its entries, the stores do not shrink, a continuation keeps what it was
    made with, the copies of the options stay, and the log of the transport
    is only added to. *)

Definition static (j : Job)
    : string * loc * bool * option loc * loc * option loc :=
  (j_uri j, j_options j, j_paginate j, j_pagination j, j_request j,
   j_registered j).

Record stable (s s' : Potion) : Prop := {
  st_cache : forall uri item,
    cache s !! uri = Some item -> cache s' !! uri = Some item;
  st_items : (length (items s) <= length (items s'))%nat;
  st_promises : (length (promises s) <= length (promises s'))%nat;
  st_cursors : (length (cursors s) <= length (cursors s'))%nat;
  st_searches : (length (searches s) <= length (searches s'))%nat;
  st_jobs : forall r j,
    jobs s !! r = Some j ->
    exists j', jobs s' !! r = Some j' /\ static j' = static j;
  st_options : forall l o, options s !! l = Some o -> options s' !! l = Some o;
  st_requests : forall n q, requests s !! n = Some q -> requests s' !! n = Some q
}.

(** [job_kept rid s s']: the continuation of request [rid] is as it was. *)
Definition job_kept (rid : nat) (s s' : Potion) : Prop :=
  forall j, jobs s !! rid = Some j -> jobs s' !! rid = Some j.

(** [searches_kept s s']: the search objects are as they were. *)
Definition searches_kept (s s' : Potion) : Prop :=
  forall l o, searches s !! l = Some o -> searches s' !! l = Some o.

Lemma stable_refl (s : Potion) : stable s s.
Proof. constructor; eauto. Qed.

Lemma stable_trans (a b c : Potion) : stable a b -> stable b c -> stable a c.
Proof.
  intros [] []. constructor; eauto; try lia.
  intros r j Hj. destruct (st_jobs0 r j Hj) as (j' & Hj' & E).
  destruct (st_jobs1 r j' Hj') as (j'' & Hj'' & E'). exists j''. split; congruence.
Qed.

Lemma job_kept_refl rid (s : Potion) : job_kept rid s s.
Proof. intros j Hj. exact Hj. Qed.

Lemma job_kept_trans rid (a b c : Potion) :
  job_kept rid a b -> job_kept rid b c -> job_kept rid a c.
Proof. unfold job_kept. eauto. Qed.

Lemma searches_kept_refl (s : Potion) : searches_kept s s.
Proof. intros l o Hl. exact Hl. Qed.

Lemma searches_kept_trans (a b c : Potion) :
  searches_kept a b -> searches_kept b c -> searches_kept a c.
Proof. unfold searches_kept. eauto. Qed.

Lemma lookup_insert_keep {A} (l : list A) (i j : nat) (x y : A) :
  l !! j = Some y -> exists z, <[i := x]> l !! j = Some z /\ (i <> j -> z = y).
Proof.
  intros Hj. destruct (decide (i = j)) as [->|Hne].
  - exists x. split; [|congruence].
    apply list_lookup_insert_eq. now apply lookup_lt_Some in Hj.
  - exists y. split; [|reflexivity]. now rewrite list_lookup_insert_ne.
Qed.

(** A state that differs from [s] in ways that [stable] allows. *)
Lemma stable_intro (s s' : Potion) :
  cache s ⊆ cache s' ->
  (length (items s) <= length (items s'))%nat ->
  (length (promises s) <= length (promises s'))%nat ->
  (length (cursors s) <= length (cursors s'))%nat ->
  (length (searches s) <= length (searches s'))%nat ->
  (forall r j, jobs s !! r = Some j ->
     exists j', jobs s' !! r = Some j' /\ static j' = static j) ->
  options s `prefix_of` options s' ->
  requests s `prefix_of` requests s' ->
  stable s s'.
Proof.
  intros Hc Hi Hp Hcu Hse Hj [ko Ho] [kr Hr]. constructor; try assumption.
  - intros uri item Hu. eapply lookup_weaken; eassumption.
  - intros l o Hl. rewrite Ho. now apply lookup_old.
  - intros n q Hn. rewrite Hr. now apply lookup_old.
Qed.

Ltac lengths := rewrite ?length_app, ?length_insert; cbn; lia.

Ltac jobs_same :=
  let r := fresh "r" in let j := fresh "j" in let Hj := fresh "Hj" in
  intros r j Hj; first
    [ exists j; split; [exact Hj | reflexivity]
    | exists j; split; [now apply lookup_old | reflexivity] ].

Ltac stable_auto :=
  apply stable_intro; upd_unfold; cbn;
  [ try reflexivity
  | try lengths | try lengths | try lengths | try lengths
  | try jobs_same
  | try first [reflexivity | now eexists]
  | try first [reflexivity | now eexists] ].

Section Frames.
Context `{NamingCodec} `{Runtime}.
Variable cfg : PotionOptions.

Lemma fetch_stable uri fetchOptions pagination s :
  stable s (snd (fetch cfg uri fetchOptions pagination s)).
Proof.
  destruct (o_paginate (read_options s fetchOptions)) eqn:Hpag.
  - rewrite fetch_paginate_eq by exact Hpag. stable_auto.
  - rewrite fetch_plain_eq by exact Hpag. cbv zeta.
    destruct (is_GET _ && no_search _); [|stable_auto].
    destruct (if o_cache _ then _ else _); [stable_auto|].
    destruct (pendingGETRequests s !! _); stable_auto.
Qed.

Lemma fetch_job_kept rid uri fetchOptions pagination s :
  job_kept rid s (snd (fetch cfg uri fetchOptions pagination s)).
Proof.
  intros j Hj.
  destruct (o_paginate (read_options s fetchOptions)) eqn:Hpag.
  - rewrite fetch_paginate_eq by exact Hpag. cbn. now apply lookup_old.
  - rewrite fetch_plain_eq by exact Hpag. cbv zeta.
    destruct (is_GET _ && no_search _); [|cbn; now apply lookup_old].
    destruct (if o_cache _ then _ else _); [exact Hj|].
    destruct (pendingGETRequests s !! _); [exact Hj|].
    cbn. now apply lookup_old.
Qed.

Lemma fetch_searches_kept uri fetchOptions pagination s :
  searches_kept s (snd (fetch cfg uri fetchOptions pagination s)).
Proof.
  intros l o Hl.
  destruct (o_paginate (read_options s fetchOptions)) eqn:Hpag.
  - rewrite fetch_paginate_eq by exact Hpag. cbn. now apply lookup_old.
  - rewrite fetch_plain_eq by exact Hpag. cbv zeta.
    destruct (is_GET _ && no_search _); [|exact Hl].
    destruct (if o_cache _ then _ else _); [exact Hl|].
    destruct (pendingGETRequests s !! _); exact Hl.
Qed.

Lemma placeholder_stable uri r s : stable s (snd (cache_placeholder uri r s)).
Proof.
  unfold cache_placeholder. munfold. cbn.
  destruct (cache s !! uri) eqn:Hc; cbn; [apply stable_refl|].
  stable_auto. now apply insert_subseteq.
Qed.

Lemma placeholder_job_kept rid uri r s :
  job_kept rid s (snd (cache_placeholder uri r s)).
Proof.
  unfold cache_placeholder. munfold. cbn.
  destruct (cache s !! uri); intros j Hj; exact Hj.
Qed.

Lemma placeholder_searches_kept uri r s :
  searches_kept s (snd (cache_placeholder uri r s)).
Proof.
  unfold cache_placeholder. munfold. cbn.
  destruct (cache s !! uri); intros x o Hx; exact Hx.
Qed.

Lemma reference_stable uri s : stable s (snd (fetch_reference cfg uri s)).
Proof.
  unfold fetch_reference. munfold. cbn.
  match goal with
  | |- context [fetch cfg uri ?fo ?pg ?s1] =>
      pose proof (fetch_stable uri fo pg s1) as Hf;
      destruct (fetch cfg uri fo pg s1) as [p s2]
  end.
  cbn in *. eapply stable_trans; [|exact Hf]. stable_auto.
Qed.

Lemma reference_job_kept rid uri s :
  job_kept rid s (snd (fetch_reference cfg uri s)).
Proof.
  unfold fetch_reference. munfold. cbn.
  match goal with
  | |- context [fetch cfg uri ?fo ?pg ?s1] =>
      pose proof (fetch_job_kept rid uri fo pg s1) as Hf;
      destruct (fetch cfg uri fo pg s1) as [p s2]
  end.
  cbn in *. intros j Hj. apply Hf. exact Hj.
Qed.

Lemma reference_searches_kept uri s :
  searches_kept s (snd (fetch_reference cfg uri s)).
Proof.
  unfold fetch_reference. munfold. cbn.
  match goal with
  | |- context [fetch cfg uri ?fo ?pg ?s1] =>
      pose proof (fetch_searches_kept uri fo pg s1) as Hf;
      destruct (fetch cfg uri fo pg s1) as [p s2]
  end.
  cbn in *. intros l o Hl. apply Hf. exact Hl.
Qed.

Lemma orphan_stable ts s : stable s (snd (orphan ts s)).
Proof. unfold orphan. munfold. stable_auto. Qed.

Lemma orphan_job_kept rid ts s : job_kept rid s (snd (orphan ts s)).
Proof. intros j Hj. exact Hj. Qed.

Lemma orphan_searches_kept ts s : searches_kept s (snd (orphan ts s)).
Proof. intros l o Hl. exact Hl. Qed.

Lemma merge_stable uri r properties s :
  stable s (snd (merge uri r properties s)).
Proof.
  unfold merge. munfold. cbn.
  destruct (cache s !! uri) as [item|] eqn:Hc; cbn.
  - stable_auto. destruct (items s !! item); lengths.
  - stable_auto. now apply insert_subseteq.
Qed.

Lemma merge_job_kept rid uri r properties s :
  job_kept rid s (snd (merge uri r properties s)).
Proof.
  unfold merge. munfold. cbn.
  destruct (cache s !! uri); intros j Hj; exact Hj.
Qed.

Lemma merge_searches_kept uri r properties s :
  searches_kept s (snd (merge uri r properties s)).
Proof.
  unfold merge. munfold. cbn.
  destruct (cache s !! uri); intros x o Hx; exact Hx.
Qed.

Lemma fromPotionJSON_stable json s :
  stable s (snd (fromPotionJSON cfg json s)).
Proof.
  apply fromPotionJSON_preserved;
    auto using stable_refl, placeholder_stable, reference_stable.
  apply stable_trans.
Qed.

Lemma fromPotionJSON_job_kept rid json s :
  job_kept rid s (snd (fromPotionJSON cfg json s)).
Proof.
  apply fromPotionJSON_preserved;
    auto using job_kept_refl, placeholder_job_kept, reference_job_kept.
  apply job_kept_trans.
Qed.

Lemma fromPotionJSON_searches_kept json s :
  searches_kept s (snd (fromPotionJSON cfg json s)).
Proof.
  apply fromPotionJSON_preserved;
    auto using searches_kept_refl, placeholder_searches_kept,
      reference_searches_kept.
  apply searches_kept_trans.
Qed.

Lemma reduce_stable t s : stable s (snd (reduce t s)).
Proof.
  apply reduce_preserved;
    auto using stable_refl, orphan_stable, merge_stable.
  apply stable_trans.
Qed.

Lemma reduce_job_kept rid t s : job_kept rid s (snd (reduce t s)).
Proof.
  apply reduce_preserved;
    auto using job_kept_refl, orphan_job_kept, merge_job_kept.
  apply job_kept_trans.
Qed.

Lemma reduce_searches_kept t s : searches_kept s (snd (reduce t s)).
Proof.
  apply reduce_preserved;
    auto using searches_kept_refl, orphan_searches_kept, merge_searches_kept.
  apply searches_kept_trans.
Qed.

(** The handlers that run when a request settles. *)

Lemma settle_stable p o s : stable s (snd (settle p o s)).
Proof. unfold settle. munfold. stable_auto. Qed.

Lemma set_stage_stable rid hs st s : stable s (snd (set_stage rid hs st s)).
Proof.
  unfold set_stage. munfold. stable_auto.
  intros r j Hj. destruct (jobs s !! rid) as [j0|] eqn:Hr.
  - destruct (decide (rid = r)) as [->|Hne].
    + exists (with_stage hs st j0). split.
      * apply list_lookup_insert_eq. now apply lookup_lt_Some in Hj.
      * rewrite Hr in Hj. now injection Hj as ->.
    + exists j. split; [|reflexivity]. now rewrite list_lookup_insert_ne.
  - exists j. split; [exact Hj | reflexivity].
Qed.

Lemma set_stage_job_kept rid rid' hs st s :
  rid' <> rid -> job_kept rid s (snd (set_stage rid' hs st s)).
Proof.
  intros Hne j Hj. unfold set_stage. munfold. upd_unfold. cbn.
  destruct (jobs s !! rid'); [|exact Hj]. now rewrite list_lookup_insert_ne.
Qed.

Lemma finish_request_stable rid j o s :
  stable s (snd (finish_request rid j o s)).
Proof.
  unfold finish_request. munfold. cbn.
  destruct (j_registered j) as [outer|]; cbn.
  - destruct o; cbn.
    all: eapply stable_trans; [|apply set_stage_stable].
    all: unfold settle; munfold; cbn; stable_auto.
  - eapply stable_trans; [|apply set_stage_stable].
    unfold settle. munfold. cbn. stable_auto.
Qed.

Lemma finish_request_job_kept rid rid' j o s :
  rid' <> rid -> job_kept rid s (snd (finish_request rid' j o s)).
Proof.
  intros Hne. unfold finish_request. munfold. cbn.
  destruct (j_registered j) as [outer|]; cbn.
  - destruct o; cbn.
    all: eapply job_kept_trans; [|now apply set_stage_job_kept].
    all: intros x Hx; exact Hx.
  - eapply job_kept_trans; [|now apply set_stage_job_kept].
    intros x Hx; exact Hx.
Qed.

Lemma finish_request_searches_kept rid j o s :
  searches_kept s (snd (finish_request rid j o s)).
Proof.
  unfold finish_request, set_stage, settle. munfold. cbn.
  destruct (j_registered j) as [outer|]; cbn; [destruct o; cbn|];
    intros x y Hx; exact Hx.
Qed.

Lemma new_Pagination_stable uri its count opts s :
  stable s (snd (new_Pagination uri its count opts s)).
Proof.
  unfold new_Pagination. munfold. cbn.
  destruct (spread its); cbn; [|apply stable_refl].
  destruct (o_search _); cbn; [|apply stable_refl]. stable_auto.
Qed.

Lemma update_stable c its count s : stable s (snd (update c its count s)).
Proof.
  unfold update. munfold. cbn.
  destruct (cursors s !! c); cbn; [|apply stable_refl].
  destruct (spread its); cbn; [|apply stable_refl]. stable_auto.
Qed.

Lemma paginate_handler_stable j d s :
  stable s (snd (paginate_handler j d s)).
Proof.
  unfold paginate_handler. destruct (j_paginate j); [|apply stable_refl].
  munfold. cbn.
  destruct (if truthy _ then _ else _); [|apply stable_refl].
  destruct (j_pagination j) as [c|].
  - pose proof (update_stable c d a s) as Hu.
    destruct (update c d a s) as [[v|e] s1]; exact Hu.
  - pose proof (new_Pagination_stable (j_uri j) d a (j_options j) s) as Hn.
    destruct (new_Pagination _ _ _ _ s) as [[c|e] s1]; exact Hn.
Qed.

Lemma paginate_handler_kept j d s :
  jobs (snd (paginate_handler j d s)) = jobs s /\
  searches (snd (paginate_handler j d s)) = searches s.
Proof.
  unfold paginate_handler. destruct (j_paginate j); [|now split].
  munfold. cbn.
  destruct (if truthy _ then _ else _); [|now split].
  destruct (j_pagination j) as [c|].
  - unfold update. munfold. cbn.
    destruct (cursors s !! c); [|now split].
    destruct (spread d); now split.
  - unfold new_Pagination. munfold. cbn.
    destruct (spread d); [|now split].
    destruct (o_search _); now split.
Qed.

(** The steps. *)

Lemma respond_stable rid a s : stable s (snd (respond cfg rid a s)).
Proof.
  unfold respond. munfold. cbn.
  destruct (jobs s !! rid) as [j|]; [|apply stable_refl].
  destruct (j_stage j), a; try apply stable_refl.
  - pose proof (fromPotionJSON_stable (data response) s) as Hd.
    destruct (fromPotionJSON cfg (data response) s) as [t s1]. cbn in *.
    eapply stable_trans; [exact Hd | apply set_stage_stable].
  - apply finish_request_stable.
Qed.

Lemma respond_job_kept rid rid' a s :
  rid' <> rid -> job_kept rid s (snd (respond cfg rid' a s)).
Proof.
  intros Hne. unfold respond. munfold. cbn.
  destruct (jobs s !! rid') as [j|]; [|apply job_kept_refl].
  destruct (j_stage j), a; try apply job_kept_refl.
  - pose proof (fromPotionJSON_job_kept rid (data response) s) as Hd.
    destruct (fromPotionJSON cfg (data response) s) as [t s1]. cbn in *.
    eapply job_kept_trans; [exact Hd | now apply set_stage_job_kept].
  - now apply finish_request_job_kept.
Qed.

Lemma respond_searches_kept rid a s :
  searches_kept s (snd (respond cfg rid a s)).
Proof.
  unfold respond. munfold. cbn.
  destruct (jobs s !! rid) as [j|]; [|apply searches_kept_refl].
  destruct (j_stage j), a; try apply searches_kept_refl.
  - pose proof (fromPotionJSON_searches_kept (data response) s) as Hd.
    destruct (fromPotionJSON cfg (data response) s) as [t s1]. cbn in *.
    eapply searches_kept_trans; [exact Hd|]. intros x y Hx.
    unfold set_stage. munfold. exact Hx.
  - apply finish_request_searches_kept.
Qed.

Lemma advance_stable rid s : stable s (snd (advance rid s)).
Proof.
  unfold advance. munfold. cbn.
  destruct (jobs s !! rid) as [j|]; [|apply stable_refl].
  destruct (j_stage j) as [|t|]; try apply stable_refl.
  pose proof (reduce_stable t s) as Hr.
  destruct (reduce t s) as [t' s1]. cbn in Hr.
  destruct t' as [[v|e]| | | |];
    try (eapply stable_trans; [exact Hr | apply set_stage_stable]).
  - pose proof (paginate_handler_stable j v s1) as Hp.
    destruct (paginate_handler j v s1) as [o s2]. cbn in Hp.
    eapply stable_trans; [exact Hr|].
    eapply stable_trans; [exact Hp | apply finish_request_stable].
  - eapply stable_trans; [exact Hr | apply finish_request_stable].
Qed.

Lemma advance_job_kept rid rid' s :
  rid' <> rid -> job_kept rid s (snd (advance rid' s)).
Proof.
  intros Hne. unfold advance. munfold. cbn.
  destruct (jobs s !! rid') as [j|]; [|apply job_kept_refl].
  destruct (j_stage j) as [|t|]; try apply job_kept_refl.
  pose proof (reduce_job_kept rid t s) as Hr.
  destruct (reduce t s) as [t' s1]. cbn in Hr.
  destruct t' as [[v|e]| | | |];
    try (eapply job_kept_trans; [exact Hr | now apply set_stage_job_kept]).
  - pose proof (paginate_handler_kept j v s1) as [Hp _].
    destruct (paginate_handler j v s1) as [o s2]. cbn in Hp.
    eapply job_kept_trans; [exact Hr|].
    eapply job_kept_trans; [|now apply finish_request_job_kept].
    intros x Hx. now rewrite Hp.
  - eapply job_kept_trans; [exact Hr | now apply finish_request_job_kept].
Qed.

Lemma advance_searches_kept rid s : searches_kept s (snd (advance rid s)).
Proof.
  unfold advance. munfold. cbn.
  destruct (jobs s !! rid) as [j|]; [|apply searches_kept_refl].
  destruct (j_stage j) as [|t|]; try apply searches_kept_refl.
  pose proof (reduce_searches_kept t s) as Hr.
  destruct (reduce t s) as [t' s1]. cbn in Hr.
  destruct t' as [[v|e]| | | |];
    try (eapply searches_kept_trans; [exact Hr|]; intros x y Hx;
         unfold set_stage; munfold; exact Hx).
  - pose proof (paginate_handler_kept j v s1) as [_ Hp].
    destruct (paginate_handler j v s1) as [o s2]. cbn in Hp.
    eapply searches_kept_trans; [exact Hr|].
    eapply searches_kept_trans; [|apply finish_request_searches_kept].
    intros x y Hx. now rewrite Hp.
  - eapply searches_kept_trans; [exact Hr | apply finish_request_searches_kept].
Qed.

Lemma background_stable s : stable s (snd (advance_background s)).
Proof.
  unfold advance_background. munfold. cbn.
  match goal with
  | |- context [reduce_each reduce ?ts ?s1] =>
      pose proof (reduce_each_preserved stable stable_refl stable_trans
                    reduce ts) as Hr;
      specialize (Hr (proj2 (Forall_forall _ _)
                        (fun t _ => reduce_stable t)) s1);
      destruct (reduce_each reduce ts s1) as [ts' s2]
  end.
  cbn in *. eapply stable_trans; [|eapply stable_trans; [exact Hr|]];
    stable_auto.
Qed.

Lemma background_job_kept rid s : job_kept rid s (snd (advance_background s)).
Proof.
  unfold advance_background. munfold. cbn.
  match goal with
  | |- context [reduce_each reduce ?ts ?s1] =>
      pose proof (reduce_each_preserved (job_kept rid) (job_kept_refl rid)
                    (job_kept_trans rid) reduce ts) as Hr;
      specialize (Hr (proj2 (Forall_forall _ _)
                        (fun t _ => reduce_job_kept rid t)) s1);
      destruct (reduce_each reduce ts s1) as [ts' s2]
  end.
  cbn in *. intros j Hj. apply Hr. exact Hj.
Qed.

Lemma background_searches_kept s :
  searches_kept s (snd (advance_background s)).
Proof.
  unfold advance_background. munfold. cbn.
  match goal with
  | |- context [reduce_each reduce ?ts ?s1] =>
      pose proof (reduce_each_preserved searches_kept searches_kept_refl
                    searches_kept_trans reduce ts) as Hr;
      specialize (Hr (proj2 (Forall_forall _ _)
                        (fun t _ => reduce_searches_kept t)) s1);
      destruct (reduce_each reduce ts s1) as [ts' s2]
  end.
  cbn in *. intros x y Hx. apply Hr. exact Hx.
Qed.

Lemma changePageTo_stable c page s :
  stable s (snd (changePageTo cfg c page s)).
Proof.
  unfold changePageTo. munfold. cbn.
  destruct (cursors s !! c) as [cur|]; [|apply stable_refl].
  destruct (o_search _) as [search|]; [|apply stable_refl]. cbn.
  match goal with
  | |- context [fetch cfg ?u ?fo ?pg ?s1] =>
      pose proof (fetch_stable u fo pg s1) as Hf;
      destruct (fetch cfg u fo pg s1) as [p s2]
  end.
  cbn in *. eapply stable_trans; [|exact Hf]. stable_auto.
  destruct (searches s !! search); lengths.
Qed.

Lemma changePageTo_job_kept rid c page s :
  job_kept rid s (snd (changePageTo cfg c page s)).
Proof.
  unfold changePageTo. munfold. cbn.
  destruct (cursors s !! c) as [cur|]; [|apply job_kept_refl].
  destruct (o_search _) as [search|]; [|apply job_kept_refl]. cbn.
  match goal with
  | |- context [fetch cfg ?u ?fo ?pg ?s1] =>
      pose proof (fetch_job_kept rid u fo pg s1) as Hf;
      destruct (fetch cfg u fo pg s1) as [p s2]
  end.
  cbn in *. intros j Hj. apply Hf. exact Hj.
Qed.

(** Whether a step is the settlement or a round of request [rid]. *)
Definition concerns (rid : nat) (e : step) : bool :=
  match e with
  | Respond r _ | Advance r => Nat.eqb r rid
  | _ => false
  end.

Definition changes_page (e : step) : bool :=
  match e with
  | ChangePageTo _ _ => true
  | _ => false
  end.

Lemma do_step_stable e s : stable s (snd (do_step cfg e s)).
Proof.
  destruct e; cbn; munfold.
  - pose proof (fetch_stable uri fetchOptions pagination s) as Hf.
    destruct (fetch _ _ _ _ s). exact Hf.
  - apply respond_stable.
  - apply advance_stable.
  - apply background_stable.
  - pose proof (changePageTo_stable c page s) as Hc.
    destruct (changePageTo _ _ _ s). exact Hc.
Qed.

Lemma do_step_job_kept rid e s :
  concerns rid e = false -> job_kept rid s (snd (do_step cfg e s)).
Proof.
  destruct e; cbn; munfold; intros Hc.
  - pose proof (fetch_job_kept rid uri fetchOptions pagination s) as Hf.
    destruct (fetch _ _ _ _ s). exact Hf.
  - apply respond_job_kept. now apply Nat.eqb_neq.
  - apply advance_job_kept. now apply Nat.eqb_neq.
  - apply background_job_kept.
  - pose proof (changePageTo_job_kept rid c page s) as Hp.
    destruct (changePageTo _ _ _ s). exact Hp.
Qed.

Lemma do_step_searches_kept e s :
  changes_page e = false -> searches_kept s (snd (do_step cfg e s)).
Proof.
  destruct e; cbn; munfold; intros Hc; try discriminate.
  - pose proof (fetch_searches_kept uri fetchOptions pagination s) as Hf.
    destruct (fetch _ _ _ _ s). exact Hf.
  - apply respond_searches_kept.
  - apply advance_searches_kept.
  - apply background_searches_kept.
Qed.

Lemma run_stable es s : stable s (run cfg es s).
Proof.
  revert s. induction es as [|e es IH]; intros s; cbn; [apply stable_refl|].
  eapply stable_trans; [apply do_step_stable | apply IH].
Qed.

Lemma run_searches_kept es s :
  forallb (fun e => negb (changes_page e)) es = true ->
  searches_kept s (run cfg es s).
Proof.
  revert s. induction es as [|e es IH]; intros s; cbn;
    [intros _; apply searches_kept_refl|].
  intros [He Hes]%andb_prop. apply negb_true_iff in He.
  apply searches_kept_trans with (b := snd (do_step cfg e s)).
  - apply do_step_searches_kept. exact He.
  - apply IH. exact Hes.
Qed.

End Frames.

Section OptionsUntouched.
Context `{NamingCodec} `{Runtime}.
Variable cfg : PotionOptions.

(** The copy that [fetch] works on. *)
Definition options_copy (s : Potion) (fetchOptions : option loc) : FetchOptions :=
  let fo := read_options s fetchOptions in
  if o_paginate fo then with_search (Some (length (searches s))) fo else fo.

(** C10.  [fetch] works on a new options object, a shallow copy of the one
    it is given, and for a paginated request puts the defaults and the
    search of the caller into a new search object.  Every options object and
    every search object that exists when [fetch] is called holds the same
    values after the call, and after whatever follows it (transport answers,
    decode rounds, further fetches). *)
Theorem fetch_leaves_options_untouched (uri : string)
    (fetchOptions pagination : option loc) (s : Potion) (es : list step) :
  forallb (fun e => negb (changes_page e)) es = true ->
  let fo := read_options s fetchOptions in
  let s1 := snd (fetch cfg uri fetchOptions pagination s) in
  let s2 := run cfg es s1 in
  (forall l o, options s !! l = Some o ->
     options s1 !! l = Some o /\ options s2 !! l = Some o) /\
  (forall l o, searches s !! l = Some o ->
     searches s1 !! l = Some o /\ searches s2 !! l = Some o) /\
  options s !! length (options s) = None /\
  options s1 !! length (options s) = Some (options_copy s fetchOptions) /\
  (o_paginate fo = true ->
     searches s !! length (searches s) = None /\
     searches s1 !! length (searches s) =
       Some (Obj.assign page_defaults (read_search s (o_search fo)))).
Proof.
  intros Hes fo s1 s2.
  pose proof (fetch_stable cfg uri fetchOptions pagination s) as Hst.
  pose proof (fetch_searches_kept cfg uri fetchOptions pagination s) as Hse.
  pose proof (run_stable cfg es s1) as Hst2.
  pose proof (run_searches_kept cfg es s1 Hes) as Hse2.
  fold s1 in Hst, Hse. fold s2 in Hst2, Hse2.
  split; [|split; [|split; [|split]]].
  - intros l o Hl. split.
    + now apply (st_options _ _ Hst).
    + apply (st_options _ _ Hst2). now apply (st_options _ _ Hst).
  - intros l o Hl. split; [now apply Hse | apply Hse2; now apply Hse].
  - apply lookup_ge_None. lia.
  - unfold s1, options_copy. fold fo.
    destruct (o_paginate fo) eqn:Hpag.
    + rewrite fetch_paginate_eq by exact Hpag. cbn. apply lookup_last.
    + rewrite fetch_plain_eq by exact Hpag. cbv zeta. fold fo.
      destruct (is_GET _ && no_search _); [|cbn; apply lookup_last].
      destruct (if o_cache _ then _ else _); [cbn; apply lookup_last|].
      destruct (pendingGETRequests s !! _); cbn; apply lookup_last.
  - intros Hpag. split; [apply lookup_ge_None; lia|].
    unfold s1. rewrite fetch_paginate_eq by exact Hpag. cbn. apply lookup_last.
Qed.

End OptionsUntouched.

Section ParseFacts.
Context `{NamingCodec} `{Runtime}.
Variable cfg : PotionOptions.

Lemma length_append (a b : string) :
  String.length (a +:+ b) = (String.length a + String.length b)%nat.
Proof.
  induction a as [|c a IH]; [reflexivity|].
  change (S (String.length (a +:+ b)) = S (String.length a + String.length b)).
  now rewrite IH.
Qed.

(** The local URI [local] starts with the registered prefix of [entry]
    followed by a slash. *)
Definition matches (local : string) (entry : string * resource) : Prop :=
  exists rest, local = fst entry +:+ "/" +:+ rest.

Lemma append_assoc (a b c : string) : (a +:+ b) +:+ c = a +:+ (b +:+ c).
Proof.
  induction a as [|x a IH]; [reflexivity|].
  change (String x ((a +:+ b) +:+ c) = String x (a +:+ (b +:+ c))).
  now rewrite IH.
Qed.

Lemma matches_prefix local entry :
  matches local entry <-> String.prefix (fst entry +:+ "/") local = true.
Proof.
  split.
  - intros [rest ->]. rewrite <- append_assoc. apply prefix_app.
  - intros [rest Hrest]%prefix_split. exists rest. rewrite Hrest.
    apply append_assoc.
Qed.

Lemma scan_resources_spec (local : string) (rs : list (string * resource)) :
  match scan_resources local rs with
  | Some p =>
      p_uri p = local /\
      exists rs1 rp r rs2 rest,
        rs = (rs1 ++ (rp, r) :: rs2)%list /\
        Forall (fun e => ~ matches local e) rs1 /\
        local = rp +:+ "/" +:+ rest /\
        p_resource p = r /\
        p_params p = JSString.split "/" rest
  | None => Forall (fun e => ~ matches local e) rs
  end.
Proof.
  induction rs as [|[rp r] rs IH]; cbn [scan_resources]; [constructor|].
  destruct (Z.eqb_spec (JSString.indexOf local (rp +:+ "/")) 0) as [Hz|Hnz].
  - apply indexOf_zero in Hz.
    destruct (proj2 (matches_prefix local (rp, r)) Hz) as [rest Hrest].
    cbn in Hrest. split; [reflexivity|].
    exists [], rp, r, rs, rest. repeat split; [constructor | exact Hrest|].
    cbn. f_equal. rewrite Hrest at 1. rewrite <- append_assoc.
    replace (String.length rp + 1)%nat with (String.length (rp +:+ "/")).
    + apply substring_app.
    + rewrite length_append. reflexivity.
  - assert (Hno : ~ matches local (rp, r)).
    { intros Hm. apply matches_prefix in Hm. apply indexOf_zero in Hm.
      contradiction. }
    destruct (scan_resources local rs) as [p|].
    + destruct IH as (Hu & rs1 & rp' & r' & rs2 & rest & -> & Hrs1 & Hl & Hr & Hp).
      split; [exact Hu|].
      exists ((rp, r) :: rs1), rp', r', rs2, rest.
      repeat split; try assumption. now constructor.
    + now constructor.
Qed.

(** C6.  [parseURI] works on the percent-decoded URI.  It takes the API
    prefix off when the URI starts with it; then, for the first registered
    prefix [rp] such that the local URI is [rp], a slash and a rest, it
    returns the local URI, the resource registered under [rp] and the rest
    split at the slashes; when no registered prefix fits it throws the error
    of the unknown resource.  [fromPotionJSON] catches what [parseURI]
    throws, for [$uri] and for [$ref], and returns a rejected promise: the
    state is as before and nothing is thrown. *)
Theorem parseURI_resolves_or_rejects (uri decoded : string) :
  decodeURIComponent uri = Some decoded ->
  let local := strip_prefix (prefix cfg) decoded in
  (String.prefix (prefix cfg) decoded = true ->
     decoded = prefix cfg +:+ local) /\
  (String.prefix (prefix cfg) decoded = false -> local = decoded) /\
  match parseURI (prefix cfg) (resources cfg) uri with
  | Return p =>
      p_uri p = local /\
      exists rs1 rp r rs2 rest,
        resources cfg = (rs1 ++ (rp, r) :: rs2)%list /\
        Forall (fun e => ~ matches local e) rs1 /\
        local = rp +:+ "/" +:+ rest /\
        p_resource p = r /\
        p_params p = JSString.split "/" rest
  | Throw e =>
      e = unknown_resource local /\
      Forall (fun e => ~ matches local e) (resources cfg) /\
      (forall fs s,
         as_string (Obj.prop "$uri" fs) = Some uri ->
         fromPotionJSON cfg (VObj fs) s = (TSettled (Rejected e), s)) /\
      (forall s,
         uri <> "#" ->
         fromPotionJSON cfg (VObj [("$ref", VStr uri)]) s =
         (TSettled (Rejected e), s))
  end.
Proof.
  intros Hdec local. split; [|split].
  - intros Hp. unfold local, strip_prefix.
    rewrite (proj2 (indexOf_zero _ _) Hp). cbn.
    destruct (prefix_split _ _ Hp) as [rest ->].
    now rewrite substring_app.
  - intros Hp. unfold local, strip_prefix.
    destruct (Z.eqb_spec (JSString.indexOf decoded (prefix cfg)) 0) as [Hz|];
      [|reflexivity].
    apply indexOf_zero in Hz. congruence.
  - destruct (parseURI (prefix cfg) (resources cfg) uri) as [p|e] eqn:Hparse.
    + unfold parseURI in Hparse. rewrite Hdec in Hparse. fold local in Hparse.
      pose proof (scan_resources_spec local (resources cfg)) as Hscan.
      destruct (scan_resources local (resources cfg)); [|discriminate].
      injection Hparse as <-. exact Hscan.
    + assert (He : e = unknown_resource local /\
                   Forall (fun e => ~ matches local e) (resources cfg)).
      { unfold parseURI in Hparse. rewrite Hdec in Hparse. fold local in Hparse.
        pose proof (scan_resources_spec local (resources cfg)) as Hscan.
        destruct (scan_resources local (resources cfg)); [discriminate|].
        injection Hparse as <-. now split. }
      destruct He as [He Hall]. repeat split; try assumption.
      * intros fs s Huri. cbn [fromPotionJSON]. rewrite Huri, Hparse.
        reflexivity.
      * intros s Hne. cbn. rewrite Hparse.
        destruct (String.eqb_spec uri "#"); [contradiction | reflexivity].
Qed.

Lemma time_clip_idempotent (n : number) :
  JSNumber.time_clip (JSNumber.time_clip n) = JSNumber.time_clip n.
Proof.
  destruct n as [z| |b]; cbn; try reflexivity.
  destruct (Z.abs z <=? 8640000000000000) eqn:E; cbn; [now rewrite E | reflexivity].
Qed.

(** C8.  Every [Date] has a clipped time value [time_clip n] (a whole number
    of milliseconds within the range of dates, or [NaN] for the invalid
    date).  The outbound transform turns it into the object [{$date: m}] of
    its time value; the inbound transform resolves an object [{$date: m}] to
    the date of time value [time_clip m]; so the decode of the encoding of
    a date resolves, without touching the state, to a date with the same
    time value. *)
Theorem date_round_trip (n : number) (s : Potion) :
  let d := JSNumber.time_clip n in
  toPotionJSON cfg s (VDate d) = VObj [("$date", VNum d)] /\
  (forall m s',
     fromPotionJSON cfg (VObj [("$date", VNum m)]) s' =
     (TSettled (Fulfilled (VDate (JSNumber.time_clip m))), s')) /\
  fromPotionJSON cfg (toPotionJSON cfg s (VDate d)) s =
  (TSettled (Fulfilled (VDate d)), s).
Proof.
  intros d.
  assert (Henc : toPotionJSON cfg s (VDate d) = VObj [("$date", VNum d)]).
  { unfold toPotionJSON. destruct (length (items s)); reflexivity. }
  split; [exact Henc|]. split; [reflexivity|].
  rewrite Henc. cbn. unfold d. now rewrite time_clip_idempotent.
Qed.

End ParseFacts.

(** ** The settlement of a request *)

Section Settlement.
Context `{NamingCodec} `{Runtime}.
Variable cfg : PotionOptions.

Definition stage_of (s : Potion) (rid : nat) : option stage :=
  j_stage <$> jobs s !! rid.

Lemma set_stage_stage rid hs st s j :
  jobs s !! rid = Some j ->
  jobs (snd (set_stage rid hs st s)) !! rid = Some (with_stage hs st j).
Proof.
  intros Hj. unfold set_stage. munfold. upd_unfold. cbn. rewrite Hj.
  apply list_lookup_insert_eq. now apply lookup_lt_Some in Hj.
Qed.

(** What the promise of the caller is settled with when the request settles
    with [o]. *)
Definition handed_on (uri : string) (o : outcome) : outcome :=
  match o with
  | Fulfilled d => Fulfilled d
  | Rejected err => Rejected (RValue (failure_message uri err))
  end.

Lemma finish_request_spec rid j o s outer :
  jobs s !! rid = Some j ->
  j_registered j = Some outer ->
  j_request j <> outer ->
  (j_request j < length (promises s))%nat ->
  (outer < length (promises s))%nat ->
  let s' := snd (finish_request rid j o s) in
  pendingGETRequests s' !! j_uri j = None /\
  promises s' !! j_request j = Some (Settled o) /\
  promises s' !! outer = Some (Settled (handed_on (j_uri j) o)) /\
  stage_of s' rid = Some Finished /\
  cache s' = cache s /\ items s' = items s /\ cursors s' = cursors s /\
  requests s' = requests s.
Proof.
  intros Hj Hreg Hne Hlt Hlt' s'. subst s'.
  unfold finish_request, stage_of. rewrite Hreg. munfold. cbn.
  destruct o as [d|err]; cbn.
  all: rewrite Hj, lookup_delete_eq.
  all: rewrite list_lookup_insert_ne by congruence.
  all: rewrite !list_lookup_insert_eq
         by (rewrite ?length_insert; try lia; now apply lookup_lt_Some in Hj).
  all: repeat split; reflexivity.
Qed.

Lemma respond_eq rid a s :
  respond cfg rid a s =
  match jobs s !! rid with
  | Some j =>
      match j_stage j, a with
      | AwaitTransport, Resolve response =>
          let '(t, s1) := fromPotionJSON cfg (data response) s in
          set_stage rid (headers response) (Decoding t) s1
      | AwaitTransport, Reject e => finish_request rid j (Rejected e) s
      | _, _ => (tt, s)
      end
  | None => (tt, s)
  end.
Proof.
  unfold respond. munfold. cbv beta iota zeta.
  destruct (jobs s !! rid) as [j|]; [|reflexivity].
  destruct (j_stage j), a; reflexivity.
Qed.

Lemma advance_eq rid s :
  advance rid s =
  match jobs s !! rid with
  | Some j =>
      match j_stage j with
      | Decoding t =>
          let '(t', sr) := reduce t s in
          match t' with
          | TSettled (Fulfilled json) =>
              let '(o, s2) := paginate_handler j json sr in
              finish_request rid j o s2
          | TSettled (Rejected e) => finish_request rid j (Rejected e) sr
          | _ => set_stage rid (j_headers j) (Decoding t') sr
          end
      | _ => (tt, s)
      end
  | None => (tt, s)
  end.
Proof.
  unfold advance. munfold. cbv beta iota zeta.
  destruct (jobs s !! rid) as [j|]; [|reflexivity].
  destruct (j_stage j) as [|t|]; try reflexivity.
  destruct (reduce t s) as [t' sr].
  destruct t' as [[v|e]| | | |]; try reflexivity.
Qed.

(** The only answer of the transport that settles a request at once is a
    rejection. *)
Lemma respond_finishes rid a s j :
  jobs s !! rid = Some j ->
  j_stage j <> Finished ->
  stage_of (snd (respond cfg rid a s)) rid = Some Finished ->
  exists err,
    a = Reject err /\ j_stage j = AwaitTransport /\
    snd (respond cfg rid a s) = snd (finish_request rid j (Rejected err) s).
Proof.
  intros Hj Hst. unfold stage_of. rewrite respond_eq, Hj.
  destruct (j_stage j) eqn:Hstage, a as [response|err]; try contradiction.
  - pose proof (fromPotionJSON_job_kept cfg rid (data response) s j Hj) as Hk.
    destruct (fromPotionJSON cfg (data response) s) as [t s1]. cbn [snd] in Hk.
    rewrite (set_stage_stage _ _ _ _ _ Hk). discriminate.
  - intros _. now exists err.
  - cbn [snd]. rewrite Hj. cbn. congruence.
  - cbn [snd]. rewrite Hj. cbn. congruence.
Qed.

(** A round settles the request when its decode has settled; the last
    handler of the chain has then run on the decoded data. *)
Lemma advance_finishes rid s j :
  jobs s !! rid = Some j ->
  j_stage j <> Finished ->
  stage_of (snd (advance rid s)) rid = Some Finished ->
  exists t t' sr o s2,
    j_stage j = Decoding t /\
    reduce t s = (t', sr) /\
    match t' with
    | TSettled (Fulfilled v) => paginate_handler j v sr = (o, s2)
    | TSettled (Rejected e) => o = Rejected e /\ s2 = sr
    | _ => False
    end /\
    stable s s2 /\
    jobs s2 !! rid = Some j /\
    snd (advance rid s) = snd (finish_request rid j o s2).
Proof.
  intros Hj Hst. unfold stage_of. rewrite advance_eq, Hj.
  destruct (j_stage j) as [|t|] eqn:Hstage; try contradiction.
  - cbn [snd]. rewrite Hj. cbn. congruence.
  - pose proof (reduce_job_kept rid t s j Hj) as Hk.
    pose proof (reduce_stable t s) as Hs.
    destruct (reduce t s) as [t' sr] eqn:Hred. cbn [snd] in Hk, Hs.
    destruct t' as [[v|e]| | | |].
    + pose proof (paginate_handler_stable j v sr) as Hp.
      pose proof (paginate_handler_kept j v sr) as [Hpj _].
      destruct (paginate_handler j v sr) as [o s2] eqn:Hpag.
      cbn [snd] in Hp, Hpj.
      intros _. exists t, (TSettled (Fulfilled v)), sr, o, s2.
      split; [reflexivity|]. split; [exact Hred|]. split; [exact Hpag|].
      split; [eapply stable_trans; eassumption|].
      split; [now rewrite Hpj | reflexivity].
    + intros _. exists t, (TSettled (Rejected e)), sr, (Rejected e), sr.
      split; [reflexivity|]. split; [exact Hred|]. split; [now split|].
      split; [assumption|]. split; [assumption | reflexivity].
    + rewrite (set_stage_stage _ _ _ _ _ Hk). discriminate.
    + rewrite (set_stage_stage _ _ _ _ _ Hk). discriminate.
    + rewrite (set_stage_stage _ _ _ _ _ Hk). discriminate.
    + rewrite (set_stage_stage _ _ _ _ _ Hk). discriminate.
Qed.

(** A step that finishes request [rid] is its rejection by the transport or
    the round in which its decode settles; in both cases the handlers of
    [finish_request] run. *)
Lemma step_finishes rid e s j :
  jobs s !! rid = Some j ->
  j_stage j <> Finished ->
  stage_of (snd (do_step cfg e s)) rid = Some Finished ->
  exists o s2,
    stable s s2 /\ jobs s2 !! rid = Some j /\
    snd (do_step cfg e s) = snd (finish_request rid j o s2) /\
    ((exists err, e = Respond rid (Reject err) /\ o = Rejected err /\ s2 = s) \/
     (e = Advance rid /\
      exists t t' sr,
        j_stage j = Decoding t /\
        reduce t s = (t', sr) /\
        match t' with
        | TSettled (Fulfilled v) => paginate_handler j v sr = (o, s2)
        | TSettled (Rejected e) => o = Rejected e /\ s2 = sr
        | _ => False
        end)).
Proof.
  intros Hj Hst Hfin.
  destruct (concerns rid e) eqn:Hc.
  - destruct e; try discriminate; cbn in Hc; apply Nat.eqb_eq in Hc; subst rid0.
    + cbn [do_step] in *.
      destruct (respond_finishes _ _ _ _ Hj Hst Hfin) as (err & -> & _ & E).
      exists (Rejected err), s.
      split; [apply stable_refl|]. split; [assumption|]. split; [assumption|].
      left. now exists err.
    + cbn [do_step] in *.
      destruct (advance_finishes _ _ _ Hj Hst Hfin)
        as (t & t' & sr & o & s2 & Ht & Hr & Hm & Hs & Hk & E).
      exists o, s2.
      split; [assumption|]. split; [assumption|]. split; [assumption|].
      right. split; [reflexivity|]. now exists t, t', sr.
  - pose proof (do_step_job_kept cfg rid e s Hc j Hj) as Hk.
    unfold stage_of in Hfin. rewrite Hk in Hfin. cbn in Hfin. congruence.
Qed.

(** [fetch] for a GET without search parameters that the cache does not
    answer. *)
Lemma fetch_GET_eq uri fetchOptions pagination s :
  let fo := read_options s fetchOptions in
  o_method fo = Some "GET" ->
  o_search fo = None ->
  o_paginate fo = false ->
  (o_cache fo = true -> cache s !! uri = None) ->
  fetch cfg uri fetchOptions pagination s =
  match pendingGETRequests s !! add_prefix cfg uri with
  | Some request =>
      (request, upd_options (fun os => (os ++ [fo])%list) s)
  | None =>
      (S (length (promises s)),
       {| cache := cache s;
          pendingGETRequests :=
            <[add_prefix cfg uri := length (promises s)]>
              (pendingGETRequests s);
          items := items s;
          options := options s ++ [fo];
          searches := searches s; cursors := cursors s;
          promises := promises s ++ [Pending; Pending];
          requests := requests s ++ [request_of cfg s uri fo VUndefined];
          jobs := jobs s ++
            [job_of cfg s uri fo pagination (Some (S (length (promises s))))];
          background := background s |})
  end.
Proof.
  cbv zeta. intros Hm Hs Hp Hc.
  rewrite fetch_plain_eq by exact Hp. cbv zeta.
  rewrite (proj2 (is_GET_true _) Hm), Hs. cbn [no_search andb].
  replace (if o_cache (read_options s fetchOptions)
           then cache s !! uri else None) with (@None loc).
  2:{ destruct (o_cache (read_options s fetchOptions));
        [symmetry; now apply Hc | reflexivity]. }
  destruct (pendingGETRequests s !! add_prefix cfg uri); reflexivity.
Qed.

Lemma read_options_stable s s' fetchOptions :
  stable s s' ->
  o_method (read_options s fetchOptions) = Some "GET" ->
  read_options s' fetchOptions = read_options s fetchOptions.
Proof.
  intros Hst Hm. destruct (read_options_GET _ _ Hm) as (l & -> & Hl).
  unfold read_options at 1. now rewrite (st_options _ _ Hst _ _ Hl).
Qed.

(** C3, as the code has it.  A GET without search parameters that neither
    the cache nor the table of pending requests answers calls the transport
    and puts its promise into the table under its URI.  Whichever later step
    settles the request (the rejection by the transport, or the round in
    which the decode of the answer succeeds or fails) takes the entry out of
    the table and settles the promise of the caller: with the data, or with
    the message of the error, or the rejected string itself, or the message
    that names the URI.  A later call with the same arguments is then no
    longer answered from the table: it calls the transport again, unless the
    cache answers it. *)
Theorem pending_request_removed_on_settlement (uri : string)
    (fetchOptions pagination : option loc) (s : Potion)
    (es : list step) (e : step) :
  let fo := read_options s fetchOptions in
  let U := add_prefix cfg uri in
  let rid := length (jobs s) in
  let request := length (promises s) in
  o_method fo = Some "GET" ->
  o_search fo = None ->
  o_paginate fo = false ->
  (o_cache fo = true -> cache s !! uri = None) ->
  pendingGETRequests s !! U = None ->
  let '(outer, s1) := fetch cfg uri fetchOptions pagination s in
  let s2 := run cfg es s1 in
  let s3 := snd (do_step cfg e s2) in
  (exists q, requests s1 = (requests s ++ [q])%list /\
             q_url q = host cfg +:+ U) /\
  pendingGETRequests s1 !! U = Some request /\
  stage_of s1 rid = Some AwaitTransport /\
  (stage_of s2 rid = Some AwaitTransport ->
   forall err,
     stage_of (snd (respond cfg rid (Reject err) s2)) rid = Some Finished) /\
  (stage_of s2 rid <> Some Finished ->
   stage_of s3 rid = Some Finished ->
   pendingGETRequests s3 !! U = None /\
   (exists o,
      promises s3 !! request = Some (Settled o) /\
      promises s3 !! outer = Some (Settled (handed_on U o)) /\
      (forall err, e = Respond rid (Reject err) -> o = Rejected err)) /\
   ((o_cache fo = true -> cache s3 !! uri = None) ->
    exists q,
      requests (snd (fetch cfg uri fetchOptions pagination s3)) =
        (requests s3 ++ [q])%list /\
      q_url q = host cfg +:+ U)) /\
  (forall name message,
     failure_message U (RError name message) = VStr message) /\
  (forall str, failure_message U (RValue (VStr str)) = VStr str) /\
  (forall v, as_string v = None ->
     failure_message U (RValue v) =
     VStr ("An error occurred while Potion tried to retrieve a resource from '"
           +:+ U +:+ "'.")).
Proof.
  cbv zeta. intros Hm Hs Hp Hc Hnone.
  pose proof (fetch_stable cfg uri fetchOptions pagination s) as Hst1.
  rewrite fetch_GET_eq in Hst1 |- * by assumption.
  rewrite Hnone in Hst1 |- *. cbn [snd] in Hst1.
  set (fo := read_options s fetchOptions) in *.
  set (U := add_prefix cfg uri) in *.
  set (rid := length (jobs s)) in *.
  set (request := length (promises s)) in *.
  match type of Hst1 with stable s ?x => set (s1 := x) in * end.
  set (s2 := run cfg es s1).
  pose proof (run_stable cfg es s1) as Hst2. fold s2 in Hst2.
  assert (Hj1 : jobs s1 !! rid = Some (job_of cfg s uri fo pagination
                                         (Some (S request)))).
  { apply lookup_last. }
  destruct (st_jobs _ _ Hst2 _ _ Hj1) as (j2 & Hj2 & Hstatic).
  injection Hstatic as Huri _ _ _ Hreq Hreg.
  cbn in Huri, Hreq, Hreg. fold U in Huri. fold request in Hreq.
  assert (Hlen2 : (S (S request) <= length (promises s2))%nat).
  { pose proof (st_promises _ _ Hst2) as Hl. cbn in Hl.
    rewrite length_app in Hl. cbn in Hl. unfold request. lia. }
  split; [eexists; split; reflexivity|].
  split; [apply lookup_insert_eq|].
  split; [unfold stage_of; now rewrite Hj1|].
  split; [|split].
  - intros Hawait err. unfold stage_of in Hawait. rewrite Hj2 in Hawait.
    cbn in Hawait. injection Hawait as Hawait.
    rewrite respond_eq, Hj2.
    destruct (j_stage j2); try discriminate Hawait.
    apply (finish_request_spec rid j2 (Rejected err) s2 (S request));
      try assumption; lia.
  - intros Hunf Hfin.
    assert (Hnf : j_stage j2 <> Finished).
    { intros E. apply Hunf. unfold stage_of. rewrite Hj2. cbn. now rewrite E. }
    destruct (step_finishes rid e s2 j2 Hj2 Hnf Hfin)
      as (o & s2' & Hst2' & Hj2' & E & Hhow).
    assert (Hrej : forall err, e = Respond rid (Reject err) -> o = Rejected err).
    { intros err ->. destruct Hhow as [(err' & [= <-] & -> & _)|[[=] _]].
      reflexivity. }
    pose proof (st_promises _ _ Hst2') as Hl.
    pose proof (finish_request_spec rid j2 o s2' (S request) Hj2' Hreg) as Hf.
    rewrite Hreq, Huri in Hf. rewrite <- E in Hf. cbv zeta in Hf.
    destruct Hf as (Hpend & Hp1 & Hp2 & _); try lia.
    split; [exact Hpend|]. split.
    + exists o. split; [exact Hp1|]. split; [exact Hp2 | exact Hrej].
    + intros Hc3.
      assert (Hst3 : stable s (snd (do_step cfg e s2))).
      { eapply stable_trans; [exact Hst1|].
        eapply stable_trans; [exact Hst2 | apply do_step_stable]. }
      pose proof (read_options_stable _ _ fetchOptions Hst3 Hm) as Hro.
      rewrite fetch_GET_eq; rewrite ?Hro; try assumption.
      fold U. rewrite Hpend. cbn. eexists. split; reflexivity.
  - split; [reflexivity|]. split; [reflexivity|].
    intros v Hv. destruct v; try reflexivity. discriminate.
Qed.

End Settlement.

(** ** Pagination *)

Section PaginationFacts.
Context `{NamingCodec} `{Runtime}.
Variable cfg : PotionOptions.










End PaginationFacts.

(** ** The identity of items *)

Section Identity.
Context `{NamingCodec} `{Runtime}.
Variable cfg : PotionOptions.




























(** The start of a decode makes items and changes none. *)
Definition items_kept (s s' : Potion) : Prop :=
  forall l it, items s !! l = Some it -> items s' !! l = Some it.

Lemma fromPotionJSON_items_kept json s :
  items_kept s (snd (fromPotionJSON cfg json s)).
Proof.
  apply fromPotionJSON_preserved.
  - intros s0 l it Hl. exact Hl.
  - intros a b c Hab Hbc l it Hl. apply Hbc. now apply Hab.
  - intros uri r s0 l it Hl. unfold cache_placeholder. munfold. cbn.
    destruct (cache s0 !! uri); [exact Hl|]. cbn. now apply lookup_old.
  - intros uri s0 l it Hl. unfold fetch_reference. munfold. cbn.
    match goal with
    | |- context [fetch cfg uri ?fo ?pg ?s1] =>
        destruct (o_paginate (read_options s1 fo)) eqn:Hpag;
        [ rewrite (fetch_paginate_eq cfg uri fo pg s1 Hpag)
        | rewrite (fetch_plain_eq cfg uri fo pg s1 Hpag) ]
    end.
    + exact Hl.
    + cbv zeta. destruct (is_GET _ && no_search _); [|exact Hl].
      destruct (if o_cache _ then _ else _); [exact Hl|].
      destruct (pendingGETRequests _ !! _); exact Hl.
Qed.

(** The start of the decode of an object with [$uri]. *)
Lemma fromPotionJSON_resource fs wire_uri parsed s :
  as_string (Obj.prop "$uri" fs) = Some wire_uri ->
  parseURI (prefix cfg) (resources cfg) wire_uri = Return parsed ->
  let '(t, s1) := fromPotionJSON cfg (VObj fs) s in
  stable s s1 /\
  (exists properties promises,
     t = TResource (p_uri parsed) (p_resource parsed) properties promises) /\
  exists item,
    cache s1 !! p_uri parsed = Some item /\
    match cache s !! p_uri parsed with
    | Some i0 => item = i0
    | None =>
        item = length (items s) /\
        items s1 !! item = Some (construct (p_resource parsed) [])
    end.
Proof.
  intros Huri Hparse.
  pose proof (fromPotionJSON_stable cfg (VObj fs) s) as Hst.
  destruct (fromPotionJSON cfg (VObj fs) s) as [t s1] eqn:E. cbn [snd] in Hst.
  split; [exact Hst|].
  cbn [fromPotionJSON] in E. rewrite Huri, Hparse in E. munfold.
  assert (Hph : exists item,
            cache (snd (cache_placeholder (p_uri parsed) (p_resource parsed) s))
              !! p_uri parsed = Some item /\
            match cache s !! p_uri parsed with
            | Some i0 => item = i0
            | None =>
                item = length (items s) /\
                items (snd (cache_placeholder (p_uri parsed)
                              (p_resource parsed) s)) !! item =
                Some (construct (p_resource parsed) [])
            end).
  { unfold cache_placeholder. munfold. cbn.
    destruct (cache s !! p_uri parsed) as [i0|] eqn:Hc; cbn.
    - exists i0. now split.
    - exists (length (items s)). upd_unfold.
      split; [apply lookup_insert_eq|]. split; [reflexivity | apply lookup_last]. }
  destruct (cache_placeholder _ _ s) as [[] s0]. cbn [snd] in Hph.
  pose proof (decode_entries_preserved stable stable_refl stable_trans
                (fromPotionJSON cfg) fs
                (proj2 (Forall_forall _ _)
                   (fun kv _ => fromPotionJSON_stable cfg (snd kv)))
                true (p_uri parsed) [] [] s0) as He.
  destruct (decode_entries _ _ _ _ _ _ s0) as [[properties promises] s1']
    eqn:Hdec.
  cbn [snd] in He. injection E as <- <-.
  split; [now eexists _, _|].
  destruct Hph as (item & Hc & Hi). exists item.
  split; [now apply (st_cache _ _ He)|].
  destruct (cache s !! p_uri parsed); [exact Hi|].
  destruct Hi as [-> Hi]. split; [reflexivity|].
  pose proof (decode_entries_preserved items_kept
                (fun s0 l it Hl => Hl)
                (fun a b c Hab Hbc l it Hl => Hbc l it (Hab l it Hl))
                (fromPotionJSON cfg) fs
                (proj2 (Forall_forall _ _)
                   (fun kv _ => fromPotionJSON_items_kept (snd kv)))
                true (p_uri parsed) [] [] s0) as Hk.
  rewrite Hdec in Hk. now apply Hk.
Qed.



End Identity.

(** ** [Item.toJSON]

    The [Item] class whose [toJSON] filters the read-only properties, with the
    [readonly] decorator that marks them.  [fromCamelCase] is the naming
    codec of [utils], a parameter here. *)

Module ItemJSON.
Section ItemJSON.
Variable fromCamelCase : string -> string.

(** The own enumerable properties that a plain object inherits nothing for
    are looked up in [Object.prototype]. *)
Definition Object_prototype : list string :=
  ["constructor"; "hasOwnProperty"; "isPrototypeOf"; "propertyIsEnumerable";
   "toLocaleString"; "toString"; "valueOf"; "__defineGetter__";
   "__defineSetter__"; "__lookupGetter__"; "__lookupSetter__"; "__proto__"].

(** [readonly(target, property)] on the metadata of the constructor:
    [Object.assign(metadata || {}, {[property]: true})]. *)
Definition readonly (property : string) (metadata : option Obj.t)
    : option Obj.t :=
  Some (Obj.assign (default [] metadata) [(property, VBool true)]).

(** [metadata[key]], as a condition. *)
Definition marked (metadata : Obj.t) (key : string) : bool :=
  match Obj.get key metadata with
  | Some v => truthy v
  | None => existsb (String.eqb key) Object_prototype
  end.

(** The filter of [toJSON]:
    [!key.startsWith('_') && (!metadata || (metadata && !metadata[key]))]. *)
Definition kept (metadata : option Obj.t) (key : string) : bool :=
  negb (JSString.startsWith key "_")
  && match metadata with
     | None => true
     | Some m => negb (marked m key)
     end.

(** [toJSON()] of an item with the own properties [own], for the read-only
    metadata of its constructor. *)
Definition toJSON (metadata : option Obj.t) (own : Obj.t) : Obj.t :=
  fold_left (fun properties '(key, v) => Obj.set (fromCamelCase key) v properties)
    (List.filter (fun kv => kept metadata (fst kv)) own) [].

Lemma get_set k k' v (o : Obj.t) :
  Obj.get k (Obj.set k' v o) = if String.eqb k k' then Some v else Obj.get k o.
Proof.
  induction o as [|[k0 v0] o IH]; cbn.
  - reflexivity.
  - destruct (String.eqb_spec k' k0) as [->|Hne]; cbn.
    + destruct (String.eqb k k0); reflexivity.
    + rewrite IH. destruct (String.eqb_spec k k0) as [->|]; [|reflexivity].
      destruct (String.eqb_spec k0 k'); [congruence | reflexivity].
Qed.

Lemma fold_set_get (kvs : list (string * value)) (acc : Obj.t) k' v :
  Obj.get k'
    (fold_left (fun properties '(key, v) => Obj.set (fromCamelCase key) v properties)
       kvs acc) = Some v ->
  Obj.get k' acc = Some v \/
  exists key, In (key, v) kvs /\ k' = fromCamelCase key.
Proof.
  revert acc. induction kvs as [|[key w] kvs IH]; intros acc; cbn.
  - now left.
  - intros Hg. destruct (IH _ Hg) as [Hacc|(key' & Hin & ->)].
    + rewrite get_set in Hacc.
      destruct (String.eqb_spec k' (fromCamelCase key)) as [->|].
      * injection Hacc as <-. right. exists key. split; [now left | reflexivity].
      * now left.
    + right. exists key'. split; [now right | reflexivity].
Qed.

Lemma fold_set_keeps (kvs : list (string * value)) (acc : Obj.t) k :
  (exists v, Obj.get k acc = Some v) ->
  exists v,
    Obj.get k
      (fold_left (fun properties '(key, v) => Obj.set (fromCamelCase key) v properties)
         kvs acc) = Some v.
Proof.
  revert acc. induction kvs as [|[key0 w0] kvs IH]; intros acc Hex; cbn;
    [exact Hex|].
  apply IH. rewrite get_set.
  destruct (String.eqb k (fromCamelCase key0)); [now eexists | exact Hex].
Qed.

Lemma fold_set_has (kvs : list (string * value)) (acc : Obj.t) key w :
  In (key, w) kvs ->
  exists v,
    Obj.get (fromCamelCase key)
      (fold_left (fun properties '(key, v) => Obj.set (fromCamelCase key) v properties)
         kvs acc) = Some v.
Proof.
  revert acc. induction kvs as [|[key0 w0] kvs IH]; intros acc; cbn; [tauto|].
  intros [Heq|Hin]; [|now apply IH].
  injection Heq as -> ->. apply fold_set_keeps. exists w.
  rewrite get_set. now rewrite String.eqb_refl.
Qed.

(** The metadata after [options.readonly.forEach((property) =>
    readonly(resource, property))]. *)
Definition register_readonly (properties : list string)
    (metadata : option Obj.t) : option Obj.t :=
  fold_left (fun md property => readonly property md) properties metadata.

Lemma marked_readonly (properties : list string) (metadata : option Obj.t)
    (property : string) :
  (exists m, metadata = Some m /\ marked m property = true) \/
  In property properties ->
  exists m, register_readonly properties metadata = Some m /\
            marked m property = true.
Proof.
  revert metadata. induction properties as [|p ps IH]; intros metadata Hyp.
  - destruct Hyp as [Hm|[]]. exact Hm.
  - cbn. apply IH.
    destruct (String.eqb_spec property p) as [->|Hne].
    + left. eexists. split; [reflexivity|]. unfold marked. cbn.
      rewrite get_set. now rewrite String.eqb_refl.
    + destruct Hyp as [(m & -> & Hm)|[Heq|Hin]]; [|congruence|now right].
      left. eexists. split; [reflexivity|]. unfold marked in *. cbn.
      rewrite get_set. destruct (String.eqb_spec property p); [congruence|].
      exact Hm.
Qed.

(** C7.  Every entry of the object that [toJSON] returns comes from an own
    property of the item whose name does not start with an underscore and is
    not marked read-only for the type of the item, and its key is the
    wire-case name [fromCamelCase key] of that property; every such property
    is in the object under that name.  A property that the registration has
    marked read-only does not pass the filter.  So, for a codec that leaves
    the first unit of a name an underscore or not as it is, no key of the
    object starts with an underscore. *)
Theorem toJSON_keys (metadata : option Obj.t) (own : Obj.t) :
  (forall k' v,
     Obj.get k' (toJSON metadata own) = Some v ->
     exists key,
       k' = fromCamelCase key /\ In (key, v) own /\
       JSString.startsWith key "_" = false /\
       (forall m, metadata = Some m -> marked m key = false)) /\
  (forall key v,
     In (key, v) own ->
     JSString.startsWith key "_" = false ->
     (forall m, metadata = Some m -> marked m key = false) ->
     exists v', Obj.get (fromCamelCase key) (toJSON metadata own) = Some v') /\
  (forall properties before property,
     In property properties ->
     kept (register_readonly properties before) property = false) /\
  ((forall key, JSString.startsWith (fromCamelCase key) "_"
                = JSString.startsWith key "_") ->
   forall k' v, Obj.get k' (toJSON metadata own) = Some v ->
                JSString.startsWith k' "_" = false).
Proof.
  assert (Hfrom : forall k' v,
            Obj.get k' (toJSON metadata own) = Some v ->
            exists key,
              k' = fromCamelCase key /\ In (key, v) own /\
              JSString.startsWith key "_" = false /\
              (forall m, metadata = Some m -> marked m key = false)).
  { intros k' v Hg. unfold toJSON in Hg.
    destruct (fold_set_get _ _ _ _ Hg) as [Hnil|(key & Hin & ->)];
      [discriminate|].
    apply filter_In in Hin. destruct Hin as [Hin Hk]. cbn in Hk.
    apply andb_prop in Hk. destruct Hk as [Hu Hm].
    exists key. split; [reflexivity|]. split; [exact Hin|].
    split; [now apply negb_true_iff|].
    intros m ->. now apply negb_true_iff. }
  split; [exact Hfrom|]. split; [|split].
  - intros key v Hin Hu Hm. unfold toJSON.
    apply (fold_set_has _ _ key v). apply filter_In. split; [exact Hin|].
    cbn. unfold kept. rewrite Hu. cbn.
    destruct metadata as [m|]; [|reflexivity]. now rewrite (Hm m eq_refl).
  - intros properties before property Hin.
    destruct (marked_readonly properties before property (or_intror Hin))
      as (m & -> & Hm).
    unfold kept. rewrite Hm. apply andb_false_r.
  - intros Hcodec k' v Hg. destruct (Hfrom k' v Hg) as (key & -> & _ & Hu & _).
    now rewrite Hcodec.
Qed.

End ItemJSON.
End ItemJSON.

(** * More of the client

    Properties of the parts of [PotionBase], [Pagination] and the
    registration that the claims above leave out. *)

(** ** More on [fetch] *)

Section FetchMore.
Context `{NamingCodec} `{Runtime}.
Variable cfg : PotionOptions.

Lemma add_prefix_occurs (uri : string) : occurs (prefix cfg) (add_prefix cfg uri).
Proof.
  unfold add_prefix.
  destruct (Z.eqb_spec (JSString.indexOf uri (prefix cfg)) (-1)) as [E|E].
  - now exists "", uri.
  - now apply indexOf_found.
Qed.

Lemma add_prefix_fixed (uri : string) :
  occurs (prefix cfg) uri -> add_prefix cfg uri = uri.
Proof.
  intros Hocc. unfold add_prefix.
  destruct (Z.eqb_spec (JSString.indexOf uri (prefix cfg)) (-1)) as [E|E];
    [|reflexivity].
  now apply indexOf_occurs in Hocc.
Qed.

(** A GET without search parameters that the cache does not answer, for
    options that are in the store. *)
Lemma fetch_uncached_GET_eq uri (l : loc) fo pagination s :
  options s !! l = Some fo ->
  o_method fo = Some "GET" -> o_search fo = None -> o_paginate fo = false ->
  (o_cache fo = true -> cache s !! uri = None) ->
  fetch cfg uri (Some l) pagination s =
  match pendingGETRequests s !! add_prefix cfg uri with
  | Some request =>
      (request, upd_options (fun os => (os ++ [fo])%list) s)
  | None =>
      (S (length (promises s)),
       {| cache := cache s;
          pendingGETRequests :=
            <[add_prefix cfg uri := length (promises s)]> (pendingGETRequests s);
          items := items s; options := options s ++ [fo];
          searches := searches s; cursors := cursors s;
          promises := promises s ++ [Pending; Pending];
          requests := requests s ++ [request_of cfg s uri fo VUndefined];
          jobs := jobs s ++
            [job_of cfg s uri fo pagination (Some (S (length (promises s))))];
          background := background s |})
  end.
Proof.
  intros Hl Hm Hs Hp Hc.
  assert (Hfo : read_options s (Some l) = fo) by (cbn; now rewrite Hl).
  rewrite fetch_plain_eq by (rewrite Hfo; exact Hp). cbv zeta.
  rewrite Hfo, (proj2 (is_GET_true _) Hm), Hs. cbn [no_search andb].
  replace (if o_cache fo then cache s !! uri else None) with (@None loc)
    by (destruct (o_cache fo); [symmetry; now apply Hc | reflexivity]).
  destruct (pendingGETRequests s !! add_prefix cfg uri); reflexivity.
Qed.

(** X1.  The normalisation of the URI is idempotent: a URI that [fetch] has
    prefixed is left as it is by a second pass.  So a GET of the prefixed
    spelling of a URI, made while a GET of the plain spelling is pending,
    is answered with the pending promise and calls the transport no second
    time. *)
Theorem add_prefix_idempotent (uri : string) (l : loc) (fo : FetchOptions)
    (pagination : option loc) (s : Potion) :
  options s !! l = Some fo ->
  o_method fo = Some "GET" -> o_search fo = None -> o_paginate fo = false ->
  o_cache fo = false ->
  pendingGETRequests s !! add_prefix cfg uri = None ->
  add_prefix cfg (add_prefix cfg uri) = add_prefix cfg uri /\
  let '(first, s1) := fetch cfg uri (Some l) pagination s in
  let '(second, s2) := fetch cfg (add_prefix cfg uri) (Some l) pagination s1 in
  (exists q, requests s1 = (requests s ++ [q])%list /\
             q_url q = host cfg +:+ add_prefix cfg uri) /\
  requests s2 = requests s1 /\
  pendingGETRequests s1 !! add_prefix cfg uri = Some second /\
  promises s2 !! second = Some Pending.
Proof.
  intros Hl Hm Hs Hp Hc Hpend.
  assert (Hidem : add_prefix cfg (add_prefix cfg uri) = add_prefix cfg uri)
    by apply add_prefix_fixed, add_prefix_occurs.
  split; [exact Hidem|].
  rewrite (fetch_uncached_GET_eq uri l fo) by (try assumption; congruence).
  rewrite Hpend.
  erewrite (fetch_uncached_GET_eq (add_prefix cfg uri) l fo);
    [| fields; now apply lookup_old | assumption.. | congruence].
  rewrite Hidem. fields. rewrite lookup_insert_eq. upd_unfold.
  repeat split.
  - eexists. split; reflexivity.
  - change [Pending; Pending] with ([Pending] ++ [Pending])%list.
    rewrite app_assoc. apply (lookup_old _ [Pending]). apply lookup_last.
Qed.

(** X2.  Queries are not cached and not shared: a call of [fetch] whose
    method is not GET, or that has search parameters or asks for
    pagination, calls the transport once, whatever the cache and the table
    of pending requests hold, and touches neither; the promise it returns
    is the end of the chain of this one request. *)
Theorem fetch_query_always_requests (uri : string)
    (fetchOptions pagination : option loc) (s : Potion) :
  let fo := read_options s fetchOptions in
  o_method fo <> Some "GET" \/ o_search fo <> None \/ o_paginate fo = true ->
  let '(p, s') := fetch cfg uri fetchOptions pagination s in
  p = length (promises s) /\
  promises s' = (promises s ++ [Pending])%list /\
  (exists q, requests s' = (requests s ++ [q])%list /\
             q_url q = host cfg +:+ add_prefix cfg uri /\
             q_method q = o_method fo /\
             q_data q = toPotionJSON cfg s (o_data fo)) /\
  (exists j, jobs s' = (jobs s ++ [j])%list /\
             j_request j = p /\ j_registered j = None /\
             j_stage j = AwaitTransport) /\
  pendingGETRequests s' = pendingGETRequests s /\
  cache s' = cache s.
Proof.
  intros fo Hq. destruct (o_paginate fo) eqn:Hpag.
  - rewrite fetch_paginate_eq by exact Hpag. cbv zeta. fields.
    repeat split; eexists; repeat split; reflexivity.
  - rewrite fetch_plain_eq by exact Hpag. cbv zeta. fold fo.
    replace (is_GET (o_method fo) && no_search (o_search fo)) with false.
    + fields. repeat split; eexists; repeat split; reflexivity.
    + symmetry. apply andb_false_iff.
      destruct Hq as [Hm|[Hs|Hp]]; [left | right | congruence].
      * destruct (is_GET (o_method fo)) eqn:E; [|reflexivity].
        now apply is_GET_true in E.
      * destruct (o_search fo); [reflexivity | congruence].
Qed.

End FetchMore.

(** ** The round trip of plain data *)

Section RoundTrip.
Context `{NamingCodec} `{Runtime}.
Variable cfg : PotionOptions.

(** The keys that [fromPotionJSON] reads as markers. *)
Definition marker (k : string) : bool :=
  String.eqb k "$uri" || String.eqb k "$schema" || String.eqb k "$ref"
  || String.eqb k "$date".

Fixpoint distinct (ks : list string) : bool :=
  match ks with
  | [] => true
  | k :: ks' => negb (existsb (String.eqb k) ks') && distinct ks'
  end.

Definition same_number (a b : number) : bool :=
  match a, b with
  | Int x, Int y => x =? y
  | NaN, NaN => true
  | Infinity x, Infinity y => Bool.eqb x y
  | _, _ => false
  end.

(** Data that holds no item and no cursor, whose dates are dates, and whose
    keys survive the trip: the wire names of the keys of an object are
    distinct, none is a marker, and the camel-case name of the wire name of
    a key is the key. *)
Fixpoint plain (v : value) : bool :=
  match v with
  | VItem _ | VPagination _ => false
  | VDate t => same_number (JSNumber.time_clip t) t
  | VArr xs => forallb plain xs
  | VObj fs =>
      forallb (fun '(k, x) =>
                 String.eqb (toCamelCase (toSnakeCase k)) k
                 && negb (marker (toSnakeCase k)) && plain x) fs
      && distinct (map (fun kv => toSnakeCase (fst kv)) fs)
  | _ => true
  end.

Definition same_leaf (a b : value) : bool :=
  match a, b with
  | VUndefined, VUndefined | VNull, VNull => true
  | VBool x, VBool y => Bool.eqb x y
  | VNum x, VNum y => same_number x y
  | VStr x, VStr y => String.eqb x y
  | VDate x, VDate y => same_number x y
  | VItem x, VItem y => Nat.eqb x y
  | VPagination x, VPagination y => Nat.eqb x y
  | _, _ => false
  end.

(** The same data, whatever the order of the keys of its objects: arrays
    are compared element by element, objects key by key.  The keys of a
    decoded object come in the order in which the promises of its
    properties settle; a round runs the continuations in the order of the
    payload, the runtime runs each when its promise settles, so that a
    property that is an array or an object comes behind the primitive ones.
    What is said of decoded data below is said up to this order. *)
Fixpoint same_data (a b : value) : bool :=
  match a, b with
  | VArr xs, VArr ys =>
      (fix each (xs ys : list value) : bool :=
         match xs, ys with
         | [], [] => true
         | x :: xs', y :: ys' => same_data x y && each xs' ys'
         | _, _ => false
         end) xs ys
  | VObj fs, VObj gs =>
      Nat.eqb (length fs) (length gs)
      && distinct (Obj.keys fs) && distinct (Obj.keys gs)
      && forallb (fun '(k, x) => match Obj.get k gs with
                                 | Some y => same_data x y
                                 | None => false
                                 end) fs
  | _, _ => same_leaf a b
  end.

Lemma same_number_eq a b : same_number a b = true -> a = b.
Proof.
  destruct a, b; cbn; try discriminate; try reflexivity.
  - intros ->%Z.eqb_eq. reflexivity.
  - intros ->%Bool.eqb_prop. reflexivity.
Qed.

Lemma distinct_NoDup ks : distinct ks = true -> NoDup ks.
Proof.
  induction ks as [|k ks IH]; cbn; [constructor|].
  intros [Hk Hd]%andb_prop. apply NoDup_cons. split; [|now apply IH].
  intros Hin%list_elem_of_In. apply negb_true_iff in Hk.
  assert (existsb (String.eqb k) ks = true); [|congruence].
  apply existsb_exists. exists k. split; [exact Hin | apply String.eqb_refl].
Qed.

Lemma toPotionJSON_fuel_arr f its xs :
  toPotionJSON_fuel cfg f its (VArr xs)
  = VArr (map (toPotionJSON_fuel cfg f its) xs).
Proof. destruct f; reflexivity. Qed.

Lemma toPotionJSON_fuel_obj f its fs :
  toPotionJSON_fuel cfg f its (VObj fs)
  = VObj (omap (fun k v => (toSnakeCase k, toPotionJSON_fuel cfg f its v)) fs).
Proof. destruct f; reflexivity. Qed.

Lemma toPotionJSON_fuel_date f its t :
  toPotionJSON_fuel cfg f its (VDate t) = VObj [("$date", VNum t)].
Proof. destruct f; reflexivity. Qed.

Lemma orphan_nil s : orphan [] s = (tt, s).
Proof.
  unfold orphan, modify, upd_background. destruct s. cbn.
  now rewrite app_nil_r.
Qed.

(** [enc] decodes to [v] at once: the decode touches nothing and its first
    round fulfils it with [v]. *)
Definition settles_to (t : task) (v : value) : Prop :=
  forall s, reduce t s = (TSettled (Fulfilled v), s).

Definition decodes_to (enc v : value) : Prop :=
  forall s, exists t, fromPotionJSON cfg enc s = (t, s) /\ settles_to t v.

Lemma decode_each_settles encs vs :
  Forall2 decodes_to encs vs ->
  forall s, exists ts,
    decode_each (fromPotionJSON cfg) encs s = (ts, s) /\
    Forall2 settles_to ts vs.
Proof.
  induction 1 as [|enc v encs vs Hd _ IH]; intros s; cbn.
  - exists []. split; [reflexivity | constructor].
  - munfold. destruct (Hd s) as (t & -> & Ht).
    destruct (IH s) as (ts & -> & Hts).
    exists (t :: ts). split; [reflexivity | now constructor].
Qed.

Lemma reduce_each_settles ts vs :
  Forall2 settles_to ts vs ->
  forall s, reduce_each reduce ts s
            = (map (fun v => TSettled (Fulfilled v)) vs, s).
Proof.
  induction 1 as [|t v ts vs Ht _ IH]; intros s; cbn; [reflexivity|].
  munfold. rewrite (Ht s), (IH s). reflexivity.
Qed.

Lemma first_rejected_fulfilled vs :
  first_rejected (map (fun v => TSettled (Fulfilled v)) vs) = None.
Proof. induction vs; cbn; [reflexivity | assumption]. Qed.

Lemma all_fulfilled_fulfilled vs :
  all_fulfilled (map (fun v => TSettled (Fulfilled v)) vs) = Some vs.
Proof. induction vs as [|v vs IH]; cbn; [reflexivity | now rewrite IH]. Qed.

Lemma decodes_to_array encs vs :
  Forall2 decodes_to encs vs -> decodes_to (VArr encs) (VArr vs).
Proof.
  intros Hall s. destruct (decode_each_settles _ _ Hall s) as (ts & Hts & Hs).
  exists (TAll ts). split.
  - cbn. munfold. now rewrite Hts.
  - intros s'. cbn. munfold. rewrite (reduce_each_settles _ _ Hs).
    now rewrite first_rejected_fulfilled, all_fulfilled_fulfilled.
Qed.

(** The slots of an object, without the marks of the [Map]. *)
Definition slot_settles (slot : string * bool * task) (kv : string * value)
    : Prop :=
  fst (fst slot) = fst kv /\ settles_to (snd slot) (snd kv).

Lemma decode_entries_settles (own : bool) (uri : string) wire fs :
  Forall2 (fun e kv => toCamelCase (fst e) = fst kv /\
                       decodes_to (snd e) (snd kv)) wire fs ->
  Forall (fun e => own && String.eqb (fst e) "$uri" = false) wire ->
  forall properties slots kvs s,
    Forall2 slot_settles slots kvs ->
    exists slots',
      decode_entries (fromPotionJSON cfg) own wire uri properties slots s
      = ((properties, slots'), s) /\
      Forall2 slot_settles slots' (kvs ++ fs)%list.
Proof.
  induction 1 as [|[wk enc] [k v] wire fs [Hk Hd] _ IH];
    intros Hown properties slots kvs s Hslots; cbn [decode_entries].
  - exists slots. split; [reflexivity | now rewrite app_nil_r].
  - apply Forall_cons in Hown as [Hwk Hown]. cbn [fst] in Hwk. rewrite Hwk.
    munfold. cbn in Hk, Hd. destruct (Hd s) as (t & -> & Ht).
    destruct (IH Hown properties (promises_set (toCamelCase wk) t slots)
                (kvs ++ [(k, v)])%list s) as (slots' & -> & Hs').
    + unfold promises_set. apply Forall2_app.
      * clear -Hslots. induction Hslots as [|[[k0 h0] t0] kv ? ? Hs _ IH];
          cbn; constructor; [exact Hs | exact IH].
      * constructor; [split; [exact Hk | exact Ht] | constructor].
    + exists slots'. split; [reflexivity|]. now rewrite <- app_assoc in Hs'.
Qed.

Lemma reduce_slots_settles slots kvs :
  Forall2 slot_settles slots kvs ->
  forall properties s,
    reduce_slots reduce slots properties s
    = ((fold_left (fun o '(k, v) => Obj.set k v o) kvs properties, [], None), s).
Proof.
  induction 1 as [|[[k h] t] [k' v] slots kvs [Hk Ht] _ IH];
    intros properties s; cbn [reduce_slots fold_left]; [reflexivity|].
  munfold. cbn in Hk, Ht. subst k'. rewrite (Ht s). apply IH.
Qed.

Lemma prop_absent k (o : Obj.t) : k ∉ Obj.keys o -> Obj.prop k o = VUndefined.
Proof. intros Hk. unfold Obj.prop. now rewrite (proj2 (Obj_get_None k o) Hk). Qed.

Lemma decodes_to_object wire fs :
  Forall2 (fun e kv => toCamelCase (fst e) = fst kv /\
                       decodes_to (snd e) (snd kv)) wire fs ->
  Forall (fun e => marker (fst e) = false) wire ->
  NoDup (Obj.keys fs) ->
  decodes_to (VObj wire) (VObj fs).
Proof.
  intros Hall Hmark Hnd s.
  destruct (decode_entries_settles false "" _ _ Hall
              ltac:(apply Forall_forall; reflexivity) [] [] [] s
              ltac:(constructor))
    as (slots & Hdec & Hslots).
  assert (Habsent : forall k, marker k = true -> Obj.prop k wire = VUndefined).
  { intros k Hk. apply prop_absent. intros Hin.
    apply list_elem_of_fmap in Hin as ([k' x] & -> & Hin).
    rewrite Forall_forall in Hmark. specialize (Hmark _ Hin). cbn in *.
    congruence. }
  exists (TPlain [] slots). split.
  - cbn [fromPotionJSON].
    rewrite !Habsent by reflexivity. cbn [as_string].
    munfold. destruct wire as [|? [|? ?]]; cbv beta; now rewrite Hdec.
  - intros s'. cbn [reduce]. munfold.
    rewrite (reduce_slots_settles _ _ Hslots). cbn [held_slots existsb map].
    rewrite orphan_nil. cbn [app fold_left].
    change (fold_left _ fs []) with (pairsToObject fs).
    unfold mapToObject. rewrite (pairsToObject_NoDup fs Hnd).
    now rewrite (pairsToObject_NoDup fs Hnd).
Qed.

Lemma plain_decodes (v : value) :
  plain v = true ->
  forall f its, decodes_to (toPotionJSON_fuel cfg f its v) v.
Proof.
  induction v as [v Hv | xs IH | fs IH] using value_nested_ind; intros Hp f its.
  - destruct v; try contradiction; try discriminate.
    6:{ rewrite toPotionJSON_fuel_date. intros st. eexists.
        split; [reflexivity|]. intros st'. cbn in Hp.
        apply same_number_eq in Hp. cbn. now rewrite Hp. }
    all: intros st; eexists; (split; [destruct f; reflexivity|]);
      intros st'; reflexivity.
  - rewrite toPotionJSON_fuel_arr. apply decodes_to_array.
    cbn in Hp. rewrite forallb_forall in Hp.
    clear -IH Hp. induction xs as [|x xs IHxs]; cbn; constructor.
    + apply Forall_inv in IH. apply IH. apply Hp. now left.
    + apply IHxs; [now apply Forall_inv_tail in IH|].
      intros y Hy. apply Hp. now right.
  - rewrite toPotionJSON_fuel_obj. cbn in Hp.
    apply andb_prop in Hp as [Hp Hd]. rewrite forallb_forall in Hp.
    apply distinct_NoDup in Hd.
    set (wire := map (fun '(k, v) =>
                        (toSnakeCase k, toPotionJSON_fuel cfg f its v)) fs).
    assert (Hkeys : Obj.keys wire = map (fun kv => toSnakeCase (fst kv)) fs).
    { unfold wire, Obj.keys. rewrite map_map. apply map_ext. now intros []. }
    unfold omap. fold wire.
    rewrite pairsToObject_NoDup by (now rewrite Hkeys).
    apply decodes_to_object.
    + unfold wire. clear -IH Hp. induction fs as [|[k x] fs IHfs]; cbn;
        constructor.
      * specialize (Hp (k, x) (or_introl eq_refl)). cbn in Hp.
        apply andb_prop in Hp as [[Hk _]%andb_prop Hx]. cbn. split.
        -- now apply String.eqb_eq.
        -- apply Forall_inv in IH. now apply IH.
      * apply IHfs; [now apply Forall_inv_tail in IH|].
        intros y Hy. apply Hp. now right.
    + unfold wire. apply Forall_forall. intros e Hin.
      apply list_elem_of_fmap in Hin as ([k x] & -> & Hin). cbn.
      apply list_elem_of_In in Hin. specialize (Hp _ Hin). cbn in Hp.
      apply andb_prop in Hp as [[_ Hm]%andb_prop _].
      now apply negb_true_iff.
    + apply (NoDup_fmap_1 toSnakeCase). unfold Obj.keys.
      replace (toSnakeCase <$> map fst fs)
        with (map (fun kv => toSnakeCase (fst kv)) fs); [exact Hd|].
      symmetry. apply map_map.
Qed.

Lemma same_number_refl n : same_number n n = true.
Proof. destruct n as [z| |b]; cbn; [apply Z.eqb_refl | reflexivity | now destruct b]. Qed.

Lemma NoDup_distinct ks : NoDup ks -> distinct ks = true.
Proof.
  induction 1 as [|k ks Hk _ IH]; cbn; [reflexivity|].
  rewrite IH, andb_true_r. apply negb_true_iff.
  destruct (existsb (String.eqb k) ks) eqn:E; [|reflexivity].
  apply existsb_exists in E as (k' & Hin & ->%String.eqb_eq).
  now apply list_elem_of_In in Hin.
Qed.

Lemma get_of_entry k x (fs : Obj.t) :
  NoDup (Obj.keys fs) -> (k, x) ∈ fs -> Obj.get k fs = Some x.
Proof.
  induction fs as [|[k0 x0] fs IH]; intros Hnd Hin;
    [now apply elem_of_nil in Hin|].
  cbn in Hnd. apply NoDup_cons in Hnd as [Hk0 Hnd]. cbn.
  apply elem_of_cons in Hin as [[= -> ->]|Hin].
  - now rewrite String.eqb_refl.
  - destruct (String.eqb_spec k k0) as [->|_]; [|now apply IH].
    destruct Hk0. apply list_elem_of_fmap. now exists (k0, x).
Qed.

Lemma plain_keys (fs : Obj.t) : plain (VObj fs) = true -> NoDup (Obj.keys fs).
Proof.
  cbn. intros [_ Hd%distinct_NoDup]%andb_prop.
  apply (NoDup_fmap_1 toSnakeCase). unfold Obj.keys.
  replace (toSnakeCase <$> map fst fs)
    with (map (fun kv => toSnakeCase (fst kv)) fs); [exact Hd|].
  symmetry. apply map_map.
Qed.

Lemma same_data_refl (v : value) : plain v = true -> same_data v v = true.
Proof.
  induction v as [v Hv | xs IH | fs IH] using value_nested_ind; intros Hp.
  - destruct v; try contradiction; try discriminate; cbn;
      auto using same_number_refl, String.eqb_refl.
    now destruct b.
  - cbn in Hp. cbn [same_data]. induction xs as [|x xs IHxs]; [reflexivity|].
    cbn in Hp. apply andb_prop in Hp as [Hx Hxs].
    apply Forall_cons in IH as [IHx IH].
    rewrite (IHx Hx). cbn [andb]. now apply IHxs.
  - pose proof (plain_keys fs Hp) as Hnd. cbn [same_data].
    rewrite Nat.eqb_refl, (NoDup_distinct _ Hnd). cbn [andb].
    apply forallb_forall. intros [k x] Hin.
    rewrite (get_of_entry k x fs Hnd) by (now apply list_elem_of_In).
    rewrite Forall_forall in IH. apply (IH (k, x)); [now apply list_elem_of_In|].
    cbn in Hp. apply andb_prop in Hp as [Hp _]. rewrite forallb_forall in Hp.
    specialize (Hp _ Hin). cbn in Hp. now apply andb_prop in Hp as [_ Hx].
Qed.

(** X3.  Plain data survives the trip to the wire and back: the decode of
    what [toPotionJSON] makes of it calls nothing, changes nothing, and is
    fulfilled in its first round with the same data, the keys of an object
    in whatever order. *)
Theorem plain_data_round_trip (v : value) (s : Potion) :
  plain v = true ->
  let '(t, s1) := fromPotionJSON cfg (toPotionJSON cfg s v) s in
  s1 = s /\
  exists v', reduce t s = (TSettled (Fulfilled v'), s) /\
             same_data v v' = true.
Proof.
  intros Hp. unfold toPotionJSON.
  destruct (plain_decodes v Hp (length (items s)) (items s) s) as (t & -> & Ht).
  split; [reflexivity|]. exists v. split; [apply Ht | now apply same_data_refl].
Qed.

End RoundTrip.

(** ** References *)

Section References.
Context `{NamingCodec} `{Runtime}.
Variable cfg : PotionOptions.

Lemma fromPotionJSON_ref (wire : string) (parsed : ParsedURI) (s : Potion) :
  wire <> "#" ->
  parseURI (prefix cfg) (resources cfg) wire = Return parsed ->
  fromPotionJSON cfg (VObj [("$ref", VStr wire)]) s
  = fetch_reference cfg (p_uri parsed) s.
Proof.
  intros Hne Hparse. cbn.
  destruct (String.eqb_spec wire "#") as [|_]; [contradiction|].
  now rewrite Hparse.
Qed.

(** The fetch of a reference that the cache answers. *)
Lemma fetch_reference_cached (uri : string) (item : loc) (s : Potion) :
  cache s !! uri = Some item ->
  fetch_reference cfg uri s =
  (TFetch (length (promises s)),
   {| cache := cache s; pendingGETRequests := pendingGETRequests s;
      items := items s;
      options := options s ++ [reference_options; reference_options];
      searches := searches s; cursors := cursors s;
      promises := promises s ++ [Settled (Fulfilled (VItem item))];
      requests := requests s; jobs := jobs s; background := background s |}).
Proof.
  intros Hc. unfold fetch_reference. munfold. cbv beta iota zeta.
  rewrite fetch_plain_eq
    by (cbn [read_options]; fields; now rewrite lookup_last).
  cbv zeta. cbn [read_options]. fields. rewrite lookup_last.
  cbn [default from_option id reference_options o_method o_search o_cache
       is_GET no_search andb String.eqb Ascii.eqb Bool.eqb].
  rewrite Hc. rewrite <- app_assoc. reflexivity.
Qed.

(** The fetch of a reference that the cache does not answer. *)
Lemma fetch_reference_uncached (uri : string) (s : Potion) :
  cache s !! uri = None ->
  fetch_reference cfg uri s =
  let s0 := upd_options (fun l => (l ++ [reference_options])%list) s in
  match pendingGETRequests s !! add_prefix cfg uri with
  | Some request =>
      (TFetch request,
       upd_options (fun os => (os ++ [reference_options])%list) s0)
  | None =>
      (TFetch (S (length (promises s))),
       {| cache := cache s;
          pendingGETRequests :=
            <[add_prefix cfg uri := length (promises s)]> (pendingGETRequests s);
          items := items s;
          options := options s ++ [reference_options; reference_options];
          searches := searches s; cursors := cursors s;
          promises := promises s ++ [Pending; Pending];
          requests := requests s ++
            [request_of cfg s0 uri reference_options VUndefined];
          jobs := jobs s ++
            [job_of cfg s0 uri reference_options None
               (Some (S (length (promises s))))];
          background := background s |})
  end.
Proof.
  intros Hc. unfold fetch_reference. munfold. cbv beta iota zeta.
  rewrite (fetch_uncached_GET_eq cfg uri (length (options s)) reference_options);
    [| fields; apply lookup_last | reflexivity.. | intros _; exact Hc].
  fields.
  destruct (pendingGETRequests s !! add_prefix cfg uri); [reflexivity|].
  rewrite <- app_assoc. reflexivity.
Qed.

Lemma strip_prefix_app (p u : string) : strip_prefix p (p +:+ u) = u.
Proof.
  unfold strip_prefix.
  rewrite (proj2 (indexOf_zero (p +:+ u) p) (prefix_app p u)).
  cbn [Z.eqb]. apply substring_app.
Qed.

Lemma scan_registered (rp rest : string) (r : resource)
    (rs : list (string * resource)) :
  In (rp, r) rs ->
  exists p, scan_resources (rp +:+ "/" +:+ rest) rs = Some p /\
            p_uri p = rp +:+ "/" +:+ rest.
Proof.
  intros Hin. pose proof (scan_resources_spec (rp +:+ "/" +:+ rest) rs) as Hs.
  destruct (scan_resources (rp +:+ "/" +:+ rest) rs) as [p|].
  - exists p. split; [reflexivity | apply Hs].
  - exfalso. rewrite Forall_forall in Hs.
    apply (Hs (rp, r)); [now apply list_elem_of_In|]. now exists rest.
Qed.

Lemma toPotionJSON_fuel_item f its (l : loc) (it : Item) (uri : string) :
  its !! l = Some it -> item_uri it = Some uri ->
  toPotionJSON_fuel cfg f its (VItem l)
  = VObj [("$ref", VStr (prefix cfg +:+ uri))].
Proof.
  intros Hit Huri.
  assert (Heq : toPotionJSON_fuel cfg f its (VItem l) =
                match its !! l with
                | Some it =>
                    match item_uri it with
                    | Some uri => VObj [("$ref", VStr (prefix cfg +:+ uri))]
                    | None =>
                        match f with
                        | O => VUndefined
                        | S f' =>
                            VObj (omap (fun k v =>
                                    (toSnakeCase k,
                                     toPotionJSON_fuel cfg f' its v))
                                    (i_props it))
                        end
                    end
                | None => VUndefined
                end) by (destruct f; reflexivity).
  now rewrite Heq, Hit, Huri.
Qed.

(** X4.  An item travels as a reference and comes back as itself: the
    outbound transform turns an item that has a URI into [{$ref: prefix +
    uri}] and sends none of its properties; when the item is the entry of
    the cache under that URI, the decode of this reference calls nothing
    and its first round resolves to the very same item. *)
Theorem item_reference_round_trip (l : loc) (it : Item)
    (uri rp rest : string) (r : resource) (s : Potion) :
  items s !! l = Some it ->
  item_uri it = Some uri ->
  cache s !! uri = Some l ->
  uri = rp +:+ "/" +:+ rest ->
  In (rp, r) (resources cfg) ->
  decodeURIComponent (prefix cfg +:+ uri) = Some (prefix cfg +:+ uri) ->
  toPotionJSON cfg s (VItem l) = VObj [("$ref", VStr (prefix cfg +:+ uri))] /\
  let '(t, s1) := fromPotionJSON cfg (toPotionJSON cfg s (VItem l)) s in
  requests s1 = requests s /\
  pendingGETRequests s1 = pendingGETRequests s /\
  cache s1 = cache s /\
  items s1 = items s /\
  reduce t s1 = (TSettled (Fulfilled (VItem l)), s1).
Proof.
  intros Hit Huri Hc Hu Hreg Hdec.
  assert (Henc : toPotionJSON cfg s (VItem l)
                 = VObj [("$ref", VStr (prefix cfg +:+ uri))])
    by (unfold toPotionJSON; now apply toPotionJSON_fuel_item with (it := it)).
  split; [exact Henc|]. rewrite Henc.
  destruct (scan_registered rp rest r (resources cfg) Hreg) as (p & Hscan & Hp).
  assert (Hparse : parseURI (prefix cfg) (resources cfg) (prefix cfg +:+ uri)
                   = Return p).
  { unfold parseURI. rewrite Hdec, strip_prefix_app, Hu, Hscan. reflexivity. }
  assert (Hne : prefix cfg +:+ uri <> "#").
  { intros Heq. pose proof (f_equal String.length Heq) as Hlen.
    rewrite Hu, !length_append in Hlen. cbn in Hlen.
    destruct (prefix cfg) as [|? ?]; [|cbn in Hlen; lia].
    destruct rp as [|? ?]; [|cbn in Hlen; lia].
    rewrite Hu in Heq. cbn in Heq. discriminate. }
  rewrite (fromPotionJSON_ref _ p s Hne Hparse).
  rewrite Hp, <- Hu. rewrite (fetch_reference_cached uri l s Hc).
  repeat split. cbn [reduce]. munfold. fields. now rewrite lookup_last.
Qed.

(** X5.  References to one resource share one request: when a payload is an
    array of references to the same resource, which is neither cached nor
    being fetched, the decode calls the transport once, with a GET of the
    host, the prefix and the local URI and with the [cache] option; every
    reference after the first waits for the request that the first one has
    put into the table of pending requests. *)
Theorem references_share_one_request (wire : string) (parsed : ParsedURI)
    (n : nat) (s : Potion) :
  wire <> "#" ->
  parseURI (prefix cfg) (resources cfg) wire = Return parsed ->
  cache s !! p_uri parsed = None ->
  pendingGETRequests s !! add_prefix cfg (p_uri parsed) = None ->
  let ref := VObj [("$ref", VStr wire)] in
  let request := length (promises s) in
  let '(t, s1) := fromPotionJSON cfg (VArr (repeat ref (S n))) s in
  t = TAll (TFetch (S request) :: repeat (TFetch request) n) /\
  (exists q, requests s1 = (requests s ++ [q])%list /\
             q_url q = host cfg +:+ add_prefix cfg (p_uri parsed) /\
             q_method q = Some "GET" /\ q_cache q = true) /\
  pendingGETRequests s1 !! add_prefix cfg (p_uri parsed) = Some request /\
  promises s1 !! request = Some Pending /\
  cache s1 = cache s.
Proof.
  intros Hne Hparse Hc Hpend ref request.
  assert (Hrest : forall m sa,
            cache sa !! p_uri parsed = None ->
            pendingGETRequests sa !! add_prefix cfg (p_uri parsed)
              = Some request ->
            exists sb,
              decode_each (fromPotionJSON cfg) (repeat ref m) sa
                = (repeat (TFetch request) m, sb) /\
              requests sb = requests sa /\
              pendingGETRequests sb = pendingGETRequests sa /\
              promises sb = promises sa /\
              cache sb = cache sa).
  { induction m as [|m IH]; intros sa Hca Hpa; cbn [repeat decode_each].
    - exists sa. repeat split.
    - munfold. unfold ref at 1.
      rewrite (fromPotionJSON_ref _ parsed sa Hne Hparse).
      rewrite (fetch_reference_uncached _ sa Hca). cbv zeta. rewrite Hpa.
      match goal with
      | |- context [decode_each _ _ ?st] =>
          destruct (IH st) as (sb & -> & Hr & Hp & Hpr & Hcb);
            [exact Hca | exact Hpa |]
      end.
      exists sb. repeat split; assumption. }
  cbn [fromPotionJSON repeat decode_each]. munfold. unfold ref at 1.
  rewrite (fromPotionJSON_ref _ parsed s Hne Hparse).
  rewrite (fetch_reference_uncached _ s Hc). cbv zeta. rewrite Hpend.
  match goal with
  | |- context [decode_each _ _ ?st] =>
      destruct (Hrest n st) as (sb & -> & Hr & Hp & Hpr & Hcb);
        [exact Hc | fields; apply lookup_insert_eq |]
  end.
  rewrite Hr, Hp, Hpr, Hcb. fields. rewrite lookup_insert_eq.
  repeat split.
  - eexists. repeat split.
  - change [Pending; Pending] with ([Pending] ++ [Pending])%list.
    rewrite app_assoc. apply (lookup_old _ [Pending]). apply lookup_last.
Qed.

End References.

(** ** Queries: failure and the defaults of pagination *)

Section Queries.
Context `{NamingCodec} `{Runtime}.
Variable cfg : PotionOptions.

(** X6.  The failure of a query is not normalised: when the transport
    rejects a request that [fetch] has not put into the table of pending
    requests (the method is not GET, or there are search parameters or
    pagination), the promise of the caller is rejected with the very reason
    of the transport, whatever it is, and the table is not touched. *)
Theorem query_failure_reaches_caller_raw (uri : string)
    (fetchOptions pagination : option loc) (s : Potion) (es : list step)
    (err : reason) :
  let fo := read_options s fetchOptions in
  o_method fo <> Some "GET" \/ o_search fo <> None \/ o_paginate fo = true ->
  let rid := length (jobs s) in
  let '(p, s1) := fetch cfg uri fetchOptions pagination s in
  let s2 := run cfg es s1 in
  stage_of s2 rid = Some AwaitTransport ->
  let s3 := snd (respond cfg rid (Reject err) s2) in
  promises s3 !! p = Some (Settled (Rejected err)) /\
  stage_of s3 rid = Some Finished /\
  pendingGETRequests s3 = pendingGETRequests s2 /\
  requests s3 = requests s2.
Proof.
  intros fo Hq rid.
  assert (Hf : exists s1 j,
            fetch cfg uri fetchOptions pagination s = (length (promises s), s1) /\
            jobs s1 !! rid = Some j /\ j_request j = length (promises s) /\
            j_registered j = None /\
            (length (promises s) < length (promises s1))%nat).
  { destruct (o_paginate fo) eqn:Hpag.
    - rewrite fetch_paginate_eq by exact Hpag. cbv zeta.
      eexists _, _. split; [reflexivity|]. fields.
      split; [apply lookup_last|]. repeat split. rewrite length_app. cbn. lia.
    - rewrite fetch_plain_eq by exact Hpag. cbv zeta. fold fo.
      replace (is_GET (o_method fo) && no_search (o_search fo)) with false.
      + eexists _, _. split; [reflexivity|]. fields.
        split; [apply lookup_last|]. repeat split. rewrite length_app. cbn. lia.
      + symmetry. apply andb_false_iff.
        destruct Hq as [Hm|[Hs|Hp]]; [left | right | congruence].
        * destruct (is_GET (o_method fo)) eqn:E; [|reflexivity].
          now apply is_GET_true in E.
        * destruct (o_search fo); [reflexivity | congruence]. }
  destruct Hf as (s1 & j & -> & Hj & Hreq & Hreg & Hlen).
  intros s2 Hstage s3.
  pose proof (run_stable cfg es s1) as Hst. fold s2 in Hst.
  destruct (st_jobs _ _ Hst rid j Hj) as (j' & Hj' & Hstatic).
  pose proof (st_promises _ _ Hst) as Hlen'.
  unfold static in Hstatic. injection Hstatic as _ _ _ _ Hreq' Hreg'.
  unfold stage_of in Hstage. rewrite Hj' in Hstage. cbn in Hstage.
  injection Hstage as Hstage.
  subst s3. rewrite respond_eq, Hj', Hstage.
  unfold finish_request, settle, set_stage, stage_of.
  rewrite Hreg', Hreg. munfold. cbn. rewrite Hj'.
  rewrite Hreq', Hreq.
  split; [apply list_lookup_insert_eq; lia|].
  split; [|split; reflexivity].
  rewrite list_lookup_insert_eq by (now apply lookup_lt_Some in Hj').
  reflexivity.
Qed.

(** X7.  The defaults of pagination give way to the caller: the search
    object of a paginated request holds the [page] and the [perPage] of the
    caller when the caller gave them, [1] and [25] otherwise, and every
    other search parameter of the caller as it is; this object, in wire
    form, is the search of the one request made. *)
Theorem fetch_paginate_defaults (uri : string)
    (fetchOptions pagination : option loc) (s : Potion) :
  let fo := read_options s fetchOptions in
  let caller := read_search s (o_search fo) in
  o_paginate fo = true ->
  NoDup (Obj.keys caller) ->
  let s' := snd (fetch cfg uri fetchOptions pagination s) in
  exists so q,
    searches s' = (searches s ++ [so])%list /\
    requests s' = (requests s ++ [q])%list /\
    q_search q = toPotionJSON cfg s (VObj so) /\
    Obj.get "page" so = Some (default (VNum (Int 1)) (Obj.get "page" caller)) /\
    Obj.get "perPage" so
      = Some (default (VNum (Int 25)) (Obj.get "perPage" caller)) /\
    (forall k, k <> "page" -> k <> "perPage" ->
               Obj.get k so = Obj.get k caller) /\
    NoDup (Obj.keys so).
Proof.
  intros fo caller Hpag Hnd s'. subst s'.
  rewrite fetch_paginate_eq by exact Hpag. cbv zeta. fields.
  fold fo. fold caller.
  eexists _, _. split; [reflexivity|]. split; [reflexivity|].
  split; [reflexivity|].
  split; [|split; [|split]].
  - rewrite Obj_assign_get by exact Hnd.
    now destruct (Obj.get "page" caller).
  - rewrite Obj_assign_get by exact Hnd.
    now destruct (Obj.get "perPage" caller).
  - intros k Hk1 Hk2. rewrite Obj_assign_get by exact Hnd.
    destruct (Obj.get k caller); [reflexivity|]. cbn.
    destruct (String.eqb_spec k "page"); [contradiction|].
    destruct (String.eqb_spec k "perPage"); [contradiction|]. reflexivity.
  - apply Obj_assign_NoDup. cbn. apply NoDup_cons. split.
    + intros Hin%list_elem_of_singleton. discriminate.
    + apply NoDup_singleton.
Qed.

End Queries.

(** ** The first page *)

Section FirstPage.
Context `{NamingCodec} `{Runtime}.
Variable cfg : PotionOptions.


End FirstPage.

(** ** Turning the page *)

Section PageTurn.
Context `{NamingCodec} `{Runtime}.
Variable cfg : PotionOptions.


End PageTurn.

(** ** Iteration over a cursor *)

Module IteratorResult.
Record t := { done : bool; value : option value }.
End IteratorResult.

Definition with_pointer (pointer : nat) (cur : Pagination) : Pagination :=
  {| _uri := _uri cur; _options := _options cur; _pointer := pointer;
     _items := _items cur; _page := _page cur; _perPage := _perPage cur;
     _total := _total cur |}.

(** [next()] of [Pagination]:
    [if (this._pointer < this._items.length) return {done: false, value:
    this._items[this._pointer++]}; else { this._pointer = 0; return {done:
    true}; }]. *)
Definition next (cur : Pagination) : IteratorResult.t * Pagination :=
  if (_pointer cur <? length (_items cur))%nat
  then ({| IteratorResult.done := false;
           IteratorResult.value := Some (default VUndefined
                                           (_items cur !! _pointer cur)) |},
        with_pointer (S (_pointer cur)) cur)
  else ({| IteratorResult.done := true; IteratorResult.value := None |},
        with_pointer 0 cur).

(** [toArray()] and the getter [length]. *)
Definition toArray (cur : Pagination) : list value := _items cur.
Definition Pagination_length (cur : Pagination) : nat := length (_items cur).

(** What a loop [for (const item of pagination)] sees: the values of the
    calls of [next] up to the first result that is [done]; [fuel] bounds the
    number of calls. *)
Fixpoint for_of (fuel : nat) (cur : Pagination) : list value * Pagination :=
  match fuel with
  | O => ([], cur)
  | S fuel' =>
      let '(r, cur') := next cur in
      if IteratorResult.done r then ([], cur')
      else
        let '(vs, cur'') := for_of fuel' cur' in
        (default VUndefined (IteratorResult.value r) :: vs, cur'')
  end.

Section Iteration.

Lemma for_of_drop (fuel : nat) (cur : Pagination) :
  (length (_items cur) - _pointer cur < fuel)%nat ->
  for_of fuel cur = (drop (_pointer cur) (_items cur), with_pointer 0 cur).
Proof.
  revert cur. induction fuel as [|fuel IH]; intros cur Hfuel; [lia|].
  cbn [for_of]. unfold next.
  destruct (Nat.ltb_spec (_pointer cur) (length (_items cur))) as [Hlt|Hge].
  - cbn [IteratorResult.done IteratorResult.value].
    rewrite IH by (unfold with_pointer; cbn [_pointer _items]; lia).
    cbn [with_pointer _pointer _items].
    destruct (lookup_lt_is_Some_2 _ _ Hlt) as [x Hx]. rewrite Hx.
    cbn [default from_option id]. rewrite (drop_S _ _ _ Hx). reflexivity.
  - cbn [IteratorResult.done]. now rewrite drop_ge by lia.
Qed.

(** X9.  A cursor can be iterated again and again: a loop over a cursor
    whose pointer is at the start sees its items, all of them and in their
    order, and leaves the pointer at the start, so that a second loop sees
    the same; the loop is over after one call of [next] more than there are
    items.  A loop that starts further on sees the rest. *)
Theorem next_iterates_and_rewinds (cur : Pagination) :
  let n := S (length (_items cur)) in
  for_of n cur = (drop (_pointer cur) (_items cur), with_pointer 0 cur) /\
  for_of n (snd (for_of n cur)) = (toArray cur, with_pointer 0 cur) /\
  (_pointer cur = 0%nat -> for_of n cur = (toArray cur, cur)).
Proof.
  intros n. subst n. split; [|split].
  - apply for_of_drop. lia.
  - rewrite (for_of_drop _ cur) by lia. cbn [snd].
    rewrite for_of_drop by (unfold with_pointer; cbn [_pointer _items]; lia).
    reflexivity.
  - intros Hp. rewrite for_of_drop by lia. rewrite Hp.
    destruct cur. cbn in *. now subst.
Qed.

End Iteration.

(** ** What an item keeps *)

(** [item_grows it it']: the same type, and no property gone. *)
Definition item_grows (it it' : Item) : Prop :=
  i_resource it' = i_resource it /\
  forall k, k ∈ Obj.keys (i_props it) -> k ∈ Obj.keys (i_props it').

Definition items_grow (s s' : Potion) : Prop :=
  forall l it, items s !! l = Some it ->
    exists it', items s' !! l = Some it' /\ item_grows it it'.

Section Growth.
Context `{NamingCodec} `{Runtime}.
Variable cfg : PotionOptions.

Lemma items_grow_refl s : items_grow s s.
Proof. intros l it Hl. exists it. now split. Qed.

Lemma items_grow_trans a b c :
  items_grow a b -> items_grow b c -> items_grow a c.
Proof.
  intros Hab Hbc l it Hl. destruct (Hab l it Hl) as (it1 & H1 & E1 & K1).
  destruct (Hbc l it1 H1) as (it2 & H2 & E2 & K2).
  exists it2. split; [exact H2|]. split; [congruence | auto].
Qed.

Lemma items_grow_same s s' : items s' = items s -> items_grow s s'.
Proof. intros E l it Hl. exists it. rewrite E. now split. Qed.

Lemma keys_set_grow k k' v (o : Obj.t) :
  k ∈ Obj.keys o -> k ∈ Obj.keys (Obj.set k' v o).
Proof.
  intros Hk. rewrite Obj_keys_set. destruct (bool_decide _); [exact Hk|].
  apply elem_of_app. now left.
Qed.

Lemma keys_assign_grow k (target source : Obj.t) :
  k ∈ Obj.keys target -> k ∈ Obj.keys (Obj.assign target source).
Proof.
  unfold Obj.assign. revert target.
  induction source as [|[k0 v0] source IH]; intros target Hk; cbn; [exact Hk|].
  apply IH. now apply keys_set_grow.
Qed.

Lemma fetch_items uri fetchOptions pagination s :
  items (snd (fetch cfg uri fetchOptions pagination s)) = items s.
Proof.
  destruct (o_paginate (read_options s fetchOptions)) eqn:Hpag.
  - now rewrite fetch_paginate_eq.
  - rewrite fetch_plain_eq by exact Hpag. cbv zeta.
    destruct (is_GET _ && no_search _); [|reflexivity].
    destruct (if o_cache _ then _ else _); [reflexivity|].
    destruct (pendingGETRequests _ !! _); reflexivity.
Qed.

Lemma merge_grows uri r properties s :
  items_grow s (snd (merge uri r properties s)).
Proof.
  unfold merge. munfold. cbn. destruct (cache s !! uri) as [item|]; cbn.
  - upd_unfold. intros l it Hl.
    destruct (items s !! item) as [it0|] eqn:Hit; [|exists it; now split].
    destruct (decide (item = l)) as [->|Hne].
    + exists {| i_resource := i_resource it0;
                i_props := Obj.assign (i_props it0) (mapToObject properties) |}.
      fields.
      split; [apply list_lookup_insert_eq; now apply lookup_lt_Some in Hit|].
      assert (it0 = it) as -> by congruence.
      split; [reflexivity|]. intros k. apply keys_assign_grow.
    + exists it. fields. rewrite list_lookup_insert_ne by exact Hne. now split.
  - upd_unfold. intros l it Hl. exists it. split; [now apply lookup_old|].
    now split.
Qed.

Lemma fromPotionJSON_grows json s :
  items_grow s (snd (fromPotionJSON cfg json s)).
Proof.
  intros l it Hl. exists it. split; [|now split].
  now apply (fromPotionJSON_items_kept cfg).
Qed.

Lemma reduce_grows t s : items_grow s (snd (reduce t s)).
Proof.
  apply (reduce_preserved items_grow items_grow_refl items_grow_trans).
  - intros ts s0. now apply items_grow_same.
  - apply merge_grows.
Qed.

Lemma finish_request_items rid j o s :
  items (snd (finish_request rid j o s)) = items s.
Proof.
  unfold finish_request, settle, set_stage. munfold.
  destruct (j_registered j), o; reflexivity.
Qed.

Lemma paginate_handler_items j d s :
  items (snd (paginate_handler j d s)) = items s.
Proof.
  unfold paginate_handler. destruct (j_paginate j); [|reflexivity].
  munfold. destruct (if truthy _ then _ else _) as [count|e]; [|reflexivity].
  destruct (j_pagination j) as [c|].
  - unfold update. munfold.
    destruct (cursors s !! c), (spread d); reflexivity.
  - unfold new_Pagination. munfold. destruct (spread d); [|reflexivity].
    destruct (o_search _); reflexivity.
Qed.

Lemma do_step_grows e s : items_grow s (snd (do_step cfg e s)).
Proof.
  destruct e as [uri fo pg | rid a | rid | | c page]; cbn [do_step]; munfold.
  - pose proof (fetch_items uri fo pg s) as Hf.
    destruct (fetch cfg uri fo pg s). now apply items_grow_same.
  - rewrite respond_eq. destruct (jobs s !! rid) as [j|];
      [|apply items_grow_refl].
    destruct (j_stage j), a as [response|e]; try apply items_grow_refl.
    + pose proof (fromPotionJSON_grows (data response) s) as Hg.
      destruct (fromPotionJSON cfg (data response) s) as [t s1].
      eapply items_grow_trans; [exact Hg|]. now apply items_grow_same.
    + apply items_grow_same, finish_request_items.
  - rewrite advance_eq. destruct (jobs s !! rid) as [j|];
      [|apply items_grow_refl].
    destruct (j_stage j) as [|t|]; try apply items_grow_refl.
    pose proof (reduce_grows t s) as Hg.
    destruct (reduce t s) as [t' sr]. cbn [snd] in Hg.
    eapply items_grow_trans; [exact Hg|].
    destruct t' as [[json|e]| | | |]; try now apply items_grow_same.
    + pose proof (paginate_handler_items j json sr) as Hp.
      destruct (paginate_handler j json sr) as [o s2]. cbn [snd] in Hp.
      apply items_grow_same. now rewrite finish_request_items.
    + apply items_grow_same, finish_request_items.
  - unfold advance_background. munfold. cbv beta iota zeta.
    match goal with
    | |- context [reduce_each reduce ?ts ?st] =>
        pose proof (reduce_each_preserved items_grow items_grow_refl
                      items_grow_trans reduce ts
                      (proj2 (Forall_forall _ _) (fun t _ => reduce_grows t))
                      st) as Hg;
        destruct (reduce_each reduce ts st) as [ts' sb]
    end.
    cbn [snd] in Hg. eapply items_grow_trans; [|now apply items_grow_same].
    eapply items_grow_trans; [|exact Hg]. now apply items_grow_same.
  - unfold changePageTo. munfold. cbv beta iota zeta.
    destruct (cursors s !! c) as [cur|]; [|apply items_grow_refl].
    destruct (o_search _); [|apply items_grow_refl].
    match goal with
    | |- context [fetch cfg ?u ?fo ?pg ?st] =>
        pose proof (fetch_items u fo pg st) as Hf;
        destruct (fetch cfg u fo pg st) as [p sf]
    end.
    apply items_grow_same. exact Hf.
Qed.

(** X10.  Identity is permanent.  Whatever the client does (fetches, answers
    of the transport, rounds of decodes, changes of page), an entry of the
    cache is never removed and never bound to another item, and the item
    keeps its type and every property it has: properties are added and
    overwritten, never deleted. *)
Theorem identity_is_permanent (es : list step) (s : Potion) (uri : string)
    (l : loc) (it : Item) :
  cache s !! uri = Some l ->
  items s !! l = Some it ->
  let s' := run cfg es s in
  cache s' !! uri = Some l /\
  exists it',
    items s' !! l = Some it' /\
    i_resource it' = i_resource it /\
    forall k, k ∈ Obj.keys (i_props it) -> k ∈ Obj.keys (i_props it').
Proof.
  intros Hc Hl s'. split.
  - apply (st_cache _ _ (run_stable cfg es s)). exact Hc.
  - subst s'. revert s it Hl Hc.
    induction es as [|e es IH]; intros s it Hl Hc; cbn [run fold_left].
    + exists it. now split.
    + destruct (do_step_grows e s l it Hl) as (it1 & H1 & E1 & K1).
      destruct (IH _ it1 H1) as (it2 & H2 & E2 & K2).
      * apply (st_cache _ _ (do_step_stable cfg e s)). exact Hc.
      * exists it2. split; [exact H2|]. split; [congruence | auto].
Qed.

(** X11.  The placeholder is there for everybody at once.  As soon as the
    decode of an object with [$uri] has started, and whatever happens after
    (before its properties are there, and also when the decode fails), a
    GET of its URI with the [cache] option and without search parameters
    calls nothing: it is answered with the item of the cache, which for a
    URI that was not cached is the item that the decode has just made with
    no property of the payload. *)
Theorem placeholder_answers_cached_fetch (fs : list (string * value))
    (wire_uri : string) (parsed : ParsedURI) (s : Potion) (es : list step)
    (l : loc) (fo : FetchOptions) :
  as_string (Obj.prop "$uri" fs) = Some wire_uri ->
  parseURI (prefix cfg) (resources cfg) wire_uri = Return parsed ->
  options s !! l = Some fo ->
  o_method fo = Some "GET" -> o_search fo = None -> o_paginate fo = false ->
  o_cache fo = true ->
  let s1 := snd (fromPotionJSON cfg (VObj fs) s) in
  let s2 := run cfg es s1 in
  let '(p, s3) := fetch cfg (p_uri parsed) (Some l) None s2 in
  exists item,
    cache s1 !! p_uri parsed = Some item /\
    (cache s !! p_uri parsed = None ->
     items s1 !! item = Some (construct (p_resource parsed) [])) /\
    promises s3 !! p = Some (Settled (Fulfilled (VItem item))) /\
    requests s3 = requests s2.
Proof.
  intros Huri Hparse Hl Hm Hs Hp Hc s1 s2.
  pose proof (fromPotionJSON_resource cfg fs wire_uri parsed s Huri Hparse) as Hr.
  subst s1 s2. destruct (fromPotionJSON cfg (VObj fs) s) as [t s1].
  cbn [snd]. destruct Hr as (Hst & _ & item & Hitem & Hnew).
  pose proof (run_stable cfg es s1) as Hrun.
  set (s2 := run cfg es s1) in *.
  assert (Hl2 : options s2 !! l = Some fo).
  { apply (st_options _ _ Hrun). now apply (st_options _ _ Hst). }
  assert (Hfo : read_options s2 (Some l) = fo) by (cbn; now rewrite Hl2).
  rewrite fetch_plain_eq by (rewrite Hfo; exact Hp). cbv zeta.
  rewrite Hfo, (proj2 (is_GET_true _) Hm), Hs, Hc. cbn [no_search andb].
  rewrite (st_cache _ _ Hrun _ _ Hitem).
  exists item. split; [exact Hitem|]. split.
  - intros Hnone. rewrite Hnone in Hnew. apply Hnew.
  - fields. split; [apply lookup_last | reflexivity].
Qed.

End Growth.

(** ** The decode of a resource *)

Section ResourcePayload.
Context `{NamingCodec} `{Runtime}.
Variable cfg : PotionOptions.

(** The wire form of the fields of a plain object. *)
Lemma plain_fields (fs : Obj.t) f its :
  plain (VObj fs) = true ->
  let wire := map (fun '(k, v) =>
                     (toSnakeCase k, toPotionJSON_fuel cfg f its v)) fs in
  omap (fun k v => (toSnakeCase k, toPotionJSON_fuel cfg f its v)) fs = wire /\
  Forall2 (fun e kv => toCamelCase (fst e) = fst kv /\
                       decodes_to cfg (snd e) (snd kv)) wire fs /\
  Forall (fun e => marker (fst e) = false) wire /\
  NoDup (Obj.keys fs).
Proof.
  intros Hp wire. cbn in Hp.
  apply andb_prop in Hp as [Hp Hd]. rewrite forallb_forall in Hp.
  apply distinct_NoDup in Hd.
  assert (Hkeys : Obj.keys wire = map (fun kv => toSnakeCase (fst kv)) fs).
  { unfold wire, Obj.keys. rewrite map_map. apply map_ext. now intros []. }
  split; [|split; [|split]].
  - unfold omap. fold wire. apply pairsToObject_NoDup. now rewrite Hkeys.
  - unfold wire. clear -Hp. induction fs as [|[k x] fs IHfs]; cbn; constructor.
    + specialize (Hp (k, x) (or_introl eq_refl)). cbn in Hp.
      apply andb_prop in Hp as [[Hk _]%andb_prop Hx]. cbn. split.
      * now apply String.eqb_eq.
      * now apply plain_decodes.
    + apply IHfs. intros y Hy. apply Hp. now right.
  - unfold wire. apply Forall_forall. intros e Hin.
    apply list_elem_of_fmap in Hin as ([k x] & -> & Hin). cbn.
    apply list_elem_of_In in Hin. specialize (Hp _ Hin). cbn in Hp.
    apply andb_prop in Hp as [[_ Hm]%andb_prop _].
    now apply negb_true_iff.
  - apply (NoDup_fmap_1 toSnakeCase). unfold Obj.keys.
    replace (toSnakeCase <$> map fst fs)
      with (map (fun kv => toSnakeCase (fst kv)) fs); [exact Hd|].
    symmetry. apply map_map.
Qed.

(** X12.  What the decode of a resource leaves in the item.  For a payload
    made of [$uri] and of plain fields, the decode is fulfilled in its first
    round, without any call of the transport, with the item of the cache
    under the local URI, a new item when there was none; the item then has
    [$uri], the local URI, [$id], the identifier read from the path, and the
    fields of the payload under their camel-case names (the same data, the
    keys of an object in whatever order), assigned over what it had before:
    a property that the payload does not mention keeps its value. *)
Theorem resource_payload_decodes (wire_uri : string) (parsed : ParsedURI)
    (fields : Obj.t) (s : Potion) :
  parseURI (prefix cfg) (resources cfg) wire_uri = Return parsed ->
  plain (VObj fields) = true ->
  Forall (fun kv => fst kv <> "$uri" /\ fst kv <> "$id") fields ->
  (forall i0, cache s !! p_uri parsed = Some i0 -> is_Some (items s !! i0)) ->
  let uri := p_uri parsed in
  let wire := omap (fun k v => (toSnakeCase k, toPotionJSON cfg s v)) fields in
  let decoded :=
    ("$uri", VStr uri) :: ("$id", id_of_params (p_params parsed)) :: fields in
  let '(t, s1) := fromPotionJSON cfg (VObj (("$uri", VStr wire_uri) :: wire)) s in
  let '(t', s2) := reduce t s1 in
  exists item old it,
    t' = TSettled (Fulfilled (VItem item)) /\
    cache s2 !! uri = Some item /\
    match cache s !! uri with
    | Some i0 => item = i0 /\ items s !! i0 = Some old
    | None => item = length (items s) /\ old = construct (p_resource parsed) []
    end /\
    items s2 !! item = Some it /\
    i_resource it = i_resource old /\
    (forall k, match Obj.get k decoded with
               | Some v => exists v', Obj.get k (i_props it) = Some v' /\
                                      same_data v v' = true
               | None => Obj.get k (i_props it) = Obj.get k (i_props old)
               end) /\
    requests s2 = requests s.
Proof.
  intros Hparse Hplain Hkeys Hwf uri wire decoded.
  destruct (plain_fields fields (length (items s)) (items s) Hplain)
    as (Hwire & Hall & Hmark & Hnd).
  cbv zeta in Hwire. unfold wire, toPotionJSON. rewrite Hwire.
  set (w := map _ fields) in *.
  assert (Hdnd : NoDup (Obj.keys decoded)).
  { unfold decoded. cbn. rewrite !NoDup_cons. rewrite Forall_forall in Hkeys.
    repeat split; [| |exact Hnd].
    - rewrite not_elem_of_cons. split; [discriminate|].
      intros ([k x] & Hk & Hin)%list_elem_of_fmap. cbn in Hk.
      destruct (Hkeys _ Hin) as [Hu _]. cbn in Hu. congruence.
    - intros ([k x] & Hk & Hin)%list_elem_of_fmap. cbn in Hk.
      destruct (Hkeys _ Hin) as [_ Hi]. cbn in Hi. congruence. }
  assert (Hsame : forall k v, Obj.get k decoded = Some v -> same_data v v = true).
  { intros k v. unfold decoded. cbn [Obj.get].
    destruct (String.eqb k "$uri"); [intros [= <-]; apply String.eqb_refl|].
    destruct (String.eqb k "$id").
    - intros [= <-]. unfold id_of_params.
      destruct (p_params parsed) as [|id ?]; [reflexivity|].
      destruct (JSString.test_digits id); cbn;
        [apply same_number_refl | apply String.eqb_refl].
    - intros Hg. apply same_data_refl.
      assert (Hin : (k, v) ∈ fields).
      { clear -Hg. induction fields as [|[k0 v0] fs IH]; [discriminate|].
        cbn in Hg. destruct (String.eqb_spec k k0) as [->|_].
        - injection Hg as ->. apply elem_of_cons. now left.
        - apply elem_of_cons. right. now apply IH. }
      cbn in Hplain. apply andb_prop in Hplain as [Hp _].
      rewrite forallb_forall in Hp.
      specialize (Hp _ (proj1 (list_elem_of_In _ _) Hin)). cbn in Hp.
      now apply andb_prop in Hp as [_ Hx]. }
  cbn [fromPotionJSON Obj.prop Obj.get String.eqb Ascii.eqb Bool.eqb as_string].
  rewrite Hparse. munfold. cbv beta iota zeta.
  (* the placeholder *)
  assert (Hph : exists s0 item old,
            cache_placeholder (p_uri parsed) (p_resource parsed) s = (tt, s0) /\
            cache s0 !! uri = Some item /\ items s0 !! item = Some old /\
            requests s0 = requests s /\
            match cache s !! uri with
            | Some i0 => item = i0 /\ items s !! i0 = Some old
            | None => item = length (items s) /\
                      old = construct (p_resource parsed) []
            end).
  { unfold cache_placeholder. munfold. fold uri.
    destruct (cache s !! uri) as [i0|] eqn:Hc.
    - destruct (Hwf i0 Hc) as [old Hold].
      exists s, i0, old. repeat split; assumption.
    - eexists _, (length (items s)), (construct (p_resource parsed) []).
      split; [reflexivity|]. fields.
      split; [apply lookup_insert_eq|]. split; [apply lookup_last|].
      repeat split. }
  destruct Hph as (s0 & item & old & -> & Hc0 & Hi0 & Hr0 & Hcase).
  cbn [decode_entries andb String.eqb Ascii.eqb Bool.eqb Obj.set].
  destruct (decode_entries_settles cfg true (p_uri parsed) w fields Hall)
    with (properties := [("$uri", VStr (p_uri parsed))])
         (slots := @nil (string * bool * task))
         (kvs := @nil (string * value)) (s := s0)
    as (slots & -> & Hslots); [|constructor|].
  { apply Forall_forall. intros e He. rewrite Forall_forall in Hmark.
    specialize (Hmark e He). unfold marker in Hmark.
    apply orb_false_iff in Hmark as [Hmark _].
    apply orb_false_iff in Hmark as [Hmark _].
    apply orb_false_iff in Hmark as [Hmark _]. now rewrite Hmark. }
  cbn [app] in Hslots. cbn [reduce]. munfold.
  rewrite (reduce_slots_settles _ _ Hslots). cbn [held_slots existsb map].
  rewrite orphan_nil.
  assert (Hprops : mapToObject
            (fold_left (fun o '(k, v) => Obj.set k v o) fields
               (Obj.set "$id" (id_of_params (p_params parsed))
                  [("$uri", VStr uri)])) = decoded).
  { cbn [Obj.set String.eqb Ascii.eqb Bool.eqb].
    rewrite fold_set_fresh by exact Hdnd.
    unfold mapToObject. now apply pairsToObject_NoDup. }
  unfold merge. munfold. fold uri. rewrite Hc0. cbv beta iota zeta.
  rewrite Hprops. exists item, old. eexists. fields. rewrite Hi0.
  split; [reflexivity|]. split; [exact Hc0|]. split; [exact Hcase|].
  split; [apply list_lookup_insert_eq; now apply lookup_lt_Some in Hi0|].
  split; [reflexivity|].
  split; [|exact Hr0].
  intros k. cbn [i_props]. rewrite (Obj_assign_get k _ _ Hdnd).
  destruct (Obj.get k decoded) as [v|] eqn:Hg; [|reflexivity].
  exists v. split; [reflexivity | now apply (Hsame k)].
Qed.

(** X13.  A resource may refer to itself.  When a property of a payload with
    [$uri] is a reference to the URI of the payload itself, the decode calls
    nothing: the reference is answered from the cache with the placeholder,
    and the decode is fulfilled in its first round with the item, whose
    property is the item itself. *)
Theorem self_reference_resolves_to_item (wire_uri key : string)
    (parsed : ParsedURI) (s : Potion) :
  parseURI (prefix cfg) (resources cfg) wire_uri = Return parsed ->
  wire_uri <> "#" ->
  key <> "$uri" ->
  (forall i0, cache s !! p_uri parsed = Some i0 -> is_Some (items s !! i0)) ->
  let payload := VObj [("$uri", VStr wire_uri);
                       (key, VObj [("$ref", VStr wire_uri)])] in
  let '(t, s1) := fromPotionJSON cfg payload s in
  let '(t', s2) := reduce t s1 in
  exists item it,
    t' = TSettled (Fulfilled (VItem item)) /\
    cache s2 !! p_uri parsed = Some item /\
    items s2 !! item = Some it /\
    Obj.get (toCamelCase key) (i_props it) = Some (VItem item) /\
    requests s2 = requests s.
Proof.
  intros Hparse Hne Hkey Hwf.
  cbn [fromPotionJSON Obj.prop Obj.get String.eqb Ascii.eqb Bool.eqb as_string].
  rewrite Hparse. munfold. cbv beta iota zeta.
  assert (Hph : exists s0 item old,
            cache_placeholder (p_uri parsed) (p_resource parsed) s = (tt, s0) /\
            cache s0 !! p_uri parsed = Some item /\
            items s0 !! item = Some old /\
            requests s0 = requests s).
  { unfold cache_placeholder. munfold.
    destruct (cache s !! p_uri parsed) as [i0|] eqn:Hc.
    - destruct (Hwf i0 eq_refl) as [old Hold].
      exists s, i0, old. repeat split; assumption.
    - eexists _, (length (items s)), (construct (p_resource parsed) []).
      split; [reflexivity|]. fields.
      split; [apply lookup_insert_eq|]. split; [apply lookup_last|].
      reflexivity. }
  destruct Hph as (s0 & item & old & -> & Hc0 & Hi0 & Hr0).
  cbn [decode_entries andb String.eqb Ascii.eqb Bool.eqb Obj.set].
  destruct (String.eqb_spec key "$uri") as [|_]; [contradiction|].
  munfold. rewrite (fromPotionJSON_ref cfg _ parsed s0 Hne Hparse).
  rewrite (fetch_reference_cached cfg _ item s0 Hc0).
  cbn [decode_entries promises_set map app].
  cbn [reduce reduce_slots]. munfold. fields. rewrite lookup_last.
  cbn [reduce_slots held_slots existsb map]. rewrite orphan_nil.
  unfold merge. munfold. fields. rewrite Hc0. cbv beta iota zeta. fields.
  rewrite Hi0. exists item. eexists.
  split; [reflexivity|]. split; [exact Hc0|].
  split; [apply list_lookup_insert_eq; now apply lookup_lt_Some in Hi0|].
  split; [|exact Hr0]. cbn [i_props].
  rewrite Obj_assign_get by apply pairsToObject_keys.
  unfold mapToObject.
  rewrite pairsToObject_NoDup.
  - rewrite !Obj_get_set. rewrite String.eqb_refl. reflexivity.
  - apply Obj_set_NoDup, Obj_set_NoDup. cbn. apply NoDup_singleton.
Qed.

End ResourcePayload.

(** ** Registration *)

Section Registration.
Context `{Runtime}.

Lemma marked_set (p key : string) (m : Obj.t) :
  ItemJSON.marked (Obj.set p (VBool true) m) key
  = String.eqb key p || ItemJSON.marked m key.
Proof.
  unfold ItemJSON.marked. rewrite Obj_get_set.
  destruct (String.eqb key p); reflexivity.
Qed.

Lemma register_readonly_marked (properties : list string)
    (metadata : option Obj.t) (key : string) :
  properties <> [] ->
  exists m,
    ItemJSON.register_readonly properties metadata = Some m /\
    ItemJSON.marked m key
    = existsb (String.eqb key) properties
      || ItemJSON.marked (default [] metadata) key.
Proof.
  intros Hne. destruct properties as [|p ps]; [contradiction|]. clear Hne.
  revert p metadata. induction ps as [|q ps IH]; intros p metadata.
  - eexists. split; [reflexivity|]. cbn [ItemJSON.register_readonly fold_left
      ItemJSON.readonly Obj.assign fst snd existsb].
    rewrite marked_set. now rewrite orb_false_r.
  - destruct (IH q (ItemJSON.readonly p metadata)) as (m & Hm & Hmarked).
    exists m. split; [exact Hm|]. rewrite Hmarked.
    cbn [ItemJSON.readonly default from_option id Obj.assign fold_left fst snd
         existsb].
    rewrite marked_set.
    destruct (String.eqb key q), (String.eqb key p), (existsb _ ps),
      (ItemJSON.marked _ key); reflexivity.
Qed.

(** X14.  The read-only marks of a registration accumulate.  After
    [register] with a non-empty list [readonly], [toJSON] keeps a property
    exactly when it is not in the list and was kept before for the metadata
    object (the one there was, or the new empty object): earlier marks stay,
    and with any mark at all the properties named like a member of
    [Object.prototype], which the metadata object inherits, are filtered
    too. *)
Theorem readonly_marks_accumulate (properties : list string)
    (metadata : option Obj.t) (key : string) :
  properties <> [] ->
  ItemJSON.kept (ItemJSON.register_readonly properties metadata) key
  = negb (existsb (String.eqb key) properties)
    && ItemJSON.kept (Some (default [] metadata)) key.
Proof.
  intros Hne.
  destruct (register_readonly_marked properties metadata key Hne)
    as (m & -> & Hm).
  unfold ItemJSON.kept. rewrite Hm.
  destruct (JSString.startsWith key "_"), (existsb _ properties),
    (ItemJSON.marked _ key); reflexivity.
Qed.

Lemma scan_register (local rp : string) (r : resource)
    (rs : list (string * resource)) :
  matches local (rp, r) ->
  (forall e, In e rs -> fst e <> rp -> ~ matches local e) ->
  scan_resources local (register rp r rs)
  = Some {| p_uri := local; p_resource := r;
            p_params := JSString.split "/"
               (JSString.substring (String.length rp + 1) local) |}.
Proof.
  intros Hm Hothers.
  assert (Hhit : (JSString.indexOf local (rp +:+ "/") =? 0) = true).
  { apply Z.eqb_eq, indexOf_zero. now apply (matches_prefix local (rp, r)). }
  induction rs as [|[u r'] rs IH]; cbn [register scan_resources].
  - now rewrite Hhit.
  - destruct (String.eqb_spec rp u) as [<-|Hne]; cbn [scan_resources].
    + now rewrite Hhit.
    + assert (Hmiss : (JSString.indexOf local (u +:+ "/") =? 0) = false).
      { apply Z.eqb_neq. intros Hz%indexOf_zero.
        apply (Hothers (u, r')); [now left | cbn; congruence |].
        now apply (matches_prefix local (u, r')). }
      rewrite Hmiss. apply IH. intros e He. apply Hothers. now right.
Qed.

(** X15.  Registration makes a path resolvable.  After [register(rp, r)], a
    URI made of the API prefix, [rp], a slash and a rest parses to the local
    URI without the prefix, to [r] (also when [rp] was registered before,
    with another type) and to the rest split at its slashes, provided no
    other registered path followed by a slash starts the local URI too. *)
Theorem registered_path_parses (pfx rp rest wire : string) (r : resource)
    (rs : list (string * resource)) :
  decodeURIComponent wire = Some (pfx +:+ rp +:+ "/" +:+ rest) ->
  (forall e, In e rs -> fst e <> rp ->
             ~ matches (rp +:+ "/" +:+ rest) e) ->
  parseURI pfx (register rp r rs) wire
  = Return {| p_uri := rp +:+ "/" +:+ rest; p_resource := r;
              p_params := JSString.split "/" rest |}.
Proof.
  intros Hdec Hothers. unfold parseURI. rewrite Hdec, strip_prefix_app.
  rewrite (scan_register _ rp r rs); [|now exists rest | exact Hothers].
  do 3 f_equal. rewrite <- append_assoc.
  replace (String.length rp + 1)%nat with (String.length (rp +:+ "/"))
    by (rewrite length_append; reflexivity).
  apply substring_app.
Qed.

End Registration.

(** ** The identifier of a resource *)

Section Identifier.

(** The number that a string of decimal digits writes. *)
Definition decimal (s : string) : Z :=
  fold_left (fun acc c => 10 * acc + JSString.digit_value c)
    (list_ascii_of_string s) 0.

Lemma digits_prefix_all (s : string) (acc : Z) (seen : bool) :
  JSString.all_digits s = true ->
  JSString.digits_prefix s acc seen =
  if seen || negb (String.eqb s "")
  then Some (fold_left (fun a c => 10 * a + JSString.digit_value c)
               (list_ascii_of_string s) acc)
  else None.
Proof.
  revert acc seen. induction s as [|c s IH]; intros acc seen Hall; cbn.
  - now destruct seen.
  - cbn in Hall. apply andb_prop in Hall as [Hc Hs]. rewrite Hc.
    rewrite (IH _ true Hs). cbn. now rewrite orb_true_r.
Qed.

Lemma split_nonempty (sep : ascii) (s : string) : JSString.split sep s <> [].
Proof.
  induction s as [|c s IH]; cbn; [discriminate|].
  destruct (Ascii.eqb c sep); [discriminate|].
  destruct (JSString.split sep s); discriminate.
Qed.

(** X16.  The identifier of a decoded resource is always there: it is read
    from the first segment of the path behind the resource path, which
    exists even when the path is empty.  It is the number that the segment
    writes when the segment is made of decimal digits only, leading zeros
    dropped (for the numbers that a double holds exactly, up to [2^53]),
    and the segment itself, a string, otherwise. *)
Theorem id_is_number_when_numeric (rest : string) :
  exists seg segs,
    JSString.split "/" rest = seg :: segs /\
    (JSString.test_digits seg = true ->
     0 <= decimal seg /\
     (decimal seg <= 9007199254740992 ->
      id_of_params (JSString.split "/" rest) = VNum (Int (decimal seg)))) /\
    (JSString.test_digits seg = false ->
     id_of_params (JSString.split "/" rest) = VStr seg).
Proof.
  destruct (JSString.split "/" rest) as [|seg segs] eqn:Hsplit;
    [now apply split_nonempty in Hsplit|].
  exists seg, segs. split; [reflexivity|]. split.
  - intros Ht.
    assert (Hnn : 0 <= decimal seg).
    { unfold decimal.
      assert (Hgen : forall l acc, 0 <= acc ->
                Forall (fun c => 0 <= JSString.digit_value c) l ->
                0 <= fold_left (fun a c => 10 * a + JSString.digit_value c)
                       l acc).
      { induction l as [|c l IH]; intros acc Hacc Hl; cbn; [exact Hacc|].
        apply Forall_cons in Hl as [Hc Hl]. apply IH; [lia | exact Hl]. }
      apply Hgen; [lia|]. unfold JSString.test_digits in Ht.
      assert (Hall : JSString.all_digits seg = true)
        by (destruct seg; [discriminate | exact Ht]).
      clear -Hall. induction seg as [|c seg IH]; cbn; [constructor|].
      cbn in Hall. apply andb_prop in Hall as [Hc Hs].
      constructor; [|now apply IH].
      unfold JSString.is_digit in Hc. apply andb_prop in Hc as [Hlo _].
      apply Nat.leb_le in Hlo. unfold JSString.digit_value. lia. }
    split; [exact Hnn|].
    + intros Hb. cbn [id_of_params]. rewrite Ht.
      f_equal. rewrite <- (double_of_Z_safe (decimal seg)) by lia.
      unfold JSString.test_digits in Ht.
      destruct seg as [|c seg]; [discriminate|].
      pose proof Ht as Hall. cbn in Hall. apply andb_prop in Hall as [Hc _].
      unfold JSNumber.parseInt_string.
      assert (Hskip : JSString.skip_space (String c seg) = String c seg).
      { cbn. replace (JSString.is_space c) with false; [reflexivity|].
        unfold JSString.is_digit, JSString.is_space in *.
        destruct (Nat.eqb_spec (nat_of_ascii c) 32) as [E|_];
          [rewrite E in Hc; discriminate|].
        apply andb_prop in Hc as [Hlo _]. apply Nat.leb_le in Hlo.
        cbn [orb]. symmetry. apply andb_false_iff. right.
        apply Nat.leb_gt. lia. }
      rewrite Hskip.
      assert (Hd : JSString.digits_prefix (String c seg) 0 false
                   = Some (decimal (String c seg)))
        by (rewrite digits_prefix_all by exact Ht; reflexivity).
      destruct (Ascii.eqb_spec c "-") as [->|Hm]; [discriminate Hc|].
      destruct (Ascii.eqb_spec c "+") as [->|Hp]; [discriminate Hc|].
      destruct c as [[] [] [] [] [] [] [] []]; try (now rewrite Hd);
        try discriminate Hc; congruence.
  - intros Ht. cbn [id_of_params]. now rewrite Ht.
Qed.

End Identifier.

(** ** Failures of a decode *)

Section DecodeFailures.
Context `{NamingCodec} `{Runtime}.
Variable cfg : PotionOptions.

Lemma parseURI_throws_error (w : string) (e : reason) :
  parseURI (prefix cfg) (resources cfg) w = Throw e ->
  exists name message, e = RError name message.
Proof.
  unfold parseURI. destruct (decodeURIComponent w) as [d|].
  - destruct (scan_resources _ _); [discriminate|].
    intros [= <-]. now eexists _, _.
  - intros [= <-]. now eexists _, _.
Qed.

(** X17.  An answer that names an unknown resource fails the fetch with a
    message.  When the transport answers a GET that [fetch] has registered
    with an object whose [$uri] does not parse, the next round rejects the
    promise of the caller with the message of the error that [parseURI]
    threw, a string and not the error; the entry of the table of pending
    requests is gone, and neither the cache nor the items have changed. *)
Theorem unknown_resource_answer_rejects_fetch (uri : string) (l : loc)
    (fo : FetchOptions) (s : Potion) (fs : list (string * value))
    (wire_uri : string) (e : reason) (hs : Obj.t) :
  options s !! l = Some fo ->
  o_method fo = Some "GET" -> o_search fo = None -> o_paginate fo = false ->
  (o_cache fo = true -> cache s !! uri = None) ->
  pendingGETRequests s !! add_prefix cfg uri = None ->
  as_string (Obj.prop "$uri" fs) = Some wire_uri ->
  parseURI (prefix cfg) (resources cfg) wire_uri = Throw e ->
  let rid := length (jobs s) in
  let '(p, s1) := fetch cfg uri (Some l) None s in
  let answer := Resolve {| data := VObj fs; headers := hs |} in
  let s3 := run cfg [Respond rid answer; Advance rid] s1 in
  exists name message,
    e = RError name message /\
    promises s3 !! p = Some (Settled (Rejected (RValue (VStr message)))) /\
    pendingGETRequests s3 !! add_prefix cfg uri = None /\
    cache s3 = cache s /\
    items s3 = items s.
Proof.
  intros Hl Hm Hs Hp Hc Hpend Huri Hparse rid.
  destruct (parseURI_throws_error _ _ Hparse) as (name & message & ->).
  rewrite (fetch_uncached_GET_eq cfg uri l fo None s Hl Hm Hs Hp Hc), Hpend.
  cbv beta iota zeta.
  match goal with |- context [run cfg _ ?st] => set (s1 := st) end.
  match goal with
  | |- context [run cfg ?es s1] => remember (run cfg es s1) as s3 eqn:Hs3
  end.
  set (j := job_of cfg s uri fo None (Some (S (length (promises s))))) in *.
  assert (Hj : jobs s1 !! rid = Some j) by apply lookup_last.
  cbn [run fold_left do_step] in Hs3.
  rewrite respond_eq, Hj in Hs3. cbn [j job_of j_stage data headers] in Hs3.
  cbn [fromPotionJSON] in Hs3. rewrite Huri, Hparse in Hs3. munfold.
  pose proof (set_stage_stage rid hs
                (Decoding (TSettled (Rejected (RError name message)))) s1 _ Hj)
    as Hj2.
  assert (Hsame : snd (set_stage rid hs
                    (Decoding (TSettled (Rejected (RError name message)))) s1)
            = upd_jobs (fun js =>
                match js !! rid with
                | Some j0 =>
                    <[rid := with_stage hs
                       (Decoding (TSettled (Rejected (RError name message))))
                       j0]> js
                | None => js
                end) s1) by reflexivity.
  set (s2 := snd (set_stage rid hs _ s1)) in *.
  rewrite advance_eq, Hj2 in Hs3. cbn [with_stage j_stage reduce] in Hs3.
  munfold.
  match type of Hs3 with
  | _ = snd (finish_request rid ?j2 ?o s2) =>
      pose proof (finish_request_spec rid j2 o s2 (S (length (promises s))))
        as Hfin
  end.
  cbv zeta in Hfin. rewrite <- Hs3 in Hfin.
  destruct Hfin as (Hpe & _ & Hout & _ & Hca & Hit & _ & _).
  - exact Hj2.
  - reflexivity.
  - cbn. lia.
  - rewrite Hsame. unfold s1. fields. cbn. rewrite length_app. cbn. lia.
  - rewrite Hsame. unfold s1. fields. rewrite length_app. cbn. lia.
  - exists name, message. split; [reflexivity|].
    split; [exact Hout|]. split; [exact Hpe|].
    split; [rewrite Hca | rewrite Hit]; rewrite Hsame; reflexivity.
Qed.

Lemma decode_entries_app (dec : value -> M task) (own : bool)
    (a b : list (string * value)) (uri : string) :
  forall properties slots s,
    decode_entries dec own (a ++ b) uri properties slots s =
    let '((properties', slots'), s') :=
      decode_entries dec own a uri properties slots s in
    decode_entries dec own b uri properties' slots' s'.
Proof.
  induction a as [|[k x] a IH]; intros properties slots s;
    cbn [app decode_entries]; [reflexivity|].
  destruct (own && String.eqb k "$uri"); [apply IH|].
  munfold. destruct (dec x s) as [t s1]. apply IH.
Qed.

Lemma slot_settles_unhold (k : string) slots kvs :
  Forall2 slot_settles slots kvs ->
  Forall2 slot_settles
    (map (fun '(k', held, t') =>
            (k', held && negb (String.eqb k k'), t')) slots) kvs.
Proof.
  induction 1 as [|[[k0 h0] t0] kv ? ? Hs _ IH]; cbn; constructor;
    [exact Hs | exact IH].
Qed.

Lemma reduce_slots_rejected slots kvs (k : string) (e : reason) :
  Forall2 slot_settles slots kvs ->
  forall properties s,
    reduce_slots reduce (slots ++ [(k, true, TSettled (Rejected e))])
      properties s
    = ((fold_left (fun o '(k, v) => Obj.set k v o) kvs properties, [], Some e),
       s).
Proof.
  induction 1 as [|[[k0 h] t] [k' v] slots kvs [Hk Ht] _ IH];
    intros properties s; cbn [app reduce_slots fold_left].
  - munfold. reflexivity.
  - munfold. cbn in Hk, Ht. subst k'. rewrite (Ht s). apply IH.
Qed.

(** X18.  A decode that fails merges nothing.  When the last property of a
    payload with [$uri], whose other properties are plain, is a reference
    that does not parse, the first round rejects the decode with the error
    that [parseURI] threw and changes nothing: no property of the payload
    reaches the item, nothing is asked of the transport, and the cache
    keeps the entry made at the start, which for a URI that was not cached
    is the placeholder without properties. *)
Theorem failed_property_rejects_resource (wire_uri bad key : string)
    (parsed : ParsedURI) (e : reason) (fields : Obj.t) (s : Potion) :
  parseURI (prefix cfg) (resources cfg) wire_uri = Return parsed ->
  parseURI (prefix cfg) (resources cfg) bad = Throw e ->
  bad <> "#" ->
  key <> "$uri" ->
  plain (VObj fields) = true ->
  let wire := omap (fun k v => (toSnakeCase k, toPotionJSON cfg s v)) fields in
  let payload :=
    VObj (("$uri", VStr wire_uri) :: wire
          ++ [(key, VObj [("$ref", VStr bad)])])%list in
  let '(t, s1) := fromPotionJSON cfg payload s in
  let '(t', s2) := reduce t s1 in
  t' = TSettled (Rejected e) /\
  s2 = s1 /\
  requests s1 = requests s /\
  exists item,
    cache s1 !! p_uri parsed = Some item /\
    (cache s !! p_uri parsed = None ->
     items s1 !! item = Some (construct (p_resource parsed) [])).
Proof.
  intros Hparse Hbad Hne Hkey Hplain wire payload.
  destruct (plain_fields cfg fields (length (items s)) (items s) Hplain)
    as (Hwire & Hall & Hmark & _).
  cbv zeta in Hwire. unfold payload, wire, toPotionJSON. rewrite Hwire.
  set (w := map _ fields) in *.
  cbn [fromPotionJSON Obj.prop Obj.get String.eqb Ascii.eqb Bool.eqb as_string].
  rewrite Hparse. munfold. cbv beta iota zeta.
  assert (Hph : exists s0 item,
            cache_placeholder (p_uri parsed) (p_resource parsed) s = (tt, s0) /\
            cache s0 !! p_uri parsed = Some item /\
            requests s0 = requests s /\
            (cache s !! p_uri parsed = None ->
             items s0 !! item = Some (construct (p_resource parsed) []))).
  { unfold cache_placeholder. munfold.
    destruct (cache s !! p_uri parsed) as [i0|] eqn:Hc.
    - exists s, i0. repeat split; [exact Hc | discriminate].
    - eexists _, (length (items s)). split; [reflexivity|]. fields.
      split; [apply lookup_insert_eq|]. split; [reflexivity|].
      intros _. apply lookup_last. }
  destruct Hph as (s0 & item & -> & Hc0 & Hr0 & Hnew).
  cbn [decode_entries andb String.eqb Ascii.eqb Bool.eqb Obj.set].
  rewrite decode_entries_app.
  destruct (decode_entries_settles cfg true (p_uri parsed) w fields Hall)
    with (properties := [("$uri", VStr (p_uri parsed))])
         (slots := @nil (string * bool * task))
         (kvs := @nil (string * value)) (s := s0)
    as (slots & -> & Hslots); [|constructor|].
  { apply Forall_forall. intros x Hx. rewrite Forall_forall in Hmark.
    specialize (Hmark x Hx). unfold marker in Hmark.
    apply orb_false_iff in Hmark as [Hmark _].
    apply orb_false_iff in Hmark as [Hmark _].
    apply orb_false_iff in Hmark as [Hmark _]. now rewrite Hmark. }
  cbn [app] in Hslots. cbn [decode_entries andb].
  destruct (String.eqb_spec key "$uri") as [|_]; [contradiction|].
  munfold.
  cbn [fromPotionJSON Obj.prop Obj.get String.eqb Ascii.eqb Bool.eqb as_string].
  destruct (String.eqb_spec bad "#") as [|_]; [contradiction|].
  rewrite Hbad. munfold. cbv beta iota zeta. unfold promises_set.
  cbn [reduce]. munfold.
  rewrite (reduce_slots_rejected _ fields _ e
             (slot_settles_unhold _ _ _ Hslots)).
  cbn [map]. rewrite orphan_nil.
  split; [reflexivity|]. split; [reflexivity|]. split; [exact Hr0|].
  exists item. split; assumption.
Qed.

End DecodeFailures.

(** ** Routes *)

(** What a route hands to [fetch]: the URI and the options
    [{method, paginate, cache}] with [search] or [data] set to the
    parameters. *)
Record RouteCall := {
  rc_uri : string;
  rc_method : option string;
  rc_search : value;
  rc_data : value;
  rc_paginate : bool;
  rc_cache : bool
}.

Definition method_is (method : option string) (m : string) : bool :=
  match method with
  | Some x => String.eqb x m
  | None => false
  end.

(** One call of the function that [route(uri, {method})] returns, on a
    receiver whose URI is [base] (the registered path for a constructor, the
    URI of the item for an instance).  The body assigns to the variable
    [uri] of the enclosing [route]: the second component is its new
    value. *)
Definition route (method : option string) (base : string) (params : value)
    (paginate cache : option bool) (uri : string) : RouteCall * string :=
  let uri := base +:+ uri in
  ({| rc_uri := uri;
      rc_method := method;
      rc_search := if method_is method "GET" then params else VUndefined;
      rc_data :=
        if method_is method "GET" then VUndefined
        else if method_is method "POST" || method_is method "PUT"
                || method_is method "PATCH"
             then params else VUndefined;
      rc_paginate := default false paginate;
      rc_cache := default true cache |},
   uri).

(** The calls of one route, one after the other, on receivers with the URIs
    [bases]. *)
Fixpoint route_calls (method : option string) (bases : list string)
    (uri : string) : list RouteCall * string :=
  match bases with
  | [] => ([], uri)
  | base :: bases' =>
      let '(call, uri') := route method base VUndefined None None uri in
      let '(calls, uri'') := route_calls method bases' uri' in
      (call :: calls, uri'')
  end.

Section Routes.

Lemma route_calls_uris (method : option string) (bases : list string)
    (uri : string) :
  map rc_uri (fst (route_calls method bases uri))
  = map (fun n => fold_left (fun u b => b +:+ u) (take (S n) bases) uri)
        (seq 0 (length bases)) /\
  snd (route_calls method bases uri) = fold_left (fun u b => b +:+ u) bases uri.
Proof.
  revert uri. induction bases as [|b bases IH]; intros uri; [now split|].
  cbn [route_calls route]. specialize (IH (b +:+ uri)).
  destruct (route_calls method bases (b +:+ uri)) as [calls uri'].
  cbn [fst snd] in *. destruct IH as [IH1 IH2]. split; [|exact IH2].
  cbn [map length seq rc_uri take fold_left]. f_equal.
  rewrite IH1, <- seq_shift, map_map. reflexivity.
Qed.

Lemma take_repeat_le {A} (x : A) (k n : nat) :
  (k <= n)%nat -> take k (repeat x n) = repeat x k.
Proof.
  revert n. induction k as [|k IH]; intros n Hk; [reflexivity|].
  destruct n as [|n]; [lia|]. cbn. f_equal. apply IH. lia.
Qed.

(** X19.  A route remembers its last URI.  The function that [route]
    returns puts the URI of its receiver in front of the variable [uri] of
    the route and keeps the result in that variable; so the first call
    fetches the URI of the receiver followed by the path of the route, and
    the [n]-th call the URIs of all [n] receivers so far, the last one
    first, followed by the path.  The parameters go to [search] for GET, to
    [data] for POST, PUT and PATCH, and nowhere otherwise; [paginate]
    defaults to false and [cache] to true. *)
Theorem route_accumulates_uri (method : option string) (base : string)
    (params : value) (paginate cache : option bool) (uri : string)
    (n : nat) :
  let '(first, uri1) := route method base params paginate cache uri in
  let '(second, uri2) := route method base params paginate cache uri1 in
  rc_uri first = base +:+ uri /\
  rc_uri second = base +:+ base +:+ uri /\
  (base <> "" -> rc_uri second <> rc_uri first) /\
  map rc_uri (fst (route_calls method (repeat base n) uri))
  = map (fun k => fold_left (fun u b => b +:+ u) (repeat base (S k)) uri)
        (seq 0 n) /\
  (rc_search first, rc_data first) =
    (if method_is method "GET" then (params, VUndefined)
     else if method_is method "POST" || method_is method "PUT"
             || method_is method "PATCH"
          then (VUndefined, params) else (VUndefined, VUndefined)) /\
  rc_paginate first = default false paginate /\
  rc_cache first = default true cache.
Proof.
  cbn [route rc_uri rc_search rc_data rc_paginate rc_cache].
  split; [reflexivity|]. split; [reflexivity|]. split; [|split; [|split]].
  - intros Hne Heq. apply (f_equal String.length) in Heq.
    rewrite !length_append in Heq.
    destruct base as [|c base]; [contradiction | cbn in Heq; lia].
  - destruct (route_calls_uris method (repeat base n) uri) as [Hu _].
    rewrite Hu, repeat_length. apply map_ext_in. intros k Hk%in_seq.
    cbv beta. f_equal. apply take_repeat_le. lia.
  - destruct (method_is method "GET"); [reflexivity|].
    destruct (method_is method "POST" || method_is method "PUT"
              || method_is method "PATCH"); reflexivity.
  - split; reflexivity.
Qed.

End Routes.

(** ** A page without data *)

Section NoPage.
Context `{NamingCodec} `{Runtime}.
Variable cfg : PotionOptions.

(** [undefined] and [null]: the answers whose [length] cannot be read. *)
Definition nullish (d : value) : bool :=
  match d with
  | VUndefined | VNull => true
  | _ => false
  end.

Lemma paginate_handler_nullish (j : Job) (d : value) (s : Potion) :
  j_paginate j = true ->
  nullish d = true ->
  truthy (Obj.prop "x-total-count" (j_headers j)) = false ->
  paginate_handler j d s = (Rejected type_error, s).
Proof.
  intros Hp Hd Hh. unfold paginate_handler. rewrite Hp, Hh. munfold.
  destruct d; try discriminate; reflexivity.
Qed.

(** X20.  An answer without data and without count fails a paginated
    fetch.  When the transport answers a paginated request with
    [undefined] or [null] and the header [x-total-count] is missing or
    falsy, the next round rejects the promise of the caller with the
    [TypeError] of reading [data.length], whether or not a cursor was
    passed; no cursor is made and none is changed. *)
Theorem paginated_answer_without_data_is_rejected (uri : string)
    (fetchOptions pagination : option loc) (s : Potion) (d : value)
    (hs : Obj.t) :
  let fo := read_options s fetchOptions in
  o_paginate fo = true ->
  nullish d = true ->
  truthy (Obj.prop "x-total-count" hs) = false ->
  let rid := length (jobs s) in
  let '(p, s1) := fetch cfg uri fetchOptions pagination s in
  let answer := Resolve {| data := d; headers := hs |} in
  let s3 := run cfg [Respond rid answer; Advance rid] s1 in
  promises s3 !! p = Some (Settled (Rejected type_error)) /\
  cursors s3 = cursors s.
Proof.
  intros fo Hpag Hd Hh rid.
  rewrite fetch_paginate_eq by exact Hpag. cbv beta iota zeta. fold fo.
  match goal with |- context [run cfg _ ?st] => set (s1 := st) end.
  match goal with
  | |- context [run cfg ?l s1] => remember (run cfg l s1) as s3 eqn:Hs3
  end.
  assert (Hj : jobs s1 !! rid = Some (job_of cfg s uri fo pagination None))
    by apply lookup_last.
  assert (Hdec : fromPotionJSON cfg d s1 = (TSettled (Fulfilled d), s1))
    by (destruct d; try discriminate; reflexivity).
  cbn [run fold_left do_step] in Hs3.
  rewrite respond_eq, Hj in Hs3. cbn [job_of j_stage data headers] in Hs3.
  rewrite Hdec in Hs3.
  pose proof (set_stage_stage rid hs (Decoding (TSettled (Fulfilled d))) s1 _ Hj)
    as Hj2.
  assert (Hsame : snd (set_stage rid hs (Decoding (TSettled (Fulfilled d))) s1)
            = upd_jobs (fun js =>
                match js !! rid with
                | Some j =>
                    <[rid := with_stage hs (Decoding (TSettled (Fulfilled d))) j]>
                      js
                | None => js
                end) s1) by reflexivity.
  set (s2 := snd (set_stage rid hs _ s1)) in *.
  rewrite advance_eq, Hj2 in Hs3. cbn [with_stage j_stage reduce] in Hs3.
  munfold.
  rewrite paginate_handler_nullish in Hs3
    by (try exact Hd; try exact Hpag; exact Hh).
  unfold finish_request, settle, set_stage in Hs3. munfold.
  cbn [with_stage j_registered j_request job_of j_headers] in Hs3.
  cbv beta iota zeta in Hs3. cbn [snd] in Hs3.
  rewrite Hs3. fields. rewrite Hsame. unfold s1. fields.
  split; [|reflexivity].
  apply list_lookup_insert_eq. rewrite length_app. cbn. lia.
Qed.

End NoPage.

(** * Examples: the client at work *)

Module Examples.
Import Reference.
Local Open Scope nat_scope.

Definition Widget : resource := {| r_name := "Widget"; r_fields := [] |}.

Definition api : PotionOptions :=
  {| host := "http://api.test"; prefix := "/api";
     resources := [("/widget", Widget)] |}.

Definition GET_cached : FetchOptions :=
  {| o_method := Some "GET"; o_search := None; o_data := VUndefined;
     o_cache := true; o_paginate := false |}.
Definition GET_fresh : FetchOptions :=
  {| o_method := Some "GET"; o_search := None; o_data := VUndefined;
     o_cache := false; o_paginate := false |}.
Definition GET_pages : FetchOptions :=
  {| o_method := Some "GET"; o_search := None; o_data := VUndefined;
     o_cache := true; o_paginate := true |}.

(** A client that has fetched nothing; the caller holds three options
    objects, at [0], [1] and [2]. *)
Definition start : Potion :=
  snd (alloc_options GET_pages
         (snd (alloc_options GET_fresh
                 (snd (alloc_options GET_cached empty_potion))))).

Definition widget1 : value :=
  VObj [("$uri", VStr "/api/widget/1"); ("foo_bar", VNum (Int 3))].
Definition widget1' : value :=
  VObj [("$uri", VStr "/api/widget/1"); ("foo_bar", VNum (Int 4))].

Definition answer1 : answer := Resolve {| data := widget1; headers := [] |}.
Definition page_of_widgets : answer :=
  Resolve {| data := VArr [widget1];
             headers := [("x-total-count", VStr "101")] |}.

(** [/widget/1] has been fetched and decoded: the cache holds it. *)
Definition cached : Potion :=
  run api [Fetch "/widget/1" (Some 0) None; Respond 0 answer1; Advance 0] start.

(** On top of that, a GET of [/widget/1] without the [cache] option is in
    flight. *)
Definition cached_and_pending : Potion :=
  run api [Fetch "/widget/1" (Some 1) None] cached.

(** A first page of widgets has been fetched: cursor [0]. *)
Definition paged : Potion :=
  run api [Fetch "/widget" (Some 2) None; Respond 0 page_of_widgets; Advance 0]
    start.

Example cached_item :
  cache cached !! "/widget/1" = Some 0 /\
  items cached !! 0 =
    Some {| i_resource := Widget;
            i_props := [("$uri", VStr "/widget/1"); ("$id", VNum (Int 1));
                        ("fooBar", VNum (Int 3))] |}.
Proof. split; vm_compute; reflexivity. Qed.

(** Beyond [2^53] the numbers round as doubles do. *)
Example numbers_round_as_doubles :
  JSNumber.parseInt_string "9007199254740993" = Int 9007199254740992 /\
  JSNumber.ceil_div (Int (2 ^ 54)) (Int 3) = Int 6004799503160661.
Proof. split; vm_compute; reflexivity. Qed.

Example pages_of_101_by_25 :
  pages {| _uri := "/api/widget"; _options := 0; _pointer := 0; _items := [];
           _page := VNum (Int 1); _perPage := VNum (Int 25);
           _total := VNum (Int 101) |} = Int 5.
Proof. reflexivity. Qed.

Example case_round_trip :
  toPotionJSON api start (VObj [("fooBar", VNum (Int 1))])
    = VObj [("foo_bar", VNum (Int 1))] /\
  fst (reduce (fst (fromPotionJSON api (VObj [("foo_bar", VNum (Int 1))]) start))
         start)
    = TSettled (Fulfilled (VObj [("fooBar", VNum (Int 1))])).
Proof. split; vm_compute; reflexivity. Qed.

Example toJSON_of_item :
  ItemJSON.toJSON snake (ItemJSON.register_readonly ["createdAt"] None)
    [("_id", VNull); ("fooBar", VNum (Int 1)); ("createdAt", VNum (Int 5))]
  = [("foo_bar", VNum (Int 1))].
Proof. reflexivity. Qed.

(** The witness of C4: the cached item is returned, the transport is not
    called. *)
Lemma fetch_cache_short_circuit_witness :
  let '(p, s') := fetch api "/widget/1" (Some 0) None cached in
  promises s' !! p = Some (Settled (Fulfilled (VItem 0))) /\
  requests s' = requests cached.
Proof.
  pose proof (fetch_cache_short_circuit api "/widget/1" (Some 0) None cached 0
                eq_refl eq_refl eq_refl eq_refl eq_refl) as Hw.
  destruct (fetch api "/widget/1" (Some 0) None cached) as [p s'].
  destruct Hw as (_ & Hp & Hr & _). split; assumption.
Defined.

Definition parsed1 : ParsedURI :=
  {| p_uri := "/widget/1"; p_resource := Widget; p_params := ["1"] |}.


(** Two decodes of [/api/widget/1] in a row: one item, updated in place. *)
Example two_decodes_one_item :
  let '(t1, s1) := fromPotionJSON api widget1 start in
  let '(r1, s2) := reduce t1 s1 in
  let '(t2, s3) := fromPotionJSON api widget1' s2 in
  let '(r2, s4) := reduce t2 s3 in
  r1 = TSettled (Fulfilled (VItem 0)) /\
  r2 = TSettled (Fulfilled (VItem 0)) /\
  Obj.get "fooBar" <$> (i_props <$> items s2 !! 0) = Some (Some (VNum (Int 3))) /\
  Obj.get "fooBar" <$> (i_props <$> items s4 !! 0) = Some (Some (VNum (Int 4))) /\
  length (items s4) = 1.
Proof. vm_compute. repeat split; reflexivity. Qed.

(** A property that refers back to the object being decoded resolves to the
    placeholder, which is the item itself. *)
Example cycle_resolves_to_same_item :
  let json := VObj [("$uri", VStr "/api/widget/1");
                    ("self", VObj [("$ref", VStr "/api/widget/1")])] in
  let '(t1, s1) := fromPotionJSON api json start in
  let '(r1, s2) := reduce t1 s1 in
  r1 = TSettled (Fulfilled (VItem 0)) /\
  requests s2 = [] /\
  Obj.get "self" <$> (i_props <$> items s2 !! 0) = Some (Some (VItem 0)).
Proof. vm_compute. repeat split; reflexivity. Qed.

(** The witness of C2 as amended: the second of two GETs in a row returns the
    promise of the table and calls nothing. *)
Lemma fetch_shares_pending_request_witness :
  let '(first, s1) := fetch api "/widget/1" (Some 1) None start in
  let '(second, s2) := fetch api "/widget/1" (Some 1) None s1 in
  requests s2 = requests s1 /\
  pendingGETRequests s1 !! add_prefix api "/widget/1" = Some second.
Proof.
  pose proof (fetch_shares_pending_request api "/widget/1" (Some 1) None start
                eq_refl eq_refl eq_refl (fun _ => eq_refl)) as [_ Hw].
  specialize (Hw eq_refl).
  destruct (fetch api "/widget/1" (Some 1) None start) as [first s1].
  destruct (fetch api "/widget/1" (Some 1) None s1) as [second s2].
  destruct Hw as (_ & Hr & Hp & _). split; assumption.
Defined.

(** The counterexample to C2 as stated: a GET of [/widget/1] is in flight
    (promise [2] of the table) and the item is cached; a GET without search
    parameters with the [cache] option returns a new promise, fulfilled with
    the cached item, and not the pending one. *)
Lemma fetch_with_cache_ignores_pending_request :
  let fo := read_options cached_and_pending (Some 0) in
  o_method fo = Some "GET" /\ o_search fo = None /\ o_paginate fo = false /\
  pendingGETRequests cached_and_pending !! add_prefix api "/widget/1" = Some 2 /\
  promises cached_and_pending !! 2 = Some Pending /\
  let '(p, s') := fetch api "/widget/1" (Some 0) None cached_and_pending in
  p <> 2 /\
  promises s' !! p = Some (Settled (Fulfilled (VItem 0))).
Proof. vm_compute. repeat split; try reflexivity. discriminate. Qed.

Definition boom : reason := RError "Error" "boom".

(** The witness of C3 as amended: the transport rejects the request; the
    entry is gone and the caller gets the message of the error. *)
Lemma pending_request_removed_on_settlement_witness :
  let s3 := run api [Fetch "/widget/1" (Some 1) None; Respond 0 (Reject boom)]
              start in
  pendingGETRequests s3 !! "/api/widget/1" = None /\
  promises s3 !! 1 = Some (Settled (Rejected (RValue (VStr "boom")))).
Proof.
  pose proof (pending_request_removed_on_settlement api "/widget/1" (Some 1)
                None start [] (Respond 0 (Reject boom))
                eq_refl eq_refl eq_refl (fun _ => eq_refl) eq_refl) as Hw.
  vm_compute in Hw.
  destruct Hw as (_ & _ & _ & _ & Hsettle & _).
  destruct Hsettle as (Hp & (o & Ho1 & Ho2 & Ho) & _);
    [discriminate | reflexivity |].
  rewrite (Ho boom eq_refl) in Ho2.
  split; [exact Hp | exact Ho2].
Defined.

(** The counterexample to C3 as stated: a GET without search parameters and
    with the [cache] option calls the transport, is answered and decoded;
    the entry of the table is gone, yet the same GET again calls nothing:
    the cache answers it. *)
Lemma later_GET_answered_by_cache :
  let s1 := run api [Fetch "/widget/1" (Some 0) None] start in
  let s3 := run api [Respond 0 answer1; Advance 0] s1 in
  requests start = [] /\ length (requests s1) = 1 /\
  pendingGETRequests s1 !! "/api/widget/1" = Some 0 /\
  promises s3 !! 0 = Some (Settled (Fulfilled (VItem 0))) /\
  pendingGETRequests s3 !! "/api/widget/1" = None /\
  let '(p, s4) := fetch api "/widget/1" (Some 0) None s3 in
  requests s4 = requests s3 /\
  promises s4 !! p = Some (Settled (Fulfilled (VItem 0))).
Proof. vm_compute. repeat split; reflexivity. Qed.

(** The witness of C6. *)
Lemma parseURI_resolves_or_rejects_witness :
  "/api/widget/1" = "/api" +:+ strip_prefix "/api" "/api/widget/1" /\
  parseURI "/api" [("/widget", Widget)] "/api/widget/1" = Return parsed1.
Proof.
  pose proof (parseURI_resolves_or_rejects api "/api/widget/1" "/api/widget/1"
                eq_refl) as Hw.
  split; [exact (proj1 Hw eq_refl) | reflexivity].
Defined.

Example unknown_resource_is_rejected :
  fromPotionJSON api (VObj [("$uri", VStr "/api/gadget/1")]) start =
  (TSettled (Rejected (RError "Error"
     "URI '/gadget/1' is an uninterpretable or unknown potion resource.")),
   start).
Proof. vm_compute. reflexivity. Qed.

(** A row whose first property is an array: the promise of [tags] settles
    after the one of [fooBar]. *)
Definition row : value :=
  VObj [("tags", VArr [VStr "a"; VNull]); ("fooBar", VNum (Int 1))].



Example page_change_updates_cursor_in_place :
  let s3 := run api [ChangePageTo 0 (VNum (Int 3)); Respond 1 page_of_widgets;
                     Advance 1] paged in
  length (cursors s3) = 1 /\
  _page <$> cursors s3 !! 0 = Some (VNum (Int 3)) /\
  q_search <$> requests s3 !! 1 =
    Some (VObj [("page", VNum (Int 3)); ("per_page", VNum (Int 25))]).
Proof. vm_compute. repeat split; reflexivity. Qed.

(** The witness of C10: the options of the caller, at [2], after a paginated
    fetch, its answer and its decode. *)
Lemma fetch_leaves_options_untouched_witness :
  options (run api [Respond 0 page_of_widgets; Advance 0]
             (snd (fetch api "/widget" (Some 2) None start))) !! 2
  = Some GET_pages.
Proof.
  pose proof (fetch_leaves_options_untouched api "/widget" (Some 2) None start
                [Respond 0 page_of_widgets; Advance 0] eq_refl) as Hw.
  exact (proj2 (proj1 Hw 2 GET_pages eq_refl)).
Defined.

(** The witness of X1. *)
Lemma add_prefix_idempotent_witness :
  add_prefix api (add_prefix api "/widget/1") = add_prefix api "/widget/1".
Proof.
  destruct (add_prefix_idempotent api "/widget/1" 1 GET_fresh None start
              eq_refl eq_refl eq_refl eq_refl eq_refl eq_refl) as [Hw _].
  exact Hw.
Defined.

(** The witness of X2: a paginated GET calls the transport. *)
Lemma fetch_query_always_requests_witness :
  let '(p, s') := fetch api "/widget" (Some 2) None start in
  p = length (promises start) /\ cache s' = cache start.
Proof.
  pose proof (fetch_query_always_requests api "/widget" (Some 2) None start
                (or_intror (or_intror eq_refl))) as Hw.
  destruct (fetch api "/widget" (Some 2) None start) as [p s'].
  destruct Hw as (Hp & _ & _ & _ & _ & Hc). split; assumption.
Defined.

(** The witness of X3. *)
Lemma plain_data_round_trip_witness :
  let '(t, s1) := fromPotionJSON api (toPotionJSON api start row) start in
  exists v', reduce t start = (TSettled (Fulfilled v'), start) /\
             same_data row v' = true.
Proof.
  pose proof (plain_data_round_trip api row start eq_refl) as Hw.
  destruct (fromPotionJSON api (toPotionJSON api start row) start) as [t s1].
  destruct Hw as [_ Hw]. exact Hw.
Defined.

Definition widget1_item : Item :=
  {| i_resource := Widget;
     i_props := [("$uri", VStr "/widget/1"); ("$id", VNum (Int 1));
                 ("fooBar", VNum (Int 3))] |}.

(** The witness of X4. *)
Lemma item_reference_round_trip_witness :
  toPotionJSON api cached (VItem 0) = VObj [("$ref", VStr "/api/widget/1")].
Proof.
  destruct (@item_reference_round_trip codec runtime api 0 widget1_item "/widget/1"
              "/widget" "1" Widget cached
              eq_refl eq_refl eq_refl eq_refl (or_introl eq_refl) eq_refl)
    as [Hw _].
  exact Hw.
Defined.

(** The witness of X5: two references, one request. *)
Lemma references_share_one_request_witness :
  let ref := VObj [("$ref", VStr "/api/widget/1")] in
  length (requests (snd (fromPotionJSON api (VArr [ref; ref]) start))) = 1.
Proof.
  pose proof (references_share_one_request api "/api/widget/1" parsed1 1 start
                ltac:(discriminate) eq_refl eq_refl eq_refl) as Hw.
  cbv zeta in *. cbn [repeat] in Hw.
  destruct (fromPotionJSON api _ start) as [t s1]. cbn [snd].
  destruct Hw as (_ & (q & -> & _) & _). reflexivity.
Defined.

(** The witness of X6. *)
Lemma query_failure_reaches_caller_raw_witness :
  promises (run api [Fetch "/widget" (Some 2) None; Respond 0 (Reject boom)]
              start) !! 0
  = Some (Settled (Rejected boom)).
Proof.
  pose proof (query_failure_reaches_caller_raw api "/widget" (Some 2) None
                start [] boom (or_intror (or_intror eq_refl))) as Hw.
  vm_compute in Hw. vm_compute. destruct (Hw eq_refl) as [Hp _]. exact Hp.
Defined.

(** The witness of X7. *)
Lemma fetch_paginate_defaults_witness :
  exists so,
    searches (snd (fetch api "/widget" (Some 2) None start)) = [so] /\
    Obj.get "page" so = Some (VNum (Int 1%Z)) /\
    Obj.get "perPage" so = Some (VNum (Int 25%Z)).
Proof.
  destruct (fetch_paginate_defaults api "/widget" (Some 2) None start
              eq_refl (NoDup_nil_2 (A := string)))
    as (so & q & Hs & _ & _ & Hp & Hpp & _).
  exists so. split; [exact Hs|]. split; [exact Hp | exact Hpp].
Defined.


(** The witness of X10. *)
Lemma identity_is_permanent_witness :
  cache (run api [Fetch "/widget/1" (Some 1) None;
                  Respond 1 (Resolve {| data := widget1'; headers := [] |});
                  Advance 1] cached) !! "/widget/1" = Some 0.
Proof.
  destruct (identity_is_permanent api
              [Fetch "/widget/1" (Some 1) None;
               Respond 1 (Resolve {| data := widget1'; headers := [] |});
               Advance 1] cached "/widget/1" 0 widget1_item
              eq_refl eq_refl) as [Hw _].
  exact Hw.
Defined.

(** The witness of X11. *)
Lemma placeholder_answers_cached_fetch_witness :
  let s1 := snd (fromPotionJSON api widget1 start) in
  let s2 := run api [] s1 in
  let '(p, s3) := fetch api "/widget/1" (Some 0) None s2 in
  exists item,
    cache s1 !! "/widget/1" = Some item /\
    (cache start !! "/widget/1" = None ->
     items s1 !! item = Some (construct Widget [])) /\
    promises s3 !! p = Some (Settled (Fulfilled (VItem item))) /\
    requests s3 = requests s2.
Proof.
  exact (placeholder_answers_cached_fetch api
           [("$uri", VStr "/api/widget/1"); ("foo_bar", VNum (Int 3%Z))]
           "/api/widget/1" parsed1 start [] 0 GET_cached
           eq_refl eq_refl eq_refl eq_refl eq_refl eq_refl eq_refl).
Defined.

(** The witness of X12: a payload whose first field is an array. *)
Lemma resource_payload_decodes_witness :
  let payload := VObj [("$uri", VStr "/api/widget/1");
                       ("tags", VArr [VStr "a"]);
                       ("foo_bar", VNum (Int 3%Z))] in
  let '(t, s1) := fromPotionJSON api payload start in
  let '(t', s2) := reduce t s1 in
  t' = TSettled (Fulfilled (VItem 0)) /\
  exists it v',
    items s2 !! 0 = Some it /\
    Obj.get "fooBar" (i_props it) = Some v' /\
    same_data (VNum (Int 3%Z)) v' = true.
Proof.
  pose proof (resource_payload_decodes api "/api/widget/1" parsed1
                [("tags", VArr [VStr "a"]); ("fooBar", VNum (Int 3%Z))]
                start eq_refl eq_refl
                ltac:(repeat constructor; discriminate)
                ltac:(intros i0 Hi; vm_compute in Hi; discriminate)) as Hw.
  cbv zeta in Hw.
  change (omap _ _) with [("tags", VArr [VStr "a"]); ("foo_bar", VNum (Int 3%Z))]
    in Hw.
  cbv zeta.
  destruct (fromPotionJSON api _ start) as [t s1].
  destruct (reduce t s1) as [t' s2].
  destruct Hw as (item & old & it & Ht & _ & Hcase & Hi & _ & Hget & _).
  change (cache start !! p_uri parsed1) with (@None loc) in Hcase.
  destruct Hcase as [-> _]. change (length (items start)) with 0 in *.
  specialize (Hget "fooBar"). cbn in Hget. destruct Hget as (v' & Hv' & Hsame).
  split; [exact Ht|]. exists it, v'. repeat split; assumption.
Defined.

(** The witness of X13. *)
Lemma self_reference_resolves_to_item_witness :
  let payload := VObj [("$uri", VStr "/api/widget/1");
                       ("self", VObj [("$ref", VStr "/api/widget/1")])] in
  let '(t, s1) := fromPotionJSON api payload start in
  let '(t', s2) := reduce t s1 in
  requests s2 = [].
Proof.
  pose proof (self_reference_resolves_to_item api "/api/widget/1" "self"
                parsed1 start eq_refl ltac:(discriminate) ltac:(discriminate)
                ltac:(intros i0 Hi; vm_compute in Hi; discriminate)) as Hw.
  cbv zeta in *.
  destruct (fromPotionJSON api _ start) as [t s1].
  destruct (reduce t s1) as [t' s2].
  destruct Hw as (item & it & _ & _ & _ & _ & Hr). exact Hr.
Defined.

(** The witness of X14. *)
Lemma readonly_marks_accumulate_witness :
  ItemJSON.kept (ItemJSON.register_readonly ["createdAt"] None) "createdAt"
  = false.
Proof.
  exact (readonly_marks_accumulate ["createdAt"] None "createdAt"
           ltac:(discriminate)).
Defined.

(** The witness of X15. *)
Lemma registered_path_parses_witness :
  parseURI "/api" (register "/widget" Widget []) "/api/widget/1"
  = Return parsed1.
Proof.
  exact (registered_path_parses "/api" "/widget" "1" "/api/widget/1" Widget []
           eq_refl (fun e He => match He with end)).
Defined.

(** The witness of X17. *)
Lemma unknown_resource_answer_rejects_fetch_witness :
  let s3 := run api [Fetch "/widget/1" (Some 1) None;
                     Respond 0 (Resolve
                       {| data := VObj [("$uri", VStr "/api/gadget/1")];
                          headers := [] |});
                     Advance 0] start in
  promises s3 !! 1 =
    Some (Settled (Rejected (RValue (VStr
      "URI '/gadget/1' is an uninterpretable or unknown potion resource.")))).
Proof.
  pose proof (@unknown_resource_answer_rejects_fetch codec runtime api
                "/widget/1" 1 GET_fresh start
                [("$uri", VStr "/api/gadget/1")] "/api/gadget/1"
                (unknown_resource "/gadget/1") []
                eq_refl eq_refl eq_refl eq_refl (fun _ => eq_refl) eq_refl
                eq_refl eq_refl) as Hw.
  vm_compute in Hw. vm_compute.
  destruct Hw as (name & message & [= _ <-] & Hp & _). exact Hp.
Defined.

(** The witness of X18. *)
Lemma failed_property_rejects_resource_witness :
  let payload := VObj [("$uri", VStr "/api/widget/1");
                       ("foo_bar", VNum (Int 3%Z));
                       ("owner", VObj [("$ref", VStr "/api/gadget/9")])] in
  let '(t, s1) := fromPotionJSON api payload start in
  fst (reduce t s1) = TSettled (Rejected (unknown_resource "/gadget/9")).
Proof.
  pose proof (@failed_property_rejects_resource codec runtime api
                "/api/widget/1" "/api/gadget/9" "owner" parsed1
                (unknown_resource "/gadget/9") [("fooBar", VNum (Int 3%Z))]
                start eq_refl eq_refl ltac:(discriminate) ltac:(discriminate)
                eq_refl) as Hw.
  vm_compute in Hw. vm_compute. destruct Hw as [Ht _]. exact Ht.
Defined.

(** The witness of X20. *)
Lemma paginated_answer_without_data_is_rejected_witness :
  let s3 := run api [Fetch "/widget" (Some 2) None;
                     Respond 0 (Resolve {| data := VNull; headers := [] |});
                     Advance 0] start in
  promises s3 !! 0 = Some (Settled (Rejected type_error)) /\
  cursors s3 = [].
Proof.
  pose proof (@paginated_answer_without_data_is_rejected codec runtime api
                "/widget" (Some 2) None start VNull []
                eq_refl eq_refl eq_refl) as Hw.
  vm_compute in Hw. vm_compute. exact Hw.
Defined.

End Examples.
